(** * invert: fixed-weight Gray code walk and Sherman-Morrison updates

    A shallow embedding of [gray.h], of the index bookkeeping of
    [eigen_sherman] in [invert.cpp] and of [sherman_morrison_update_inverse]
    in [matrix.h], with the properties the specification states about them.

    Conventions.  A [uint32_t] is a [Z] in [0, 2^32) and every operation that
    can leave that range is followed by [wrap32].  An [int] is a [Z]; the
    conversions [int -> uint32_t] that C++ inserts at calls and comparisons
    are written [wrap32].  The loops of the source are fixpoints over a fuel
    that is computed from the loop's own variant; for each of them a lemma
    shows that the fuel is never exhausted. *)

From Stdlib Require Import ZArith List Bool Lia Arith FinFun.
From HB Require structures.
From mathcomp Require boot algebra.
Import ListNotations.

Local Open Scope Z_scope.

(** ** Machine integers *)

Definition wrap32 (z : Z) : Z := z mod 2 ^ 32.

(** Conversion of a [uint32_t] to [int] (two's complement). *)
Definition int_of_u32 (z : Z) : Z :=
  if z <? 2 ^ 31 then z else z - 2 ^ 32.

(** [~x] on a [uint32_t]. *)
Definition not32 (x : Z) : Z := wrap32 (Z.lnot x).

(** ** gray.h: bit utilities *)

(** [count_bits]: [for (; x; x >>= 1) count += x & 1;] *)
Fixpoint count_bits_loop (fuel : nat) (x count : Z) : Z :=
  match fuel with
  | O => count
  | S fuel' =>
      if x =? 0 then count
      else count_bits_loop fuel' (Z.shiftr x 1) (wrap32 (count + Z.land x 1))
  end.

Definition count_bits (x : Z) : Z := count_bits_loop 32 x 0.

(** [set_bit]: [while (x >>= 1) ++r;] *)
Fixpoint set_bit_loop (fuel : nat) (x r : Z) : Z :=
  match fuel with
  | O => r
  | S fuel' =>
      let x := Z.shiftr x 1 in
      if x =? 0 then r else set_bit_loop fuel' x (wrap32 (r + 1))
  end.

Definition set_bit (x : Z) : Z := int_of_u32 (set_bit_loop 32 x 0).

(** [fact]: [for (; x > 1; --x) f *= x;] *)
Fixpoint fact_loop (fuel : nat) (x f : Z) : Z :=
  match fuel with
  | O => f
  | S fuel' =>
      if 1 <? x then fact_loop fuel' (x - 1) (wrap32 (f * x)) else f
  end.

Definition fact (x : Z) : Z := fact_loop (Z.to_nat x) x 1.

(** ** gray.h: gray_generator_t *)

Record gray_generator_t := mk_gray_generator {
  size_ : Z;
  pick_ : Z;
  reversed_ : bool;
  index_ : Z;
  combinations_ : Z
}.

(** Binary to Gray code: [x ^ (x >> 1)]. *)
Definition gray (x : Z) : Z := Z.lxor x (Z.shiftr x 1).

(** How one of the two [for (;;)] loops of [next] is left. *)
Inductive scan_t :=
| Accept (next_index : Z)   (* [index_ = next_index; break;] *)
| Turn                      (* [reversed_ = ...; break;] *)
| Exhausted.                (* fuel ran out; shown impossible below *)

(** The loop of the [else] branch: the cursor goes up. [limit] is
    [1 << size_] converted to [uint32_t]. *)
Fixpoint scan_up (fuel : nat) (limit pick : Z) (next_index : Z) : scan_t :=
  match fuel with
  | O => Exhausted
  | S fuel' =>
      let next_index := wrap32 (next_index + 1) in
      if next_index =? limit then Turn
      else if count_bits (gray next_index) =? pick then Accept next_index
      else scan_up fuel' limit pick next_index
  end.

(** The loop of the [if (reversed_)] branch: the cursor goes down. *)
Fixpoint scan_down (fuel : nat) (pick : Z) (next_index : Z) : scan_t :=
  match fuel with
  | O => Exhausted
  | S fuel' =>
      let next_index := wrap32 (next_index - 1) in
      if next_index =? 0 then Turn
      else if count_bits (gray next_index) =? pick then Accept next_index
      else scan_down fuel' pick next_index
  end.

(** [1 << size_] as the comparison with the [uint32_t] cursor sees it.  The
    shift is defined by C++ for [0 <= size_ < 32] only. *)
Definition limit_of (size : Z) : Z := wrap32 (Z.shiftl 1 size).

(** Fuel of the loops: the number of steps after which a cursor that
    starts at [from] and moves by one (modulo [2^32]) meets the boundary,
    [limit] on the way up and 0 on the way down. *)
Definition up_fuel (limit from : Z) : nat :=
  S (Z.to_nat (wrap32 (limit - from - 1))).

Definition down_fuel (from : Z) : nat :=
  S (Z.to_nat (wrap32 (from - 1))).

Definition set_index (g : gray_generator_t) (i : Z) : gray_generator_t :=
  mk_gray_generator (size_ g) (pick_ g) (reversed_ g) i (combinations_ g).

Definition set_reversed (g : gray_generator_t) (b : bool) : gray_generator_t :=
  mk_gray_generator (size_ g) (pick_ g) b (index_ g) (combinations_ g).

Definition scan (g : gray_generator_t) : scan_t :=
  if reversed_ g
  then scan_down (down_fuel (index_ g)) (wrap32 (pick_ g)) (index_ g)
  else scan_up (up_fuel (limit_of (size_ g)) (index_ g))
               (limit_of (size_ g)) (wrap32 (pick_ g)) (index_ g).

(** [gray_generator_t::next]. *)
Definition next (g : gray_generator_t) : gray_generator_t :=
  match scan g with
  | Accept i => set_index g i
  | Turn => set_reversed g (negb (reversed_ g))
  | Exhausted => g
  end.

(** [gray_generator_t::value]. *)
Definition value (g : gray_generator_t) : Z := gray (index_ g).

Definition size (g : gray_generator_t) : Z := size_ g.

Definition combinations (g : gray_generator_t) : Z := combinations_ g.

(** The constructor.  The member initialisers run first; the one of
    [combinations_] divides two [uint32_t], which is undefined for a zero
    divisor: the model answers [None] there.  Then the body calls [next]. *)
Definition gray_generator (size pick : Z) : option gray_generator_t :=
  let divisor := wrap32 (fact (wrap32 pick) * fact (wrap32 (size - pick))) in
  if divisor =? 0 then None
  else Some (next (mk_gray_generator size pick false 0
                     (int_of_u32 (fact (wrap32 size) / divisor)))).

(** [k] calls of [next]. *)
Fixpoint run (k : nat) (g : gray_generator_t) : gray_generator_t :=
  match k with
  | O => g
  | S k' => run k' (next g)
  end.

(** ** gray.h: gray_join_t *)

Record gray_join_t := mk_gray_join {
  small_ : gray_generator_t;
  large_ : gray_generator_t;
  count_ : Z
}.

(** The default member initialisers: [small_{4, 3}], [large_{7, 4}],
    [count_ = 0]. *)
Definition gray_join : option gray_join_t :=
  match gray_generator 4 3, gray_generator 7 4 with
  | Some s, Some l => Some (mk_gray_join s l 0)
  | _, _ => None
  end.

(** [count_++] on an [int], with the two's complement wrap-around. *)
Definition wrap_int (z : Z) : Z := int_of_u32 (wrap32 z).

(** [gray_join_t::next]: the returned mask and the joiner after the call.
    [%] is the truncating remainder of C++. *)
Definition join_next (j : gray_join_t) : Z * gray_join_t :=
  let ret :=
    Z.lor (wrap32 (Z.shiftl (value (small_ j)) (size (large_ j))))
          (value (large_ j)) in
  let count := wrap_int (count_ j + 1) in
  let small :=
    if (0 <? count) && (Z.rem count (combinations (large_ j)) =? 0)
    then next (small_ j) else small_ j in
  (ret, mk_gray_join small (next (large_ j)) count).

(** The joiner after [k] calls of [next], and what call number [k + 1]
    returns. *)
Fixpoint join_run (k : nat) (j : gray_join_t) : gray_join_t :=
  match k with
  | O => j
  | S k' => join_run k' (snd (join_next j))
  end.

Definition join_output (k : nat) (j : gray_join_t) : Z :=
  fst (join_next (join_run k j)).

(** ** invert.cpp: the index maps of eigen_sherman *)

(** [std::array<int, N>] as a list of length [N]; an access out of range
    is undefined in C++ and answers [None] here. *)
Definition in_range (a : list Z) (i : Z) : bool :=
  (0 <=? i) && (i <? Z.of_nat (length a)).

Definition load (a : list Z) (i : Z) : option Z :=
  if in_range a i then nth_error a (Z.to_nat i) else None.

Fixpoint store_nat (a : list Z) (i : nat) (v : Z) : list Z :=
  match a, i with
  | [], _ => []
  | _ :: t, O => v :: t
  | x :: t, S i' => x :: store_nat t i' v
  end.

Definition store (a : list Z) (i : Z) (v : Z) : option (list Z) :=
  if in_range a i then Some (store_nat a (Z.to_nat i) v) else None.

(** [std::bitset<11>] built from an integer keeps the low 11 bits. *)
Definition bitset11 (x : Z) : Z := x mod 2 ^ 11.

Record driver_t := mk_driver {
  gray_ : gray_join_t;
  selected : Z;
  main_to_comb : list Z;
  comb_to_main : list Z
}.

(** One iteration of the loop that fills the two arrays (lines 74-86). *)
Definition init_step (selected : Z) (st : option (Z * list Z * list Z))
    (main_index : Z) : option (Z * list Z * list Z) :=
  match st with
  | None => None
  | Some (comb_index, m2c, c2m) =>
      if Z.testbit selected main_index then
        match store m2c main_index comb_index with
        | None => None
        | Some m2c' =>
            match store c2m comb_index main_index with
            | None => None
            | Some c2m' => Some (comb_index + 1, m2c', c2m')
            end
        end
      else
        match store m2c main_index (-1) with
        | None => None
        | Some m2c' => Some (comb_index, m2c', c2m)
        end
  end.

(** [eigen_sherman] up to the step loop, as far as the index maps go.  The
    two arrays are declared without initialiser: their first contents
    [m2c0] (11 entries) and [c2m0] (7 entries) are arbitrary. *)
Definition sherman_init (m2c0 c2m0 : list Z) : option driver_t :=
  match gray_join with
  | None => None
  | Some g =>
      let '(first, g') := join_next g in
      let selected := bitset11 first in
      match fold_left (init_step selected)
                      (map Z.of_nat (seq 0 11)) (Some (0, m2c0, c2m0)) with
      | None => None
      | Some (_, m2c, c2m) => Some (mk_driver g' selected m2c c2m)
      end
  end.

(** The index part of one iteration of the step loop (lines 113-127, 151).
    [a & ~b] is taken on 32 bits: the operand that comes from [to_ulong] has
    no bit above the eleventh. *)
Definition sherman_step (d : driver_t) : option driver_t :=
  let '(selected_next, g') := join_next (gray_ d) in
  let removed := wrap32 (set_bit (Z.land (selected d) (not32 selected_next))) in
  let added := wrap32 (set_bit (Z.land selected_next (not32 (selected d)))) in
  match load (main_to_comb d) removed with
  | None => None
  | Some comb_swap_index =>
      match store (main_to_comb d) removed (-1) with
      | None => None
      | Some m2c1 =>
          match store m2c1 added comb_swap_index with
          | None => None
          | Some m2c2 =>
              match store (comb_to_main d) comb_swap_index added with
              | None => None
              | Some c2m1 =>
                  Some (mk_driver g' (bitset11 selected_next) m2c2 c2m1)
              end
          end
      end
  end.

(** The driver after [n] iterations of [for (int n = 1; n < 35*4; ++n)]. *)
Fixpoint sherman_run (n : nat) (d : driver_t) : option driver_t :=
  match n with
  | O => Some d
  | S n' =>
      match sherman_step d with
      | None => None
      | Some d' => sherman_run n' d'
      end
  end.

Definition sherman_after (n : nat) (m2c0 c2m0 : list Z) : option driver_t :=
  match sherman_init m2c0 c2m0 with
  | None => None
  | Some d => sherman_run n d
  end.

(** ** matrix.h and the matrix part of the step loop

    The specification states the inverse update over exact arithmetic: the
    entries are taken in an arbitrary field [F] in place of [double]. *)

Module Matrix.
#[local] Set Warnings "-notation-overridden,-ambiguous-paths".
Import mathcomp.boot.boot mathcomp.algebra.algebra.
Import GRing.Theory.
#[local] Set Warnings "notation-overridden,ambiguous-paths".
Local Open Scope ring_scope.

Section Updates.
Variable F : fieldType.
Variables N n : nat.

(** [row_map]: [row[c] = m(r, column_map[c])]. *)
Definition row_map (m : 'M[F]_N) (r : 'I_N) (column_map : 'I_n -> 'I_N)
  : 'rV[F]_n := \row_c m r (column_map c).

(** [col_map]: [col[r] = m(row_map[r], c)]. *)
Definition col_map (m : 'M[F]_N) (c : 'I_N) (row_map : 'I_n -> 'I_N)
  : 'cV[F]_n := \col_r m (row_map r) c.

(** The scalar [1 + v * inv * u]. *)
Definition denominator (inv : 'M[F]_n) (u : 'cV[F]_n) (v : 'rV[F]_n) : F :=
  1 + (v *m inv *m u) ord0 ord0.

(** [inv - (inv * u) * (v * inv) / (1 + v * inv * u)]; the quotient of a
    matrix by a scalar divides every entry. *)
Definition sherman_morrison_update_inverse
    (inv : 'M[F]_n) (u : 'cV[F]_n) (v : 'rV[F]_n) : 'M[F]_n :=
  inv - map_mx (fun x => x / denominator inv u v) ((inv *m u) *m (v *m inv)).

(** [combination.row(k) = new_row] and [combination.col(k) = new_col]. *)
Definition set_row (c : 'M[F]_n) (k : 'I_n) (new_row : 'rV[F]_n) : 'M[F]_n :=
  \matrix_(i, j) (if i == k then new_row ord0 j else c i j).

Definition set_col (c : 'M[F]_n) (k : 'I_n) (new_col : 'cV[F]_n) : 'M[F]_n :=
  \matrix_(i, j) (if j == k then new_col i ord0 else c i j).

(** The vectors of lines 134-135 and 142-143. *)
Definition u_row (k : 'I_n) : 'cV[F]_n := delta_mx k ord0.

Definition v_row (c : 'M[F]_n) (k : 'I_n) (new_row : 'rV[F]_n) : 'rV[F]_n :=
  new_row - row k c.

Definition u_col (c : 'M[F]_n) (k : 'I_n) (new_col : 'cV[F]_n) : 'cV[F]_n :=
  new_col - col k c.

Definition v_col (k : 'I_n) : 'rV[F]_n := delta_mx ord0 k.

(** Lines 130-147 of the step loop: [combination] and [inverse] after the
    row replacement and the column replacement at slot [k], for the item
    [added] and the already updated map [comb_to_main]. *)
Definition update_step (main : 'M[F]_N) (added : 'I_N)
    (comb_to_main : 'I_n -> 'I_N) (k : 'I_n)
    (combination inverse : 'M[F]_n) : 'M[F]_n * 'M[F]_n :=
  let new_row := row_map main added comb_to_main in
  let new_col := col_map main added comb_to_main in
  let vr := v_row combination k new_row in
  let combination1 := set_row combination k new_row in
  let inverse1 := sherman_morrison_update_inverse inverse (u_row k) vr in
  let uc := u_col combination1 k new_col in
  let combination2 := set_col combination1 k new_col in
  let inverse2 := sherman_morrison_update_inverse inverse1 uc (v_col k) in
  (combination2, inverse2).

(** The two denominators met on the way. *)
Definition row_denominator (main : 'M[F]_N) (added : 'I_N)
    (comb_to_main : 'I_n -> 'I_N) (k : 'I_n)
    (combination inverse : 'M[F]_n) : F :=
  denominator inverse (u_row k)
    (v_row combination k (row_map main added comb_to_main)).

Definition col_denominator (main : 'M[F]_N) (added : 'I_N)
    (comb_to_main : 'I_n -> 'I_N) (k : 'I_n)
    (combination inverse : 'M[F]_n) : F :=
  let new_row := row_map main added comb_to_main in
  let combination1 := set_row combination k new_row in
  denominator
    (sherman_morrison_update_inverse inverse (u_row k)
       (v_row combination k new_row))
    (u_col combination1 k (col_map main added comb_to_main)) (v_col k).

(** The combination matrix that the index map [comb_to_main] selects. *)
Definition extract (main : 'M[F]_N) (comb_to_main : 'I_n -> 'I_N) : 'M[F]_n :=
  \matrix_(i, j) main (comb_to_main i) (comb_to_main j).

End Updates.

Arguments row_map {F N n}.
Arguments col_map {F N n}.
Arguments denominator {F n}.
Arguments sherman_morrison_update_inverse {F n}.
Arguments set_row {F n}.
Arguments set_col {F n}.
Arguments u_row {F n}.
Arguments v_row {F n}.
Arguments u_col {F n}.
Arguments v_col {F n}.
Arguments update_step {F N n}.
Arguments row_denominator {F N n}.
Arguments col_denominator {F N n}.
Arguments extract {F N n}.

End Matrix.

(** ** Notions of the specification *)

(** Number of bits set in a non-negative integer. *)
Fixpoint popcount_pos (p : positive) : Z :=
  match p with
  | xH => 1
  | xO q => popcount_pos q
  | xI q => 1 + popcount_pos q
  end.

Definition popcount (x : Z) : Z :=
  match x with
  | Zpos p => popcount_pos p
  | _ => 0
  end.

(** Hamming distance: popcount of the symmetric difference. *)
Definition hamming (x y : Z) : Z := popcount (Z.lxor x y).

(** [n!], exact. *)
Fixpoint factorial (n : nat) : Z :=
  match n with
  | O => 1
  | S n' => Z.of_nat n * factorial n'
  end.

(** Binomial coefficients by Pascal's rule. *)
Fixpoint binomial (n k : nat) : nat :=
  match n, k with
  | _, O => 1%nat
  | O, S _ => 0%nat
  | S n', S k' => (binomial n' k + binomial n' k')%nat
  end.

(** The words of weight [k] met by the reflected Gray code on [n] bits, in
    the order it meets them: those of the first half, then those of the
    second half, which is the first one reversed with bit [n - 1] set. *)
Fixpoint weight_walk (n k : nat) : list Z :=
  match n with
  | O => match k with O => [0] | S _ => [] end
  | S n' =>
      weight_walk n' k ++
      match k with
      | O => []
      | S k' => map (Z.add (2 ^ Z.of_nat n')) (rev (weight_walk n' k'))
      end
  end.

(** The values [value()] takes after 0, 1, ..., [len - 1] calls of [next]
    counted from call number [from]. *)
Definition observed (g : gray_generator_t) (from len : nat) : list Z :=
  map (fun k => value (run k g)) (seq from len).

(** The Gray code on [n] bits, as the list of the codes of 0, 1, ...,
    [2^n - 1]. *)
Definition gray_codes (n : nat) : list Z :=
  map (fun i => gray (Z.of_nat i)) (seq 0 (2 ^ n)).

(** [chain R l]: every two neighbours of [l] are related by [R]. *)
Fixpoint chain (R : Z -> Z -> Prop) (l : list Z) : Prop :=
  match l with
  | [] => True
  | x :: t =>
      match t with
      | [] => True
      | y :: _ => R x y
      end /\ chain R t
  end.

(** One item swapped for another: two bits differ. *)
Definition swap1 (x y : Z) : Prop := hamming x y = 2.

(** The last word of [weight_walk n k], in closed form. *)
Definition last_word (n k : nat) : Z :=
  match k with
  | O => 0
  | S k' => 2 ^ Z.of_nat (n - 1) + (2 ^ Z.of_nat k' - 1)
  end.

Definition has_weight (k : nat) (x : Z) : bool := popcount x =? Z.of_nat k.

(** The test of the two loops of [next] on a cursor. *)
Definition accepts (pick : Z) (i : Z) : bool := count_bits (gray i) =? pick.

(** The cursors [next] accepts for [size = n] and [pick = k], ascending. *)
Definition accepted (n k : nat) : list Z :=
  filter (accepts (Z.of_nat k)) (map Z.of_nat (seq 1 (2 ^ n - 1))).

(** The generator standing on the [p]-th accepted cursor. *)
Definition standing (n k : nat) (c : Z) (p : nat) (reversed : bool)
  : gray_generator_t :=
  mk_gray_generator (Z.of_nat n) (Z.of_nat k) reversed
    (nth p (accepted n k) 0) c.

(** How a loop of [next] is left, given the accepted cursors ahead of it. *)
Definition first_or_turn (l : list Z) : scan_t :=
  match l with
  | [] => Turn
  | j :: _ => Accept j
  end.

(** What the constructor stores in [combinations_]. *)
Definition combinations_init (size pick : Z) : Z :=
  int_of_u32
    (fact (wrap32 size) /
     wrap32 (fact (wrap32 pick) * fact (wrap32 (size - pick)))).

(** One bit of [x] is cleared and one bit is set on the way to [y]. *)
Definition one_cleared_one_set (x y : Z) : Prop :=
  popcount (Z.ldiff x y) = 1 /\ popcount (Z.ldiff y x) = 1.

(** The two generators a [gray_join_t] starts from, as the constructor
    leaves them. *)
Definition small0 : gray_generator_t := mk_gray_generator 4 3 false 5 4.
Definition large0 : gray_generator_t := mk_gray_generator 7 4 false 10 35.

(** The mask returned by call number [n + 1] of [gray_join_t::next], in
    terms of the two generators alone. *)
Definition joined (n : nat) : Z :=
  Z.lor (wrap32 (Z.shiftl (value (run (n / 35) small0)) 7))
        (value (run n large0)).

(** The index maps agree with the selection: a selected item [g] has a
    slot [k] in [0, 6] and [comb_to_main[k]] is [g]; an item that is not
    selected has [-1]; every slot holds a selected item whose slot it is;
    seven items are selected. *)
Definition maps_consistent (d : driver_t) : Prop :=
  length (main_to_comb d) = 11%nat /\
  length (comb_to_main d) = 7%nat /\
  popcount (selected d) = 7 /\
  selected d < 2 ^ 11 /\
  (forall g, 0 <= g < 11 ->
     if Z.testbit (selected d) g
     then exists k, load (main_to_comb d) g = Some k /\ 0 <= k <= 6 /\
                    load (comb_to_main d) k = Some g
     else load (main_to_comb d) g = Some (-1)) /\
  (forall k, 0 <= k <= 6 ->
     exists g, load (comb_to_main d) k = Some g /\ 0 <= g < 11 /\
               Z.testbit (selected d) g = true /\
               load (main_to_comb d) g = Some k) /\
  NoDup (comb_to_main d).

(** The same, as a test. *)
Definition item_ok (d : driver_t) (g : Z) : bool :=
  match load (main_to_comb d) g with
  | None => false
  | Some k =>
      if Z.testbit (selected d) g
      then (0 <=? k) && (k <=? 6) &&
           match load (comb_to_main d) k with
           | Some g' => g' =? g
           | None => false
           end
      else k =? -1
  end.

Definition slot_ok (d : driver_t) (k : Z) : bool :=
  match load (comb_to_main d) k with
  | None => false
  | Some g =>
      (0 <=? g) && (g <? 11) && Z.testbit (selected d) g &&
      match load (main_to_comb d) g with
      | Some k' => k' =? k
      | None => false
      end
  end.

Fixpoint distinct (l : list Z) : bool :=
  match l with
  | [] => true
  | x :: t => negb (existsb (Z.eqb x) t) && distinct t
  end.

Definition maps_ok (d : driver_t) : bool :=
  (length (main_to_comb d) =? 11)%nat && (length (comb_to_main d) =? 7)%nat &&
  (popcount (selected d) =? 7) && (selected d <? 2 ^ 11) &&
  forallb (item_ok d) (map Z.of_nat (seq 0 11)) &&
  forallb (slot_ok d) (map Z.of_nat (seq 0 7)) &&
  distinct (comb_to_main d).

Definition maps_ok_after (m2c0 c2m0 : list Z) (n : nat) : bool :=
  match sherman_after n m2c0 c2m0 with
  | Some d => maps_ok d
  | None => false
  end.

(** One row of the table that checks the joined masks over a period. *)
Definition joined_row (r : nat) : bool :=
  (popcount (joined r) =? 7) &&
  (hamming (joined r) (joined (S r)) =? if (S r mod 140 =? 0)%nat then 0 else 2).

(** ** Further notions *)

(** The bits of a [uint32_t] that are set, counted one by one. *)
Definition bits_set (x : Z) : Z :=
  Z.of_nat (length (filter (Z.testbit x) (map Z.of_nat (seq 0 32)))).

(** Two words that differ in one bit. *)
Definition flip1 (x y : Z) : Prop := hamming x y = 1.

(** Rows of the tables that check the joined masks over a period. *)
Definition parts_row (r : nat) : bool :=
  let vs := value (run (r / 35) small0) in
  let vl := value (run r large0) in
  (joined r =? 2 ^ 7 * vs + vl) &&
  (0 <=? vl) && (vl <? 2 ^ 7) && (0 <=? vs) && (vs <? 2 ^ 4) &&
  (popcount vs =? 3) && (popcount vl =? 4).

Definition covers (outputs : list Z) : bool :=
  forallb (fun a => forallb (fun b => existsb (Z.eqb (2 ^ 7 * a + b)) outputs)
                      (weight_walk 7 4)) (weight_walk 4 3).

Definition mirror_row (r : nat) : bool := joined (279 - r) =? joined r.

(** ** The index loops of eigen_sherman, for any selection *)

(** Lines 73-86: the loop that fills the two arrays, for a selection
    [selected] and arrays that hold [m2c0] and [c2m0] before. *)
Definition init_maps (selected : Z) (m2c0 c2m0 : list Z)
  : option (Z * list Z * list Z) :=
  fold_left (init_step selected) (map Z.of_nat (seq 0 11))
            (Some (0, m2c0, c2m0)).

(** The selected items, ascending, and the number of selected items below
    an item. *)
Definition selected_items (selected : Z) : list Z :=
  filter (Z.testbit selected) (map Z.of_nat (seq 0 11)).

Definition rank (selected g : Z) : Z :=
  Z.of_nat (length (filter (Z.testbit selected)
                      (map Z.of_nat (seq 0 (Z.to_nat g))))).

Definition slot_or_none (selected g : Z) : Z :=
  if Z.testbit selected g then rank selected g else -1.

Fixpoint zlist_eqb (a b : list Z) : bool :=
  match a, b with
  | [], [] => true
  | x :: a', y :: b' => (x =? y) && zlist_eqb a' b'
  | _, _ => false
  end.

Definition init_row (m2c0 c2m0 : list Z) (s : nat) : bool :=
  let selected := Z.of_nat s in
  let items := selected_items selected in
  match init_maps selected m2c0 c2m0 with
  | None => (7 <? length items)%nat
  | Some (c, m2c, c2m) =>
      (length items <=? 7)%nat && (c =? Z.of_nat (length items)) &&
      zlist_eqb (firstn (length items) c2m) items &&
      (length c2m =? 7)%nat &&
      zlist_eqb m2c (map (slot_or_none selected) (map Z.of_nat (seq 0 11)))
  end.

(** The items of lines 116 and 119. *)
Definition removed_of (selected selected_next : Z) : Z :=
  wrap32 (set_bit (Z.land selected (not32 selected_next))).

Definition added_of (selected selected_next : Z) : Z :=
  wrap32 (set_bit (Z.land selected_next (not32 selected))).

Definition step_row (m2c0 c2m0 : list Z) (n : nat) : bool :=
  match sherman_after n m2c0 c2m0 with
  | None => false
  | Some d =>
      match sherman_step d with
      | None => false
      | Some d' =>
          let next := fst (join_next (gray_ d)) in
          let r := removed_of (selected d) next in
          let a := added_of (selected d) next in
          match load (main_to_comb d) r with
          | None => false
          | Some k =>
              (0 <=? k) && (k <=? 6) && (0 <=? r) && (r <? 11) &&
              (0 <=? a) && (a <? 11) && negb (r =? a) &&
              Z.testbit (selected d) r && negb (Z.testbit (selected d) a) &&
              (selected d' =? next) &&
              (selected d' =? selected d - 2 ^ r + 2 ^ a) &&
              zlist_eqb (comb_to_main d')
                        (store_nat (comb_to_main d) (Z.to_nat k) a) &&
              zlist_eqb (main_to_comb d')
                        (store_nat (store_nat (main_to_comb d) (Z.to_nat r) (-1))
                                   (Z.to_nat a) k)
          end
      end
  end.

(** ** The initial combination matrix (lines 88-104 of invert.cpp)

    A matrix is a list of rows; its entries are of any type.  An access out
    of range answers [None]. *)

Fixpoint set_at {X : Type} (l : list X) (i : nat) (v : X) : list X :=
  match l, i with
  | [], _ => []
  | _ :: t, O => v :: t
  | x :: t, S i' => x :: set_at t i' v
  end.

Definition store2 {A : Type} (comb : list (list A)) (ci cj : Z) (v : A)
  : option (list (list A)) :=
  if (0 <=? ci) && (ci <? Z.of_nat (length comb)) then
    match nth_error comb (Z.to_nat ci) with
    | None => None
    | Some row =>
        if (0 <=? cj) && (cj <? Z.of_nat (length row))
        then Some (set_at comb (Z.to_nat ci) (set_at row (Z.to_nat cj) v))
        else None
    end
  else None.

(** The body of the loop on [j]. *)
Definition inner_step {A : Type} (main : Z -> Z -> A) (selected i ci : Z)
    (st : option (Z * list (list A))) (j : Z) : option (Z * list (list A)) :=
  match st with
  | None => None
  | Some (cj, comb) =>
      if Z.testbit selected i && Z.testbit selected j then
        match store2 comb ci cj (main i j) with
        | None => None
        | Some comb' => Some (cj + 1, comb')
        end
      else Some (cj, comb)
  end.

(** The body of the loop on [i]. *)
Definition outer_step {A : Type} (main : Z -> Z -> A) (selected : Z)
    (st : option (Z * list (list A))) (i : Z) : option (Z * list (list A)) :=
  match st with
  | None => None
  | Some (ci, comb) =>
      match fold_left (inner_step main selected i ci)
                      (map Z.of_nat (seq 0 11)) (Some (0, comb)) with
      | None => None
      | Some (_, comb') =>
          Some (if Z.testbit selected i then ci + 1 else ci, comb')
      end
  end.

(** The two loops: the final [ci] and the matrix, from the matrix [comb0]
    as it is declared. *)
Definition initial_combination {A : Type} (main : Z -> Z -> A)
    (selected : Z) (comb0 : list (list A)) : option (Z * list (list A)) :=
  fold_left (outer_step main selected) (map Z.of_nat (seq 0 11))
            (Some (0, comb0)).

(** ** benchmark.h: time_func

    [f] is a closure: a call answers a flag and leaves the closure in a new
    state.  The elapsed time that [time_func] returns is not modelled; what
    is modelled is the number of calls of [f] it makes and the state it
    leaves [f] in. *)

(** [for (int i = 0; i < iterations; ++i) { if (!f()) break; }] *)
Fixpoint time_func_loop {S : Type} (f : S -> bool * S) (fuel : nat)
    (i iterations : Z) (s : S) (calls : nat) : nat * S :=
  match fuel with
  | O => (calls, s)
  | Datatypes.S fuel' =>
      if i <? iterations then
        let (ok, s') := f s in
        if ok then time_func_loop f fuel' (i + 1) iterations s' (Datatypes.S calls)
        else (Datatypes.S calls, s')
      else (calls, s)
  end.

Definition time_func {S : Type} (f : S -> bool * S) (iterations : Z) (s : S)
  : nat * S :=
  time_func_loop f (Z.to_nat iterations) 0 iterations s 0.

(** The state of the closure after [k] calls, and the answer of call
    number [k + 1]. *)
Fixpoint state_after {S : Type} (f : S -> bool * S) (k : nat) (s : S) : S :=
  match k with
  | O => s
  | Datatypes.S k' => state_after f k' (snd (f s))
  end.

Definition answer {S : Type} (f : S -> bool * S) (k : nat) (s : S) : bool :=
  fst (f (state_after f k s)).

(** * Properties *)

(** ** Machine integers *)

Lemma wrap32_small z : 0 <= z < 2 ^ 32 -> wrap32 z = z.
Proof. intros H. unfold wrap32. now apply Z.mod_small. Qed.

Lemma wrap32_range z : 0 <= wrap32 z < 2 ^ 32.
Proof. unfold wrap32. apply Z.mod_pos_bound. lia. Qed.

Lemma pow2_nat_le (a b : nat) : (a <= b)%nat -> 2 ^ Z.of_nat a <= 2 ^ Z.of_nat b.
Proof. intros H. apply Z.pow_le_mono_r; lia. Qed.

Lemma pow2_nat_pos (a : nat) : 0 < 2 ^ Z.of_nat a.
Proof. apply Z.pow_pos_nonneg; lia. Qed.

Lemma pow2_nat_succ (a : nat) : 2 ^ Z.of_nat (S a) = 2 * 2 ^ Z.of_nat a.
Proof. rewrite Nat2Z.inj_succ, Z.pow_succ_r; lia. Qed.

(** ** popcount *)

Lemma popcount_pos_pos p : 0 < popcount_pos p.
Proof. induction p; cbn [popcount_pos]; lia. Qed.

Lemma popcount_nonneg x : 0 <= popcount x.
Proof.
  destruct x as [|p|p]; cbn [popcount]; try lia.
  pose proof (popcount_pos_pos p); lia.
Qed.

Lemma popcount_double x : 0 <= x -> popcount (2 * x) = popcount x.
Proof. destruct x; simpl; intros; try reflexivity; lia. Qed.

Lemma popcount_double1 x : 0 <= x -> popcount (2 * x + 1) = popcount x + 1.
Proof.
  destruct x as [|p|p]; intros H; [reflexivity| |lia].
  change (2 * Z.pos p + 1) with (Z.pos p~1). cbn [popcount popcount_pos]. lia.
Qed.

Lemma popcount_zero_iff x : 0 <= x -> (popcount x = 0 <-> x = 0).
Proof.
  destruct x as [|p|p]; cbn [popcount]; intros H; split; intros E;
    try lia; try reflexivity.
  pose proof (popcount_pos_pos p); lia.
Qed.

Lemma half_range (n : nat) x :
  0 <= x < 2 ^ Z.of_nat (S n) -> 0 <= x / 2 < 2 ^ Z.of_nat n.
Proof.
  rewrite pow2_nat_succ. intros H.
  split; [apply Z.div_pos; lia | apply Z.div_lt_upper_bound; lia].
Qed.

Lemma popcount_step x : 0 <= x -> popcount x = popcount (x / 2) + x mod 2.
Proof.
  intros Hx. pose proof (Z.mod_pos_bound x 2 ltac:(lia)) as Hm.
  assert (0 <= x / 2) by (apply Z.div_pos; lia).
  rewrite (Z.div_mod x 2) at 1 by lia.
  assert (x mod 2 = 0 \/ x mod 2 = 1) as [E|E] by lia; rewrite E.
  - rewrite Z.add_0_r, popcount_double by assumption. lia.
  - rewrite popcount_double1 by assumption. lia.
Qed.

Lemma popcount_add_pow2 (n : nat) : forall x,
  0 <= x < 2 ^ Z.of_nat n -> popcount (x + 2 ^ Z.of_nat n) = popcount x + 1.
Proof.
  induction n as [|n IH]; intros x Hx.
  - simpl in Hx. assert (x = 0) by lia. subst. reflexivity.
  - pose proof (half_range n x Hx) as Hh.
    rewrite pow2_nat_succ in *.
    rewrite (popcount_step (x + _)) by lia.
    rewrite (popcount_step x) by lia.
    replace ((x + 2 * 2 ^ Z.of_nat n) / 2) with (x / 2 + 2 ^ Z.of_nat n).
    2:{ rewrite Z.mul_comm, Z.div_add; lia. }
    replace ((x + 2 * 2 ^ Z.of_nat n) mod 2) with (x mod 2).
    2:{ rewrite Z.mul_comm, Z.mod_add; lia. }
    rewrite IH; [lia | exact Hh].
Qed.

Lemma popcount_bound (n : nat) : forall x,
  0 <= x < 2 ^ Z.of_nat n -> popcount x <= Z.of_nat n.
Proof.
  induction n as [|n IH]; intros x Hx.
  - simpl in Hx. assert (x = 0) by lia. subst. simpl. lia.
  - pose proof (half_range n x Hx) as Hh.
    rewrite popcount_step by lia.
    pose proof (Z.mod_pos_bound x 2 ltac:(lia)).
    specialize (IH _ Hh). lia.
Qed.

(** The loop of [count_bits] computes [popcount]; 32 rounds are enough for
    a [uint32_t], and more rounds change nothing. *)
Lemma count_bits_loop_zero fuel c : count_bits_loop fuel 0 c = c.
Proof. destruct fuel; reflexivity. Qed.

Lemma count_bits_loop_spec (fuel : nat) : forall x c,
  0 <= x < 2 ^ Z.of_nat fuel -> 0 <= c -> c + popcount x < 2 ^ 32 ->
  count_bits_loop fuel x c = c + popcount x.
Proof.
  induction fuel as [|fuel IH]; intros x c Hx Hc Hb.
  - simpl in Hx. assert (x = 0) by lia. subst. simpl. lia.
  - cbn [count_bits_loop]. destruct (Z.eqb_spec x 0) as [->|Hne].
    + simpl. lia.
    + pose proof (half_range fuel x Hx) as Hh.
      pose proof (Z.mod_pos_bound x 2 ltac:(lia)) as Hm.
      pose proof (popcount_nonneg (x / 2)) as Hp.
      rewrite (popcount_step x) in * by lia.
      rewrite Z.shiftr_div_pow2, Z.pow_1_r by lia.
      change 1 with (Z.ones 1) at 1. rewrite Z.land_ones, Z.pow_1_r by lia.
      rewrite wrap32_small by lia.
      rewrite IH; lia.
Qed.

Lemma count_bits_loop_more (fuel extra : nat) x c :
  0 <= x < 2 ^ Z.of_nat fuel -> 0 <= c -> c + popcount x < 2 ^ 32 ->
  count_bits_loop (fuel + extra) x c = count_bits_loop fuel x c.
Proof.
  intros Hx Hc Hb. rewrite !count_bits_loop_spec; try lia.
  split; [lia|]. eapply Z.lt_le_trans; [apply Hx|]. apply pow2_nat_le. lia.
Qed.

Lemma count_bits_popcount x : 0 <= x < 2 ^ 32 -> count_bits x = popcount x.
Proof.
  intros Hx. unfold count_bits.
  pose proof (popcount_bound 32 x Hx). pose proof (popcount_nonneg x).
  rewrite count_bits_loop_spec; simpl; lia.
Qed.

(** ** Bits of the Gray code *)

Lemma testbit_small (n : nat) x j :
  0 <= x < 2 ^ Z.of_nat n -> Z.of_nat n <= j -> Z.testbit x j = false.
Proof.
  intros Hx Hj. rewrite <- (Z.mod_small x (2 ^ Z.of_nat n)) by assumption.
  apply Z.mod_pow2_bits_high. lia.
Qed.

Lemma lt_pow2_of_bits (n : nat) x :
  0 <= x -> (forall j, Z.of_nat n <= j -> Z.testbit x j = false) ->
  x < 2 ^ Z.of_nat n.
Proof.
  intros Hx Hbits.
  assert (x mod 2 ^ Z.of_nat n = x) as <-.
  { apply Z.bits_inj'. intros j Hj. rewrite Z.testbit_mod_pow2 by lia.
    destruct (Z.ltb_spec j (Z.of_nat n)); [reflexivity|].
    simpl. symmetry. now apply Hbits. }
  apply Z.mod_pos_bound, pow2_nat_pos.
Qed.

Lemma testbit_gray x j :
  0 <= j -> Z.testbit (gray x) j = xorb (Z.testbit x j) (Z.testbit x (j + 1)).
Proof.
  intros Hj. unfold gray. now rewrite Z.lxor_spec, Z.shiftr_spec.
Qed.

Lemma gray_nonneg x : 0 <= x -> 0 <= gray x.
Proof.
  intros Hx. unfold gray. apply Z.lxor_nonneg.
  split; intros _; [now apply Z.shiftr_nonneg | assumption].
Qed.

Lemma gray_range (n : nat) x :
  0 <= x < 2 ^ Z.of_nat n -> 0 <= gray x < 2 ^ Z.of_nat n.
Proof.
  intros Hx. split; [apply gray_nonneg; lia|].
  apply lt_pow2_of_bits; [apply gray_nonneg; lia|].
  intros j Hj. rewrite testbit_gray by lia.
  rewrite !(testbit_small n x) by lia. reflexivity.
Qed.

Lemma gray_zero_iff x : 0 <= x -> (gray x = 0 <-> x = 0).
Proof.
  intros Hx. split; [|intros ->; reflexivity].
  unfold gray. intros H. apply Z.lxor_eq in H.
  destruct (Z.eq_dec x 0) as [|Hne]; [assumption|exfalso].
  assert (0 < x) as Hpos by lia.
  rewrite Z.shiftr_div_pow2, Z.pow_1_r in H by lia.
  assert (x / 2 < x) by (apply Z.div_lt; lia). lia.
Qed.

Lemma lxor_range (n : nat) x y :
  0 <= x < 2 ^ Z.of_nat n -> 0 <= y < 2 ^ Z.of_nat n ->
  0 <= Z.lxor x y < 2 ^ Z.of_nat n.
Proof.
  intros Hx Hy.
  assert (0 <= Z.lxor x y) as H0 by (apply Z.lxor_nonneg; lia).
  split; [assumption|]. apply lt_pow2_of_bits; [assumption|].
  intros j Hj. rewrite Z.lxor_spec.
  now rewrite (testbit_small n x), (testbit_small n y).
Qed.

Lemma add_pow2_lxor (n : nat) x :
  0 <= x < 2 ^ Z.of_nat n -> x + 2 ^ Z.of_nat n = Z.lxor x (2 ^ Z.of_nat n).
Proof.
  intros Hx. apply Z.add_nocarry_lxor. apply Z.bits_inj'. intros j Hj.
  rewrite Z.land_spec, Z.bits_0, Z.pow2_bits_eqb by lia.
  destruct (Z.eqb_spec (Z.of_nat n) j) as [<-|Hne].
  - rewrite (testbit_small n x) by lia. reflexivity.
  - apply andb_false_r.
Qed.

(** The second half of the code on [n + 1] bits is the first half read
    backwards, with bit [n] set. *)
Lemma gray_reflect (n : nat) i :
  0 <= i < 2 ^ Z.of_nat n ->
  gray (2 ^ Z.of_nat (S n) - 1 - i) = gray i + 2 ^ Z.of_nat n.
Proof.
  intros Hi. pose proof (gray_range n i Hi) as Hg.
  rewrite add_pow2_lxor by assumption.
  assert (2 ^ Z.of_nat (S n) - 1 - i = Z.lnot i mod 2 ^ Z.of_nat (S n)) as ->.
  { apply Z.mod_unique with (q := -1).
    - left. rewrite pow2_nat_succ. lia.
    - unfold Z.lnot. lia. }
  apply Z.bits_inj'. intros j Hj.
  rewrite testbit_gray, Z.lxor_spec, testbit_gray by lia.
  rewrite !Z.testbit_mod_pow2, !Z.lnot_spec, Z.pow2_bits_eqb by lia.
  destruct (Z.ltb_spec j (Z.of_nat (S n))) as [Hlt|Hge];
    destruct (Z.ltb_spec (j + 1) (Z.of_nat (S n))) as [Hlt'|Hge'];
    destruct (Z.eqb_spec (Z.of_nat n) j) as [He|Hne]; try lia; cbn [andb].
  - destruct (Z.testbit i j), (Z.testbit i (j + 1)); reflexivity.
  - subst j. rewrite !(testbit_small n i) by lia. reflexivity.
  - rewrite !(testbit_small n i) by lia. reflexivity.
Qed.

(** ** Hamming distance *)

Lemma hamming_sym x y : hamming x y = hamming y x.
Proof. unfold hamming. now rewrite Z.lxor_comm. Qed.

Lemma hamming_zero_r x : hamming x 0 = popcount x.
Proof. unfold hamming. now rewrite Z.lxor_0_r. Qed.

Lemma hamming_same x : hamming x x = 0.
Proof. unfold hamming. now rewrite Z.lxor_nilpotent. Qed.

Lemma hamming_add_pow2 (n : nat) x y :
  0 <= x < 2 ^ Z.of_nat n -> 0 <= y < 2 ^ Z.of_nat n ->
  hamming (x + 2 ^ Z.of_nat n) (y + 2 ^ Z.of_nat n) = hamming x y.
Proof.
  intros Hx Hy. unfold hamming. rewrite !add_pow2_lxor by assumption.
  f_equal.
  rewrite Z.lxor_assoc, (Z.lxor_comm y), <- (Z.lxor_assoc (2 ^ _)).
  now rewrite Z.lxor_nilpotent, Z.lxor_0_l.
Qed.

Lemma hamming_add_pow2_r (n : nat) x y :
  0 <= x < 2 ^ Z.of_nat n -> 0 <= y < 2 ^ Z.of_nat n ->
  hamming x (y + 2 ^ Z.of_nat n) = hamming x y + 1.
Proof.
  intros Hx Hy. unfold hamming. rewrite add_pow2_lxor by assumption.
  rewrite <- Z.lxor_assoc.
  rewrite <- add_pow2_lxor by now apply lxor_range.
  apply popcount_add_pow2. now apply lxor_range.
Qed.

Lemma pow2_minus1_range (k n : nat) :
  (k <= n)%nat -> 0 <= 2 ^ Z.of_nat k - 1 < 2 ^ Z.of_nat n.
Proof.
  intros H. pose proof (pow2_nat_le k n H). pose proof (pow2_nat_pos k). lia.
Qed.

Lemma popcount_ones (k : nat) : popcount (2 ^ Z.of_nat k - 1) = Z.of_nat k.
Proof.
  induction k as [|k IH]; [reflexivity|].
  replace (2 ^ Z.of_nat (S k) - 1)
    with ((2 ^ Z.of_nat k - 1) + 2 ^ Z.of_nat k) by (rewrite pow2_nat_succ; lia).
  rewrite popcount_add_pow2 by (apply pow2_minus1_range; lia). lia.
Qed.

Lemma hamming_ones (k : nat) :
  hamming (2 ^ Z.of_nat (S k) - 1) (2 ^ Z.of_nat k - 1) = 1.
Proof.
  replace (2 ^ Z.of_nat (S k) - 1)
    with ((2 ^ Z.of_nat k - 1) + 2 ^ Z.of_nat k) by (rewrite pow2_nat_succ; lia).
  rewrite hamming_sym, hamming_add_pow2_r by (apply pow2_minus1_range; lia).
  now rewrite hamming_same.
Qed.

(** ** Lists: neighbours, ends, reflection *)

Section Chains.
Variable R : Z -> Z -> Prop.

Lemma chain_app l1 l2 :
  chain R l1 -> chain R l2 ->
  (l1 <> [] -> l2 <> [] -> R (last l1 0) (hd 0 l2)) ->
  chain R (l1 ++ l2).
Proof.
  induction l1 as [|x t IH]; intros H1 H2 HJ; [exact H2|].
  destruct H1 as [Hx Ht]. cbn [app chain]. split.
  - destruct t as [|y t']; [|exact Hx].
    destruct l2 as [|z l2']; [exact I|].
    apply HJ; discriminate.
  - apply IH; [exact Ht|exact H2|].
    intros Hne Hne2. destruct t as [|y t']; [congruence|].
    apply HJ; [discriminate|exact Hne2].
Qed.

Lemma chain_snoc l x :
  chain R l -> (l <> [] -> R (last l 0) x) -> chain R (l ++ [x]).
Proof.
  intros Hl Hx. apply chain_app; [exact Hl|simpl; auto|].
  intros Hne _. now apply Hx.
Qed.

Lemma chain_rev l :
  (forall x y, R x y -> R y x) -> chain R l -> chain R (rev l).
Proof.
  intros Hsym. induction l as [|x t IH]; intros H; [exact I|].
  destruct H as [Hx Ht]. cbn [rev]. apply chain_snoc; [now apply IH|].
  intros Hne. destruct t as [|y t']; [now elim Hne|].
  cbn [rev]. rewrite last_last. now apply Hsym.
Qed.

Lemma chain_nth l : forall p,
  chain R l -> (S p < length l)%nat -> R (nth p l 0) (nth (S p) l 0).
Proof.
  induction l as [|x t IH]; intros p H Hp; [simpl in Hp; lia|].
  destruct H as [Hx Ht]. destruct p as [|p].
  - destruct t as [|y t']; [simpl in Hp; lia|exact Hx].
  - change (R (nth p t 0) (nth (S p) t 0)). apply IH; [exact Ht|].
    simpl in Hp. lia.
Qed.

End Chains.

Lemma chain_map (R R' : Z -> Z -> Prop) (f : Z -> Z) l :
  (forall x y, In x l -> In y l -> R x y -> R' (f x) (f y)) ->
  chain R l -> chain R' (map f l).
Proof.
  induction l as [|x t IH]; intros Hf H; [exact I|].
  destruct H as [Hx Ht]. cbn [map chain]. split.
  - destruct t as [|y t']; [exact I|].
    apply Hf; [now left|right; now left|exact Hx].
  - apply IH; [|exact Ht]. intros a b Ha Hb. apply Hf; now right.
Qed.

Lemma hd_app_nonempty (l1 l2 : list Z) : l1 <> [] -> hd 0 (l1 ++ l2) = hd 0 l1.
Proof. destruct l1; [congruence|reflexivity]. Qed.

Lemma last_app_nonempty (l1 l2 : list Z) :
  l2 <> [] -> last (l1 ++ l2) 0 = last l2 0.
Proof.
  intros H. destruct (exists_last H) as [l [x ->]].
  rewrite app_assoc. rewrite (last_last (l1 ++ l)), (last_last l). reflexivity.
Qed.

Lemma last_rev (l : list Z) : last (rev l) 0 = hd 0 l.
Proof. destruct l as [|x t]; [reflexivity|]. cbn [rev]. apply last_last. Qed.

Lemma hd_rev (l : list Z) : hd 0 (rev l) = last l 0.
Proof. rewrite <- (rev_involutive l) at 2. now rewrite last_rev. Qed.

Lemma hd_map_add c (l : list Z) : l <> [] -> hd 0 (map (Z.add c) l) = c + hd 0 l.
Proof. destruct l; [congruence|reflexivity]. Qed.

Lemma last_map_add c (l : list Z) :
  l <> [] -> last (map (Z.add c) l) 0 = c + last l 0.
Proof.
  intros H. destruct (exists_last H) as [t [x ->]].
  rewrite map_app. cbn [map]. rewrite (last_last (map _ t)), (last_last t).
  reflexivity.
Qed.

Lemma rev_nonempty (l : list Z) : l <> [] -> rev l <> [].
Proof.
  intros H E. apply H. rewrite <- (rev_involutive l), E. reflexivity.
Qed.

Lemma map_nonempty (f : Z -> Z) (l : list Z) : l <> [] -> map f l <> [].
Proof. destruct l; [congruence|discriminate]. Qed.

Lemma filter_map_swap {A B} (f : B -> bool) (g : A -> B) (l : list A) :
  filter f (map g l) = map g (filter (fun a => f (g a)) l).
Proof.
  induction l as [|a t IH]; [reflexivity|].
  cbn [map filter]. destruct (f (g a)); cbn [map]; now rewrite IH.
Qed.

(** Reading one row of a table checked by [forallb]. *)
Lemma forallb_seq (f : nat -> bool) (N i : nat) :
  forallb f (seq 0 N) = true -> (i < N)%nat -> f i = true.
Proof.
  intros H Hi. rewrite forallb_forall in H. apply H, in_seq. lia.
Qed.

(** Reading [f] on [a, a + m) is reading it backwards on the mirrored
    positions. *)
Lemma map_seq_mirror (f : nat -> Z) (m : nat) : forall a,
  map f (seq a m) = rev (map (fun i => f (a + m - 1 - i)%nat) (seq 0 m)).
Proof.
  induction m as [|m IH]; intros a; [reflexivity|].
  rewrite (seq_S m 0), (map_app _ (seq 0 m)), rev_app_distr.
  cbn [seq map rev app Nat.add].
  f_equal; [f_equal; lia|].
  rewrite IH. f_equal. apply map_ext. intros i. f_equal. lia.
Qed.

(** ** Binomial coefficients *)

Lemma binomial_0_r n : binomial n 0 = 1%nat.
Proof. destruct n; reflexivity. Qed.

Lemma binomial_succ n k :
  binomial (S n) (S k) = (binomial n (S k) + binomial n k)%nat.
Proof. reflexivity. Qed.

Lemma binomial_above n : forall k, (n < k)%nat -> binomial n k = 0%nat.
Proof.
  induction n as [|n IH]; intros [|k] H; try lia; [reflexivity|].
  rewrite binomial_succ, !IH; lia.
Qed.

Lemma binomial_pos n : forall k, (k <= n)%nat -> (0 < binomial n k)%nat.
Proof.
  induction n as [|n IH]; intros [|k] H; try (simpl; lia).
  rewrite binomial_succ. specialize (IH k). lia.
Qed.

Lemma binomial_diag n : binomial n n = 1%nat.
Proof.
  induction n as [|n IH]; [reflexivity|].
  rewrite binomial_succ, IH, binomial_above; lia.
Qed.

Lemma factorial_succ n : factorial (S n) = Z.of_nat (S n) * factorial n.
Proof. reflexivity. Qed.

Lemma factorial_pos n : 0 < factorial n.
Proof. induction n as [|n IH]; [reflexivity|]. rewrite factorial_succ. lia. Qed.

(** [C(n,k) * k! * (n-k)! = n!] *)
Lemma binomial_factorial n : forall k, (k <= n)%nat ->
  Z.of_nat (binomial n k) * (factorial k * factorial (n - k)) = factorial n.
Proof.
  induction n as [|n IH]; intros k Hk.
  - assert (k = 0%nat) by lia. subst. reflexivity.
  - destruct k as [|k].
    + rewrite binomial_0_r, Nat.sub_0_r. change (factorial 0) with 1. lia.
    + destruct (Nat.eq_dec k n) as [->|Hne].
      * rewrite binomial_diag, Nat.sub_diag. change (factorial 0) with 1. lia.
      * rewrite binomial_succ, Nat2Z.inj_add.
        pose proof (IH (S k) ltac:(lia)) as H1.
        pose proof (IH k ltac:(lia)) as H2.
        cbn [Nat.sub].
        replace (n - k)%nat with (S (n - S k)) in * by lia.
        rewrite (factorial_succ n), (factorial_succ (n - S k)) in *.
        rewrite (factorial_succ k) in *.
        replace (Z.of_nat (S (n - S k))) with (Z.of_nat n - Z.of_nat k) in *
          by lia.
        rewrite !Nat2Z.inj_succ in *.
        set (b1 := Z.of_nat (binomial n (S k))) in *.
        set (b0 := Z.of_nat (binomial n k)) in *.
        set (a := factorial k) in *. set (b := factorial (n - S k)) in *.
        set (K := Z.of_nat k) in *. set (M := Z.of_nat n) in *.
        transitivity ((M - K) * (b1 * (Z.succ K * a * b))
                      + Z.succ K * (b0 * (a * ((M - K) * b)))); [ring|].
        rewrite H2, H1. ring.
Qed.

Lemma binomial_quotient n k : (k <= n)%nat ->
  Z.of_nat (binomial n k) = factorial n / (factorial k * factorial (n - k)).
Proof.
  intros Hk. rewrite <- (binomial_factorial n k Hk).
  rewrite Z.div_mul; [reflexivity|].
  pose proof (factorial_pos k). pose proof (factorial_pos (n - k)). nia.
Qed.

(** ** The walk over the words of one weight *)

Lemma weight_walk_succ n k :
  weight_walk (S n) (S k) =
  weight_walk n (S k) ++ map (Z.add (2 ^ Z.of_nat n)) (rev (weight_walk n k)).
Proof. reflexivity. Qed.

Lemma weight_walk_0 n : weight_walk n 0 = [0].
Proof.
  induction n as [|n IH]; [reflexivity|].
  cbn [weight_walk]. now rewrite IH.
Qed.

Lemma weight_walk_range n : forall k x,
  In x (weight_walk n k) ->
  0 <= x < 2 ^ Z.of_nat n /\ popcount x = Z.of_nat k.
Proof.
  induction n as [|n IH]; intros k x Hin.
  - destruct k; simpl in Hin; [|contradiction].
    destruct Hin as [<-|[]]. split; [simpl; lia|reflexivity].
  - destruct k as [|k].
    + rewrite weight_walk_0 in Hin. destruct Hin as [<-|[]].
      split; [|reflexivity]. pose proof (pow2_nat_pos (S n)). lia.
    + rewrite weight_walk_succ in Hin. apply in_app_or in Hin.
      rewrite pow2_nat_succ. destruct Hin as [Hin|Hin].
      * destruct (IH _ _ Hin). split; [lia|assumption].
      * apply in_map_iff in Hin. destruct Hin as [y [<- Hy]].
        apply in_rev in Hy. destruct (IH _ _ Hy) as [Hr Hp].
        split; [lia|]. rewrite Z.add_comm, popcount_add_pow2 by assumption.
        lia.
Qed.

Lemma weight_walk_length n : forall k,
  length (weight_walk n k) = binomial n k.
Proof.
  induction n as [|n IH]; intros [|k]; try reflexivity.
  - now rewrite weight_walk_0, binomial_0_r.
  - rewrite weight_walk_succ, binomial_succ.
    now rewrite length_app, length_map, length_rev, !IH.
Qed.

Lemma weight_walk_above n k : (n < k)%nat -> weight_walk n k = [].
Proof.
  intros H. apply length_zero_iff_nil.
  now rewrite weight_walk_length, binomial_above.
Qed.

Lemma weight_walk_nonempty n k : (k <= n)%nat -> weight_walk n k <> [].
Proof.
  intros H E. apply (f_equal (@length Z)) in E.
  rewrite weight_walk_length in E. pose proof (binomial_pos n k H).
  simpl in E. lia.
Qed.

Lemma weight_walk_NoDup n : forall k, NoDup (weight_walk n k).
Proof.
  induction n as [|n IH]; intros k.
  - destruct k; simpl; repeat constructor. intros [].
  - destruct k as [|k];
      [rewrite weight_walk_0; repeat constructor; intros []|].
    rewrite weight_walk_succ. apply NoDup_app.
    + apply IH.
    + apply Injective_map_NoDup; [intros a b; lia|].
      apply NoDup_rev, IH.
    + intros x Hx Hy. apply in_map_iff in Hy. destruct Hy as [y [<- Hy]].
      apply in_rev in Hy.
      apply weight_walk_range in Hx. apply weight_walk_range in Hy. lia.
Qed.

(** The two ends of the walk. *)
Lemma weight_walk_ends n : forall k, (k <= n)%nat ->
  hd 0 (weight_walk n k) = 2 ^ Z.of_nat k - 1 /\
  last (weight_walk n k) 0 = last_word n k.
Proof.
  induction n as [|n IH]; intros k Hk.
  - assert (k = 0%nat) by lia. subst. split; reflexivity.
  - destruct k as [|k]; [rewrite weight_walk_0; split; reflexivity|].
    rewrite weight_walk_succ.
    assert (map (Z.add (2 ^ Z.of_nat n)) (rev (weight_walk n k)) <> [])
      as Hne by (apply map_nonempty, rev_nonempty, weight_walk_nonempty; lia).
    destruct (IH k ltac:(lia)) as [Hhd Hlast]. split.
    + destruct (Nat.eq_dec k n) as [->|Hlt].
      * rewrite (weight_walk_above n (S n)) by lia. cbn [app].
        rewrite hd_map_add, hd_rev, Hlast
          by (apply rev_nonempty, weight_walk_nonempty; lia).
        rewrite pow2_nat_succ. destruct n as [|n]; [reflexivity|].
        cbn [last_word]. replace (S n - 1)%nat with n by lia.
        rewrite pow2_nat_succ. lia.
      * rewrite hd_app_nonempty by (apply weight_walk_nonempty; lia).
        apply IH. lia.
    + rewrite last_app_nonempty by exact Hne.
      rewrite last_map_add, last_rev, Hhd
        by (apply rev_nonempty, weight_walk_nonempty; lia).
      cbn [last_word]. replace (S n - 1)%nat with n by lia. lia.
Qed.

Lemma swap1_sym x y : swap1 x y -> swap1 y x.
Proof. unfold swap1. now rewrite hamming_sym. Qed.

(** Where the two halves meet. *)
Lemma weight_walk_joint n k : (S k <= n)%nat ->
  swap1 (last_word n (S k)) (2 ^ Z.of_nat n + last_word n k).
Proof.
  intros Hk. unfold swap1. destruct n as [|n]; [lia|].
  assert (0 <= 2 ^ Z.of_nat k - 1 < 2 ^ Z.of_nat n) as Hk1
    by (apply pow2_minus1_range; lia).
  pose proof (pow2_nat_succ n) as Hs. pose proof (pow2_nat_pos n) as Hp.
  destruct k as [|k]; cbn [last_word]; replace (S n - 1)%nat with n by lia;
    rewrite (Z.add_comm (2 ^ Z.of_nat n)), (Z.add_comm (2 ^ Z.of_nat (S n))).
  - change (2 ^ Z.of_nat 0 - 1) with 0 in *.
    rewrite hamming_add_pow2_r, hamming_zero_r by lia.
    rewrite popcount_add_pow2 by lia. reflexivity.
  - assert (0 <= 2 ^ Z.of_nat k - 1 < 2 ^ Z.of_nat n) as Hk2
      by (apply pow2_minus1_range; lia).
    rewrite hamming_add_pow2_r by lia.
    rewrite (Z.add_comm (2 ^ Z.of_nat n)).
    rewrite hamming_add_pow2 by assumption.
    rewrite hamming_ones. reflexivity.
Qed.

(** Neighbours on the walk differ by one swap. *)
Lemma weight_walk_chain n : forall k, chain swap1 (weight_walk n k).
Proof.
  induction n as [|n IH]; intros k.
  - destruct k; simpl; auto.
  - destruct k as [|k]; [rewrite weight_walk_0; simpl; auto|].
    rewrite weight_walk_succ. apply chain_app.
    + apply IH.
    + apply chain_map with (R := swap1).
      * intros x y Hx Hy. apply in_rev, weight_walk_range in Hx.
        apply in_rev, weight_walk_range in Hy. unfold swap1.
        rewrite !(Z.add_comm (2 ^ Z.of_nat n)), hamming_add_pow2; tauto.
      * apply chain_rev; [exact swap1_sym|apply IH].
    + intros Hne1 Hne2.
      assert (S k <= n)%nat as Hk.
      { destruct (Nat.le_gt_cases (S k) n) as [|Hgt]; [assumption|].
        now rewrite weight_walk_above in Hne1. }
      destruct (weight_walk_ends n (S k) Hk) as [_ ->].
      rewrite hd_map_add, hd_rev
        by (apply rev_nonempty, weight_walk_nonempty; lia).
      destruct (weight_walk_ends n k ltac:(lia)) as [_ ->].
      now apply weight_walk_joint.
Qed.

(** The walk is the Gray code, filtered by weight. *)
Lemma gray_codes_succ n :
  gray_codes (S n) =
  gray_codes n ++ map (Z.add (2 ^ Z.of_nat n)) (rev (gray_codes n)).
Proof.
  unfold gray_codes.
  replace (2 ^ S n)%nat with (2 ^ n + 2 ^ n)%nat by (simpl; lia).
  rewrite seq_app, map_app. f_equal. cbn [Nat.add].
  rewrite map_seq_mirror, map_rev, map_map. f_equal.
  apply map_ext_in. intros i Hi. apply in_seq in Hi.
  assert (Z.of_nat (2 ^ n) = 2 ^ Z.of_nat n) as Hpow
    by (rewrite Nat2Z.inj_pow; reflexivity).
  replace (Z.of_nat (2 ^ n + 2 ^ n - 1 - i))
    with (2 ^ Z.of_nat (S n) - 1 - Z.of_nat i)
    by (rewrite pow2_nat_succ; lia).
  rewrite gray_reflect by lia. lia.
Qed.

Lemma gray_codes_range n x : In x (gray_codes n) -> 0 <= x < 2 ^ Z.of_nat n.
Proof.
  unfold gray_codes. intros H. apply in_map_iff in H.
  destruct H as [i [<- Hi]]. apply in_seq in Hi. apply gray_range.
  assert (Z.of_nat (2 ^ n) = 2 ^ Z.of_nat n) as Hpow
    by (rewrite Nat2Z.inj_pow; reflexivity).
  lia.
Qed.

Lemma filter_weight_shift n k l :
  (forall x, In x l -> 0 <= x < 2 ^ Z.of_nat n) ->
  filter (has_weight (S k)) (map (Z.add (2 ^ Z.of_nat n)) l) =
  map (Z.add (2 ^ Z.of_nat n)) (filter (has_weight k) l).
Proof.
  intros Hl. rewrite filter_map_swap. f_equal.
  apply filter_ext_in. intros x Hx. unfold has_weight.
  rewrite Z.add_comm, popcount_add_pow2 by now apply Hl.
  destruct (Z.eqb_spec (popcount x) (Z.of_nat k));
    destruct (Z.eqb_spec (popcount x + 1) (Z.of_nat (S k))); try reflexivity; lia.
Qed.

Lemma filter_weight_0_shift n l :
  (forall x, In x l -> 0 <= x < 2 ^ Z.of_nat n) ->
  filter (has_weight 0) (map (Z.add (2 ^ Z.of_nat n)) l) = [].
Proof.
  intros Hl. rewrite filter_map_swap.
  replace (filter _ l) with (@nil Z); [reflexivity|].
  symmetry. induction l as [|x t IH]; [reflexivity|].
  cbn [filter]. unfold has_weight at 1.
  rewrite Z.add_comm, popcount_add_pow2 by (apply Hl; now left).
  pose proof (popcount_nonneg x).
  destruct (Z.eqb_spec (popcount x + 1) (Z.of_nat 0)); [lia|].
  apply IH. intros y Hy. apply Hl. now right.
Qed.

Lemma weight_walk_filter n : forall k,
  filter (has_weight k) (gray_codes n) = weight_walk n k.
Proof.
  induction n as [|n IH]; intros k.
  - destruct k; reflexivity.
  - rewrite gray_codes_succ, filter_app.
    assert (forall x, In x (rev (gray_codes n)) -> 0 <= x < 2 ^ Z.of_nat n)
      as Hr by (intros x Hx; apply in_rev in Hx; now apply gray_codes_range).
    destruct k as [|k].
    + rewrite filter_weight_0_shift by exact Hr.
      rewrite IH, !weight_walk_0. reflexivity.
    + rewrite filter_weight_shift by exact Hr.
      rewrite filter_rev, !IH. reflexivity.
Qed.

(** ** The two loops of [next] *)

(** Going up from [i], the loop leaves at the first accepted cursor below
    the limit, or at the limit. *)
Lemma scan_up_spec pick (len : nat) : forall (i fuel : nat) limit,
  Z.of_nat (i + len + 1) = limit -> limit < 2 ^ 32 -> (len < fuel)%nat ->
  scan_up fuel limit pick (Z.of_nat i) =
  first_or_turn (filter (accepts pick) (map Z.of_nat (seq (S i) len))).
Proof.
  induction len as [|len IH]; intros i fuel limit Hl Hb Hf;
    (destruct fuel as [|fuel]; [lia|]); cbn [scan_up];
    replace (Z.of_nat i + 1) with (Z.of_nat (S i)) by lia;
    rewrite wrap32_small by lia.
  - destruct (Z.eqb_spec (Z.of_nat (S i)) limit); [reflexivity|lia].
  - destruct (Z.eqb_spec (Z.of_nat (S i)) limit); [lia|].
    cbn [seq map filter]. unfold accepts at 1.
    destruct (count_bits (gray (Z.of_nat (S i))) =? pick); [reflexivity|].
    apply IH; lia.
Qed.

(** Going down from [i], it leaves at the last accepted cursor above 0, or
    at 0. *)
Lemma scan_down_spec pick (i : nat) : forall fuel : nat,
  (1 <= i)%nat -> Z.of_nat i < 2 ^ 32 -> (i <= fuel)%nat ->
  scan_down fuel pick (Z.of_nat i) =
  first_or_turn (rev (filter (accepts pick) (map Z.of_nat (seq 1 (i - 1))))).
Proof.
  induction i as [|i IH]; intros fuel Hi Hb Hf; [lia|].
  destruct fuel as [|fuel]; [lia|]. cbn [scan_down].
  replace (Z.of_nat (S i) - 1) with (Z.of_nat i) by lia.
  rewrite wrap32_small by lia.
  replace (S i - 1)%nat with i by lia.
  destruct i as [|i]; [reflexivity|].
  destruct (Z.eqb_spec (Z.of_nat (S i)) 0); [lia|].
  rewrite seq_S, map_app, filter_app, rev_app_distr.
  cbn [map filter Nat.add]. unfold accepts at 1.
  destruct (count_bits (gray (Z.of_nat (S i))) =? pick); [reflexivity|].
  cbn [rev app]. rewrite IH by lia.
  replace (S i - 1)%nat with i by lia. reflexivity.
Qed.

(** The fuel given to the loops is what they need. *)
Lemma up_fuel_enough (i len : nat) limit :
  Z.of_nat (i + len + 1) = limit -> limit < 2 ^ 32 ->
  up_fuel limit (Z.of_nat i) = S len.
Proof.
  intros Hl Hb. unfold up_fuel. rewrite wrap32_small by lia. f_equal. lia.
Qed.

Lemma down_fuel_enough (i : nat) :
  (1 <= i)%nat -> Z.of_nat i < 2 ^ 32 -> down_fuel (Z.of_nat i) = i.
Proof.
  intros Hi Hb. unfold down_fuel. rewrite wrap32_small by lia. lia.
Qed.

(** ** Positions in a filtered list *)

Lemma filter_nth_split (f : Z -> bool) (l : list Z) : forall p,
  (p < length (filter f l))%nat ->
  exists l1 l2,
    l = l1 ++ nth p (filter f l) 0 :: l2 /\
    filter f l1 = firstn p (filter f l) /\
    filter f l2 = skipn (S p) (filter f l).
Proof.
  induction l as [|x t IH]; intros p Hp; [simpl in Hp; lia|].
  cbn [filter] in *. destruct (f x) eqn:Hx.
  - destruct p as [|p].
    + exists [], t. repeat split.
    + cbn [length] in Hp. destruct (IH p ltac:(lia)) as [l1 [l2 [H1 [H2 H3]]]].
      exists (x :: l1), l2. cbn [nth app filter firstn skipn].
      rewrite Hx, H2. repeat split; [|exact H3]. now rewrite <- H1.
  - destruct (IH p Hp) as [l1 [l2 [H1 [H2 H3]]]].
    exists (x :: l1), l2. cbn [app filter]. rewrite Hx.
    repeat split; [|exact H2|exact H3]. now rewrite <- H1.
Qed.

Lemma app_same_length (l1 l1' r r' : list Z) :
  l1 ++ r = l1' ++ r' -> length l1 = length l1' -> l1 = l1' /\ r = r'.
Proof.
  revert l1'. induction l1 as [|x t IH]; intros [|y t'] H Hlen;
    simpl in Hlen; try lia; [now split|].
  injection H as -> H. destruct (IH t' H ltac:(lia)) as [-> ->]. now split.
Qed.

(** A cut of the run [1, 2, ..., M] is made of two runs. *)
Lemma seq_cut (M : nat) (l1 l2 : list Z) x :
  map Z.of_nat (seq 1 M) = l1 ++ x :: l2 ->
  exists a : nat,
    (1 <= a <= M)%nat /\ x = Z.of_nat a /\
    l1 = map Z.of_nat (seq 1 (a - 1)) /\
    l2 = map Z.of_nat (seq (S a) (M - a)).
Proof.
  intros H. pose proof (f_equal (@length Z) H) as Hlen.
  rewrite length_map, length_seq, length_app in Hlen. cbn [length] in Hlen.
  exists (S (length l1)).
  replace M with (length l1 + S (length l2))%nat in H by lia.
  rewrite seq_app, map_app in H. cbn [seq map Nat.add] in H.
  apply app_same_length in H; [|now rewrite length_map, length_seq].
  destruct H as [<- H]. injection H as <- <-.
  rewrite length_map, length_seq.
  repeat split; try lia.
  - f_equal. f_equal. lia.
  - f_equal. f_equal. lia.
Qed.

Lemma skipn_nth (l : list Z) : forall q,
  (q < length l)%nat -> skipn q l = nth q l 0 :: skipn (S q) l.
Proof.
  induction l as [|x t IH]; intros q Hq; [simpl in Hq; lia|].
  destruct q as [|q]; [reflexivity|].
  cbn [skipn nth]. apply IH. simpl in Hq. lia.
Qed.

Lemma firstn_succ_nth (l : list Z) : forall q,
  (q < length l)%nat -> firstn (S q) l = firstn q l ++ [nth q l 0].
Proof.
  induction l as [|x t IH]; intros q Hq; [simpl in Hq; lia|].
  destruct q as [|q]; [reflexivity|].
  cbn [firstn nth app]. f_equal. apply IH. simpl in Hq. lia.
Qed.

(** ** The generator walks the accepted cursors *)

Lemma pow2_nat_Z n : Z.of_nat (2 ^ n) = 2 ^ Z.of_nat n.
Proof. now rewrite Nat2Z.inj_pow. Qed.

Lemma pow2_nat_ge1 n : (1 <= 2 ^ n)%nat.
Proof. pose proof (pow2_nat_Z n). pose proof (pow2_nat_pos n). lia. Qed.

Lemma limit_of_nat n : (n <= 31)%nat ->
  limit_of (Z.of_nat n) = 2 ^ Z.of_nat n /\ 2 ^ Z.of_nat n < 2 ^ 32.
Proof.
  intros Hn. unfold limit_of. rewrite Z.shiftl_mul_pow2, Z.mul_1_l by lia.
  assert (2 ^ Z.of_nat n < 2 ^ 32) by (apply Z.pow_lt_mono_r; lia).
  pose proof (pow2_nat_pos n). split; [apply wrap32_small; lia|assumption].
Qed.

(** For sizes up to 31 the divisor in the constructor is not zero. *)
Lemma divisor_table :
  forallb (fun n => forallb (fun k =>
      negb (wrap32 (fact (wrap32 (Z.of_nat k))
                    * fact (wrap32 (Z.of_nat n - Z.of_nat k))) =? 0))
    (seq 0 (S n))) (seq 0 32) = true.
Proof. vm_compute. reflexivity. Qed.

Lemma divisor_nonzero (n k : nat) : (n <= 31)%nat -> (k <= n)%nat ->
  (wrap32 (fact (wrap32 (Z.of_nat k))
           * fact (wrap32 (Z.of_nat n - Z.of_nat k))) =? 0) = false.
Proof.
  intros Hn Hk.
  pose proof (forallb_seq _ 32 n divisor_table ltac:(lia)) as H.
  apply (forallb_seq _ (S n) k) in H; [|lia].
  now apply negb_true_iff in H.
Qed.

Section Walk.
Variables n k : nat.
Hypothesis size_fits : (n <= 31)%nat.
Hypothesis pick_pos : (1 <= k)%nat.
Hypothesis pick_le : (k <= n)%nat.

Let A := accepted n k.

Lemma accepted_values : map gray (accepted n k) = weight_walk n k.
Proof.
  rewrite <- weight_walk_filter. unfold accepted, gray_codes.
  replace (2 ^ n)%nat with (S (2 ^ n - 1)) at 2
    by (pose proof (pow2_nat_ge1 n); lia).
  cbn [seq map filter]. change (gray (Z.of_nat 0)) with 0.
  replace (has_weight k 0) with false
    by (unfold has_weight; change (popcount 0) with 0;
        symmetry; apply Z.eqb_neq; lia).
  rewrite <- (map_map Z.of_nat gray), (filter_map_swap (has_weight k) gray).
  f_equal.
  apply filter_ext_in. intros i Hi. apply in_map_iff in Hi.
  destruct Hi as [j [<- Hj]]. apply in_seq in Hj.
  unfold accepts, has_weight. f_equal. apply count_bits_popcount.
  destruct (limit_of_nat n size_fits) as [_ Hlt].
  pose proof (gray_range n (Z.of_nat j)) as Hr. pose proof (pow2_nat_Z n).
  lia.
Qed.

Lemma accepted_length : length (accepted n k) = binomial n k.
Proof.
  now rewrite <- weight_walk_length, <- accepted_values, length_map.
Qed.

Lemma accepted_nonempty : (0 < length (accepted n k))%nat.
Proof. rewrite accepted_length. now apply binomial_pos. Qed.

Lemma value_standing c p b :
  value (standing n k c p b) = nth p (weight_walk n k) 0.
Proof.
  unfold value, standing. cbn [index_].
  rewrite <- accepted_values. change 0 with (gray 0) at 2.
  now rewrite map_nth.
Qed.

(** The accepted cursors below and above the one at position [p]. *)
Lemma standing_split p : (p < length A)%nat ->
  exists a : nat,
    nth p A 0 = Z.of_nat a /\ (1 <= a <= 2 ^ n - 1)%nat /\
    filter (accepts (Z.of_nat k)) (map Z.of_nat (seq 1 (a - 1)))
      = firstn p A /\
    filter (accepts (Z.of_nat k)) (map Z.of_nat (seq (S a) (2 ^ n - 1 - a)))
      = skipn (S p) A.
Proof.
  intros Hp. subst A. unfold accepted in *.
  destruct (filter_nth_split _ _ p Hp) as [l1 [l2 [Hcut [H1 H2]]]].
  destruct (seq_cut _ _ _ _ Hcut) as [a [Ha [Hx [-> ->]]]].
  exists a. repeat split; try assumption; lia.
Qed.

Lemma wrap32_pick : wrap32 (Z.of_nat k) = Z.of_nat k.
Proof. apply wrap32_small. lia. Qed.

Lemma next_standing_forward c p : (p < length A)%nat ->
  next (standing n k c p false) =
  if (S p <? length A)%nat then standing n k c (S p) false
  else standing n k c p true.
Proof.
  intros Hp. destruct (standing_split p Hp) as [a [Ha [Hr [_ Habove]]]].
  destruct (limit_of_nat n size_fits) as [Hlim Hlt].
  pose proof (pow2_nat_Z n) as Hpow.
  unfold next, scan, standing. cbn [reversed_ index_ size_ pick_].
  fold A. rewrite Ha, Hlim, wrap32_pick.
  rewrite (up_fuel_enough a (2 ^ n - 1 - a)) by lia.
  rewrite (scan_up_spec _ (2 ^ n - 1 - a)) by lia.
  rewrite Habove. destruct (Nat.ltb_spec (S p) (length A)) as [Hlt'|Hge].
  - rewrite skipn_nth by assumption. cbn [first_or_turn].
    unfold set_index. cbn. reflexivity.
  - rewrite skipn_all2 by lia. cbn [first_or_turn].
    unfold set_reversed. cbn. reflexivity.
Qed.

Lemma next_standing_reverse c p : (p < length A)%nat ->
  next (standing n k c p true) =
  match p with
  | O => standing n k c 0 false
  | S p' => standing n k c p' true
  end.
Proof.
  intros Hp. destruct (standing_split p Hp) as [a [Ha [Hr [Hbelow _]]]].
  destruct (limit_of_nat n size_fits) as [Hlim Hlt].
  pose proof (pow2_nat_Z n) as Hpow.
  unfold next, scan, standing. cbn [reversed_ index_ size_ pick_].
  fold A. rewrite Ha, wrap32_pick.
  rewrite (down_fuel_enough a) by lia.
  rewrite scan_down_spec by lia.
  rewrite Hbelow. destruct p as [|p].
  - cbn [firstn rev first_or_turn]. unfold set_reversed. cbn. now rewrite Ha.
  - rewrite firstn_succ_nth, rev_app_distr by lia. cbn [rev app first_or_turn].
    unfold set_index. cbn. reflexivity.
Qed.

(** The constructor leaves the generator on the first accepted cursor. *)
Lemma gray_generator_standing :
  gray_generator (Z.of_nat n) (Z.of_nat k) =
  Some (standing n k (combinations_init (Z.of_nat n) (Z.of_nat k)) 0 false).
Proof.
  unfold gray_generator. rewrite divisor_nonzero by assumption.
  f_equal. fold (combinations_init (Z.of_nat n) (Z.of_nat k)).
  destruct (limit_of_nat n size_fits) as [Hlim Hlt].
  pose proof (pow2_nat_Z n) as Hpow. pose proof (pow2_nat_ge1 n) as Hge.
  unfold next, scan. cbn [reversed_ index_ size_ pick_].
  rewrite Hlim, wrap32_pick.
  change 0 with (Z.of_nat 0) at 1 2.
  rewrite (up_fuel_enough 0 (2 ^ n - 1)) by lia.
  rewrite (scan_up_spec _ (2 ^ n - 1)) by lia.
  fold (accepted n k). pose proof accepted_nonempty as Hne.
  unfold standing. destruct (accepted n k) as [|x t]; [simpl in Hne; lia|].
  cbn. reflexivity.
Qed.

End Walk.

(** ** Runs of the generator *)

Lemma run_succ j : forall g, run (S j) g = next (run j g).
Proof.
  induction j as [|j IH]; intros g; [reflexivity|].
  change (run (S (S j)) g) with (run (S j) (next g)). now rewrite IH.
Qed.

Lemma run_add a : forall b g, run (a + b) g = run b (run a g).
Proof.
  induction a as [|a IH]; intros b g; [reflexivity|].
  cbn [Nat.add run]. apply IH.
Qed.

Section Runs.
Variables n k : nat.
Hypothesis size_fits : (n <= 31)%nat.
Hypothesis pick_pos : (1 <= k)%nat.
Hypothesis pick_le : (k <= n)%nat.
Variable c : Z.

Let m := binomial n k.
Let g0 := standing n k c 0 false.

Lemma walk_length : length (accepted n k) = m.
Proof. now apply accepted_length. Qed.

Lemma walk_nonempty : (0 < m)%nat.
Proof. now apply binomial_pos. Qed.

(** The forward phase: call after call, one position up. *)
Lemma run_forward j : (j < m)%nat -> run j g0 = standing n k c j false.
Proof.
  induction j as [|j IH]; intros Hj; [reflexivity|].
  rewrite run_succ, IH by lia.
  rewrite next_standing_forward by (try assumption; rewrite walk_length; lia).
  rewrite walk_length.
  destruct (Nat.ltb_spec (S j) m); [reflexivity|lia].
Qed.

(** The call at the upper end only turns the generator round. *)
Lemma run_turn : run m g0 = standing n k c (m - 1) true.
Proof.
  pose proof walk_nonempty as Hm.
  replace m with (S (m - 1)) at 1 by lia.
  rewrite run_succ, run_forward by lia.
  rewrite next_standing_forward by (try assumption; rewrite walk_length; lia).
  rewrite walk_length.
  destruct (Nat.ltb_spec (S (m - 1)) m); [lia|reflexivity].
Qed.

(** The reverse phase: one position down per call. *)
Lemma run_reverse j :
  (j < m)%nat -> run (m + j) g0 = standing n k c (m - 1 - j) true.
Proof.
  induction j as [|j IH]; intros Hj.
  - rewrite Nat.add_0_r, Nat.sub_0_r. apply run_turn.
  - rewrite Nat.add_succ_r, run_succ, IH by lia.
    rewrite next_standing_reverse by (try assumption; rewrite walk_length; lia).
    replace (m - 1 - j)%nat with (S (m - 1 - S j)) by lia. reflexivity.
Qed.

(** The call at the lower end turns it round again: one period is over. *)
Lemma run_period : run (2 * m) g0 = g0.
Proof.
  pose proof walk_nonempty as Hm.
  replace (2 * m)%nat with (S (m + (m - 1))) by lia.
  rewrite run_succ, run_reverse by lia.
  rewrite next_standing_reverse by (try assumption; rewrite walk_length; lia).
  replace (m - 1 - (m - 1))%nat with 0%nat by lia. reflexivity.
Qed.

Lemma run_periodic j : run (2 * m + j) g0 = run j g0.
Proof. now rewrite run_add, run_period. Qed.

(** At any time the generator stands on an accepted cursor. *)
Lemma run_standing j :
  exists p b, (p < m)%nat /\ run j g0 = standing n k c p b.
Proof.
  pose proof walk_nonempty as Hm.
  induction j as [|j [p [b [Hp IH]]]]; [exists 0%nat, false; now split|].
  rewrite run_succ, IH. destruct b.
  - rewrite next_standing_reverse by (try assumption; rewrite walk_length; lia).
    destruct p as [|p]; [exists 0%nat, false|exists p, true]; split;
      try reflexivity; lia.
  - rewrite next_standing_forward by (try assumption; rewrite walk_length; lia).
    rewrite walk_length. destruct (Nat.ltb_spec (S p) m);
      [exists (S p), false|exists p, true]; split; try reflexivity; lia.
Qed.

(** What a call does to the observed value. *)
Lemma next_standing_cases p b : (p < m)%nat ->
  let g := standing n k c p b in
  (next g = set_reversed g (negb b) /\ scan g = Turn) \/
  (exists q, (q < m)%nat /\ next g = standing n k c q b /\
             swap1 (value g) (value (next g))).
Proof.
  intros Hp g. subst g.
  assert (forall q, (S q < m)%nat ->
            swap1 (nth q (weight_walk n k) 0) (nth (S q) (weight_walk n k) 0))
    as Hswap.
  { intros q Hq. apply chain_nth; [apply weight_walk_chain|].
    rewrite weight_walk_length. exact Hq. }
  pose proof (next_standing_forward n k size_fits pick_pos pick_le c p) as HF.
  pose proof (next_standing_reverse n k size_fits pick_pos pick_le c p) as HR.
  rewrite walk_length in HF, HR. specialize (HF Hp). specialize (HR Hp).
  destruct b.
  - destruct p as [|p].
    + left. split; [exact HR|].
      unfold next in HR. destruct (scan (standing n k c 0 true)) eqn:E;
        [|reflexivity|]; exfalso; revert HR; unfold set_index, standing; cbn;
        intros HR; discriminate HR.
    + right. exists p. split; [lia|]. split; [exact HR|].
      rewrite HR, !value_standing by assumption.
      apply swap1_sym, Hswap. lia.
  - destruct (Nat.ltb_spec (S p) m) as [Hlt|Hge].
    + right. exists (S p). split; [lia|]. split; [exact HF|].
      rewrite HF, !value_standing by assumption. now apply Hswap.
    + left. split; [exact HF|].
      unfold next in HF. destruct (scan (standing n k c p false)) eqn:E;
        [|reflexivity|]; exfalso; revert HF; unfold set_index, standing; cbn;
        intros HF; discriminate HF.
Qed.

(** The observed values of the two phases. *)
Lemma observed_forward : observed g0 0 m = weight_walk n k.
Proof.
  unfold observed. apply nth_ext with (d := 0) (d' := 0).
  - now rewrite length_map, length_seq, weight_walk_length.
  - intros j Hj. rewrite length_map, length_seq in Hj.
    rewrite (nth_indep _ 0 (value (run 0 g0)))
      by now rewrite length_map, length_seq.
    rewrite (map_nth (fun k0 => value (run k0 g0))), seq_nth by assumption.
    cbn [Nat.add].
    rewrite run_forward, value_standing by assumption. reflexivity.
Qed.

Lemma observed_reverse : observed g0 m m = rev (weight_walk n k).
Proof.
  unfold observed. apply nth_ext with (d := 0) (d' := 0).
  - now rewrite length_map, length_seq, length_rev, weight_walk_length.
  - intros j Hj. rewrite length_map, length_seq in Hj.
    rewrite (nth_indep _ 0 (value (run 0 g0)))
      by now rewrite length_map, length_seq.
    rewrite (map_nth (fun k0 => value (run k0 g0))), seq_nth by assumption.
    rewrite run_reverse, value_standing by assumption.
    rewrite rev_nth by (rewrite weight_walk_length; exact Hj).
    rewrite weight_walk_length. f_equal. fold m. lia.
Qed.

End Runs.

(** ** One swap is one bit cleared and one bit set *)

Lemma popcount_shift x :
  0 <= x -> popcount x = popcount (Z.shiftr x 1) + Z.b2z (Z.testbit x 0).
Proof.
  intros Hx. rewrite Z.shiftr_div_pow2, Z.pow_1_r, Z.bit0_mod by lia.
  now apply popcount_step.
Qed.

Lemma shiftr1_range (n : nat) x :
  0 <= x < 2 ^ Z.of_nat (S n) -> 0 <= Z.shiftr x 1 < 2 ^ Z.of_nat n.
Proof.
  intros Hx. rewrite Z.shiftr_div_pow2, Z.pow_1_r by lia.
  now apply half_range.
Qed.

Lemma popcount_parts (n : nat) : forall x y,
  0 <= x < 2 ^ Z.of_nat n -> 0 <= y < 2 ^ Z.of_nat n ->
  popcount (Z.lxor x y) = popcount (Z.ldiff x y) + popcount (Z.ldiff y x) /\
  popcount x = popcount (Z.land x y) + popcount (Z.ldiff x y).
Proof.
  induction n as [|n IH]; intros x y Hx Hy.
  - simpl in Hx, Hy. assert (x = 0) by lia. assert (y = 0) by lia. subst.
    split; reflexivity.
  - destruct (IH _ _ (shiftr1_range n x Hx) (shiftr1_range n y Hy)) as [H1 H2].
    assert (0 <= Z.lxor x y) by (apply Z.lxor_nonneg; lia).
    assert (0 <= Z.ldiff x y) by (apply Z.ldiff_nonneg; lia).
    assert (0 <= Z.ldiff y x) by (apply Z.ldiff_nonneg; lia).
    assert (0 <= Z.land x y) by (apply Z.land_nonneg; lia).
    rewrite (popcount_shift (Z.lxor x y)), (popcount_shift (Z.ldiff x y)),
      (popcount_shift (Z.ldiff y x)), (popcount_shift (Z.land x y)),
      (popcount_shift x) by lia.
    rewrite Z.shiftr_lxor, !Z.shiftr_ldiff, Z.shiftr_land.
    rewrite Z.lxor_spec, !Z.ldiff_spec, Z.land_spec.
    destruct (Z.testbit x 0), (Z.testbit y 0); cbn [xorb andb negb Z.b2z]; lia.
Qed.

Lemma swap1_one_cleared_one_set (n : nat) x y :
  0 <= x < 2 ^ Z.of_nat n -> 0 <= y < 2 ^ Z.of_nat n ->
  popcount x = popcount y -> swap1 x y -> one_cleared_one_set x y.
Proof.
  unfold swap1, hamming, one_cleared_one_set. intros Hx Hy Hp Hs.
  destruct (popcount_parts n x y Hx Hy) as [H1 H2].
  destruct (popcount_parts n y x Hy Hx) as [_ H3].
  rewrite (Z.land_comm y x) in H3. lia.
Qed.

(** ** The stored number of combinations *)

Lemma combinations_table :
  forallb (fun n => forallb (fun k =>
      combinations_init (Z.of_nat n) (Z.of_nat k) =? Z.of_nat (binomial n k))
    (seq 0 (S n))) (seq 0 13) = true.
Proof. vm_compute. reflexivity. Qed.

Lemma combinations_init_small (n k : nat) : (n <= 12)%nat -> (k <= n)%nat ->
  combinations_init (Z.of_nat n) (Z.of_nat k) = Z.of_nat (binomial n k).
Proof.
  intros Hn Hk.
  pose proof (forallb_seq _ 13 n combinations_table ltac:(lia)) as H.
  apply (forallb_seq _ (S n) k) in H; [|lia].
  now apply Z.eqb_eq.
Qed.

Lemma factorial_mono a b : (a <= b)%nat -> factorial a <= factorial b.
Proof.
  induction 1 as [|b Hab IH]; [lia|].
  rewrite factorial_succ. pose proof (factorial_pos b). nia.
Qed.

Lemma factorial_fits n : factorial n < 2 ^ 32 -> (n <= 12)%nat.
Proof.
  intros H. destruct (Nat.le_gt_cases n 12) as [|Hgt]; [assumption|exfalso].
  pose proof (factorial_mono 13 n Hgt) as Hm.
  assert (2 ^ 32 < factorial 13) by (vm_compute; reflexivity). lia.
Qed.

(** ** The generator, for the sizes and picks of the specification *)

Lemma gray_generator_walk (size pick : Z) :
  0 < pick <= size -> size < 32 ->
  gray_generator size pick =
  Some (standing (Z.to_nat size) (Z.to_nat pick)
          (combinations_init size pick) 0 false).
Proof.
  intros Hp Hs.
  rewrite <- (Z2Nat.id size) at 1 3 by lia.
  rewrite <- (Z2Nat.id pick) at 1 3 by lia.
  apply gray_generator_standing; lia.
Qed.

Lemma standing_fields n k c p b :
  size_ (standing n k c p b) = Z.of_nat n /\
  pick_ (standing n k c p b) = Z.of_nat k /\
  reversed_ (standing n k c p b) = b /\
  combinations_ (standing n k c p b) = c.
Proof. repeat split. Qed.

(** The forward phase for any size that fits the cursor: it lasts
    [C(size, pick)] calls and shows the words of the walk. *)
Lemma gray_forward_phase (size pick : Z) :
  0 < pick <= size -> size < 32 ->
  exists g, gray_generator size pick = Some g /\
    let m := binomial (Z.to_nat size) (Z.to_nat pick) in
    (forall j, (j < m)%nat -> reversed_ (run j g) = false) /\
    (forall j, (m <= j < 2 * m)%nat -> reversed_ (run j g) = true) /\
    observed g 0 m = weight_walk (Z.to_nat size) (Z.to_nat pick) /\
    observed g m m = rev (weight_walk (Z.to_nat size) (Z.to_nat pick)) /\
    run (2 * m) g = g.
Proof.
  intros Hp Hs. eexists. split; [now apply gray_generator_walk|].
  set (n := Z.to_nat size). set (k := Z.to_nat pick).
  assert (n <= 31)%nat as Hn by lia.
  assert (1 <= k)%nat as Hk1 by lia. assert (k <= n)%nat as Hk2 by lia.
  cbv zeta. repeat split.
  - intros j Hj. now rewrite run_forward.
  - intros j Hj. replace j with (binomial n k + (j - binomial n k))%nat by lia.
    rewrite run_reverse by (try assumption; lia). reflexivity.
  - now apply observed_forward.
  - now apply observed_reverse.
  - now apply run_period.
Qed.

(** From size 13 on [fact] wraps round and [combinations()] is no longer
    the number of combinations: 13 items taken 1 at a time give 4. *)
Lemma combinations_wraps_at_13 :
  option_map combinations (gray_generator 13 1) = Some 4 /\
  binomial 13 1 = 13%nat.
Proof. split; vm_compute; reflexivity. Qed.

(** C3. At [size = 13], [pick = 1] the accessor [combinations()] does not
    return the number of values of the forward phase.  The constructor
    succeeds; the 13 calls made before the direction flag is set show 13
    values, all distinct, each with exactly one bit set, and
    [13! / (1! * 12!)] is 13.  But [combinations()] returns 4: [fact(13)] is
    computed on 32 bits and is [13! mod 2^32 = 1932053504], which divided by
    [fact(1) * fact(12) = 479001600] gives 4.  gray.h documents the accessor
    as the length of the sequence that the generator will produce. *)
Theorem gray_13_1_combinations :
  exists g, gray_generator 13 1 = Some g /\
    (forall j, (j < 13)%nat -> reversed_ (run j g) = false) /\
    reversed_ (run 13 g) = true /\
    length (observed g 0 13) = 13%nat /\
    NoDup (observed g 0 13) /\
    (forall x, In x (observed g 0 13) -> popcount x = 1) /\
    factorial 13 / (factorial 1 * factorial 12) = 13 /\
    factorial 13 = 6227020800 /\
    fact 13 = 1932053504 /\ fact 1 * fact 12 = 479001600 /\
    combinations g = 4 /\ combinations g <> 13.
Proof.
  destruct (gray_forward_phase 13 1) as [g [Hg [Hfw [Hrv [Hobs _]]]]];
    try lia.
  assert (binomial (Z.to_nat 13) (Z.to_nat 1) = 13%nat) as Hm
    by (vm_compute; reflexivity).
  rewrite Hm in Hfw, Hrv, Hobs.
  assert (combinations g = 4) as Hc.
  { pose proof combinations_wraps_at_13 as [Hw _].
    rewrite Hg in Hw. cbn [option_map] in Hw. now injection Hw. }
  exists g. split; [exact Hg|].
  split; [exact Hfw|]. split; [apply Hrv; lia|].
  split; [unfold observed; now rewrite length_map, length_seq|].
  split; [rewrite Hobs; apply weight_walk_NoDup|].
  split.
  { intros x Hx. rewrite Hobs in Hx. apply weight_walk_range in Hx.
    destruct Hx as [_ Hx]. exact Hx. }
  split; [vm_compute; reflexivity|]. split; [vm_compute; reflexivity|].
  split; [vm_compute; reflexivity|]. split; [vm_compute; reflexivity|].
  split; [exact Hc|]. rewrite Hc. discriminate.
Qed.

(** C4. For [0 < pick < size] (with [size < 32], the sizes for which
    [1 << size_] is defined): every call of [next] either accepts a new
    cursor, and then the value it leaves differs from the value it found
    in exactly two bits, one cleared and one set, the direction being kept;
    or it only turns the generator round and keeps the value.  So any two
    consecutive accepted values, in either phase or across a turn, are at
    Hamming distance 2. *)
Theorem gray_consecutive_swap (size pick : Z) :
  0 < pick < size -> size < 32 ->
  exists g, gray_generator size pick = Some g /\
    forall j,
      let s := run j g in
      let s' := run (S j) g in
      (scan s = Turn /\ s' = set_reversed s (negb (reversed_ s)) /\
       value s' = value s)
      \/
      (reversed_ s' = reversed_ s /\
       hamming (value s) (value s') = 2 /\
       one_cleared_one_set (value s) (value s')).
Proof.
  intros Hp Hs. eexists. split; [apply gray_generator_walk; lia|].
  set (n := Z.to_nat size). set (k := Z.to_nat pick).
  set (c := combinations_init size pick).
  assert (n <= 31)%nat as Hn by lia.
  assert (1 <= k)%nat as Hk1 by lia. assert (k <= n)%nat as Hk2 by lia.
  intros j. cbv zeta. rewrite run_succ.
  destruct (run_standing n k Hn Hk1 Hk2 c j) as [p [b [Hlt ->]]].
  destruct (next_standing_cases n k Hn Hk1 Hk2 c p b Hlt)
    as [[Hnext Hturn]|[q [Hq [Hnext Hswap]]]].
  - left. split; [exact Hturn|]. split; [exact Hnext|].
    rewrite Hnext. reflexivity.
  - right. split; [now rewrite Hnext|]. split; [exact Hswap|].
    assert (forall r, (r < binomial n k)%nat ->
              0 <= nth r (weight_walk n k) 0 < 2 ^ Z.of_nat n /\
              popcount (nth r (weight_walk n k) 0) = Z.of_nat k) as Hw.
    { intros r Hr. apply weight_walk_range, nth_In.
      now rewrite weight_walk_length. }
    rewrite Hnext in *. rewrite !value_standing in * by assumption.
    destruct (Hw p Hlt) as [Hr1 Hp1]. destruct (Hw q Hq) as [Hr2 Hp2].
    apply (swap1_one_cleared_one_set n); try assumption. congruence.
Qed.

Lemma gray_consecutive_swap_witness :
  exists g, gray_generator 4 3 = Some g /\
    forall j,
      let s := run j g in
      let s' := run (S j) g in
      (scan s = Turn /\ s' = set_reversed s (negb (reversed_ s)) /\
       value s' = value s)
      \/
      (reversed_ s' = reversed_ s /\
       hamming (value s) (value s') = 2 /\
       one_cleared_one_set (value s) (value s')).
Proof. apply (gray_consecutive_swap 4 3); lia. Defined.

(** C5. For [0 < pick < size < 32], with [m = C(size, pick)]: the first [m]
    observations of [value()] are made in the forward phase, the next [m] in
    the reverse phase, and these are the former in exactly the reverse order;
    after [2 m] calls the generator is back in the state the constructor
    left, so that the observed sequence repeats with period [2 m]. *)
Theorem gray_reverse_then_repeat (size pick : Z) :
  0 < pick < size -> size < 32 ->
  exists g, gray_generator size pick = Some g /\
    let m := binomial (Z.to_nat size) (Z.to_nat pick) in
    (forall j, (j < m)%nat -> reversed_ (run j g) = false) /\
    (forall j, (m <= j < 2 * m)%nat -> reversed_ (run j g) = true) /\
    observed g m m = rev (observed g 0 m) /\
    run (2 * m) g = g /\
    (forall j, run (2 * m + j) g = run j g) /\
    (forall j, value (run (2 * m + j) g) = value (run j g)).
Proof.
  intros Hp Hs.
  destruct (gray_forward_phase size pick) as [g [Hg [Hfw [Hrv [Ho1 [Ho2 Hper]]]]]];
    try lia.
  exists g. split; [exact Hg|]. cbv zeta. repeat split.
  - exact Hfw.
  - exact Hrv.
  - now rewrite Ho1, Ho2.
  - exact Hper.
  - intros j. now rewrite run_add, Hper.
  - intros j. now rewrite run_add, Hper.
Qed.

Lemma gray_reverse_then_repeat_witness :
  exists g, gray_generator 4 3 = Some g /\
    let m := binomial (Z.to_nat 4) (Z.to_nat 3) in
    (forall j, (j < m)%nat -> reversed_ (run j g) = false) /\
    (forall j, (m <= j < 2 * m)%nat -> reversed_ (run j g) = true) /\
    observed g m m = rev (observed g 0 m) /\
    run (2 * m) g = g /\
    (forall j, run (2 * m + j) g = run j g) /\
    (forall j, value (run (2 * m + j) g) = value (run j g)).
Proof. apply (gray_reverse_then_repeat 4 3); lia. Defined.

(** C10. A call of [next] whose loop reaches the boundary only flips the
    direction flag: the cursor and [value()] are what they were.  For
    [0 < pick < size < 32] and [m = C(size, pick)] this happens at call
    [m] (upper end) and at call [2 m] (lower end), so the reader of
    [value()] sees each end word twice in a row. *)
Theorem gray_turn_keeps_value (size pick : Z) :
  0 < pick < size -> size < 32 ->
  (forall s, scan s = Turn ->
     next s = set_reversed s (negb (reversed_ s)) /\
     index_ (next s) = index_ s /\ value (next s) = value s) /\
  exists g, gray_generator size pick = Some g /\
    let m := binomial (Z.to_nat size) (Z.to_nat pick) in
    let w := weight_walk (Z.to_nat size) (Z.to_nat pick) in
    (scan (run (m - 1) g) = Turn /\
     reversed_ (run (m - 1) g) = false /\ reversed_ (run m g) = true /\
     value (run (m - 1) g) = last w 0 /\ value (run m g) = last w 0) /\
    (scan (run (2 * m - 1) g) = Turn /\
     reversed_ (run (2 * m - 1) g) = true /\ reversed_ (run (2 * m) g) = false /\
     value (run (2 * m - 1) g) = hd 0 w /\ value (run (2 * m) g) = hd 0 w).
Proof.
  intros Hp Hs. split.
  { intros s Hturn. unfold next. rewrite Hturn. repeat split. }
  eexists. split; [apply gray_generator_walk; lia|].
  set (n := Z.to_nat size). set (k := Z.to_nat pick).
  set (c := combinations_init size pick).
  assert (n <= 31)%nat as Hn by lia.
  assert (1 <= k)%nat as Hk1 by lia. assert (k <= n)%nat as Hk2 by lia.
  pose proof (binomial_pos n k Hk2) as Hm. cbv zeta.
  set (m := binomial n k) in *.
  assert (forall p b, (p < m)%nat ->
            next (standing n k c p b) <> standing n k c p b ->
            index_ (next (standing n k c p b)) = index_ (standing n k c p b) ->
            scan (standing n k c p b) = Turn) as Hscan.
  { intros p b Hlt Hne Hidx. unfold next in *.
    destruct (scan (standing n k c p b)); [|reflexivity|congruence].
    exfalso. apply Hne. unfold set_index in *. cbn in *. now subst. }
  assert (last (weight_walk n k) 0 = nth (m - 1) (weight_walk n k) 0) as Hlast.
  { unfold m. rewrite <- (weight_walk_length n k).
    assert (weight_walk n k <> []) as Hne by now apply weight_walk_nonempty.
    destruct (exists_last Hne) as [l [x ->]].
    rewrite last_last, length_app, app_nth2 by (simpl; lia).
    cbn [length]. now replace (length l + 1 - 1 - length l)%nat with 0%nat by lia. }
  assert (hd 0 (weight_walk n k) = nth 0 (weight_walk n k) 0) as Hhd
    by (destruct (weight_walk n k); reflexivity).
  pose proof (run_turn n k Hn Hk1 Hk2 c) as Hturn.
  pose proof (run_forward n k Hn Hk1 Hk2 c (m - 1) ltac:(lia)) as Hfw.
  pose proof (run_reverse n k Hn Hk1 Hk2 c (m - 1) ltac:(lia)) as Hrv.
  pose proof (run_period n k Hn Hk1 Hk2 c) as Hper.
  fold m in Hturn, Hrv, Hper.
  replace (m + (m - 1))%nat with (2 * m - 1)%nat in Hrv by lia.
  replace (m - 1 - (m - 1))%nat with 0%nat in Hrv by lia.
  split.
  - rewrite Hfw, Hturn, !value_standing, Hlast by assumption.
    repeat split. apply Hscan; [lia| |].
    + rewrite <- Hfw, <- run_succ. replace (S (m - 1)) with m by lia.
      rewrite Hturn, Hfw. discriminate.
    + rewrite <- Hfw, <- run_succ. replace (S (m - 1)) with m by lia.
      rewrite Hturn, Hfw. reflexivity.
  - rewrite Hrv, Hper, !value_standing, Hhd by assumption.
    repeat split. apply Hscan; [lia| |].
    + rewrite <- Hrv, <- run_succ. replace (S (2 * m - 1)) with (2 * m)%nat by lia.
      rewrite Hper, Hrv. discriminate.
    + rewrite <- Hrv, <- run_succ. replace (S (2 * m - 1)) with (2 * m)%nat by lia.
      rewrite Hper, Hrv. reflexivity.
Qed.

Lemma gray_turn_keeps_value_witness :
  (forall s, scan s = Turn ->
     next s = set_reversed s (negb (reversed_ s)) /\
     index_ (next s) = index_ s /\ value (next s) = value s) /\
  exists g, gray_generator 4 3 = Some g /\
    let m := binomial (Z.to_nat 4) (Z.to_nat 3) in
    let w := weight_walk (Z.to_nat 4) (Z.to_nat 3) in
    (scan (run (m - 1) g) = Turn /\
     reversed_ (run (m - 1) g) = false /\ reversed_ (run m g) = true /\
     value (run (m - 1) g) = last w 0 /\ value (run m g) = last w 0) /\
    (scan (run (2 * m - 1) g) = Turn /\
     reversed_ (run (2 * m - 1) g) = true /\ reversed_ (run (2 * m) g) = false /\
     value (run (2 * m - 1) g) = hd 0 w /\ value (run (2 * m) g) = hd 0 w).
Proof. apply (gray_turn_keeps_value 4 3); lia. Defined.

(** ** The loops always end *)

Lemma wrap32_pred_step a d :
  wrap32 a = d -> 0 < d -> wrap32 (a - 1) = d - 1.
Proof.
  unfold wrap32. intros Ha Hd.
  pose proof (Z.mod_pos_bound a (2 ^ 32) ltac:(lia)) as Hr.
  rewrite <- Ha. rewrite Zminus_mod, (Z.mod_small 1) by lia.
  apply Z.mod_small. lia.
Qed.

Lemma wrap32_zero_eq a b :
  0 <= b < 2 ^ 32 -> wrap32 (b - a) = 0 -> wrap32 a = b.
Proof.
  unfold wrap32. intros Hb H. apply Z.mod_divide in H; [|lia].
  destruct H as [q Hq]. replace a with (b + (- q) * 2 ^ 32) by lia.
  rewrite Z.mod_add by lia. now apply Z.mod_small.
Qed.

Lemma scan_up_ends pick limit (fuel : nat) : forall from,
  0 <= limit < 2 ^ 32 ->
  Z.of_nat fuel = wrap32 (limit - from - 1) + 1 ->
  scan_up fuel limit pick from <> Exhausted.
Proof.
  induction fuel as [|fuel IH]; intros from Hl Hf.
  - pose proof (wrap32_range (limit - from - 1)). lia.
  - cbn [scan_up].
    destruct (Z.eqb_spec (wrap32 (from + 1)) limit) as [|Hne]; [discriminate|].
    destruct (count_bits (gray (wrap32 (from + 1))) =? pick); [discriminate|].
    apply IH; [exact Hl|].
    assert (0 < wrap32 (limit - from - 1)) as Hpos.
    { pose proof (wrap32_range (limit - from - 1)).
      destruct (Z.eq_dec (wrap32 (limit - from - 1)) 0) as [E|]; [|lia].
      exfalso. apply Hne. apply wrap32_zero_eq; [exact Hl|].
      now replace (limit - (from + 1)) with (limit - from - 1) by lia. }
    replace (wrap32 (limit - wrap32 (from + 1) - 1))
      with (wrap32 (limit - from - 1 - 1)).
    + rewrite (wrap32_pred_step _ _ eq_refl Hpos). lia.
    + unfold wrap32.
      rewrite (Zminus_mod (limit - (from + 1) mod 2 ^ 32)).
      rewrite (Zminus_mod limit), Z.mod_mod by lia.
      rewrite <- (Zminus_mod limit), <- Zminus_mod. f_equal. lia.
Qed.

Lemma scan_down_ends pick (fuel : nat) : forall from,
  Z.of_nat fuel = wrap32 (from - 1) + 1 ->
  scan_down fuel pick from <> Exhausted.
Proof.
  induction fuel as [|fuel IH]; intros from Hf.
  - pose proof (wrap32_range (from - 1)). lia.
  - cbn [scan_down].
    destruct (Z.eqb_spec (wrap32 (from - 1)) 0) as [|Hne]; [discriminate|].
    destruct (count_bits (gray (wrap32 (from - 1))) =? pick); [discriminate|].
    apply IH. pose proof (wrap32_range (from - 1)).
    rewrite (wrap32_pred_step (wrap32 (from - 1)) (wrap32 (from - 1))); [lia| |lia].
    apply wrap32_small, wrap32_range.
Qed.

(** [next] never runs out of fuel: the third case of its [match] is dead. *)
Lemma scan_ends g : scan g <> Exhausted.
Proof.
  unfold scan. destruct (reversed_ g).
  - apply scan_down_ends. unfold down_fuel.
    pose proof (wrap32_range (index_ g - 1)). lia.
  - apply scan_up_ends; [apply wrap32_range|]. unfold up_fuel.
    pose proof (wrap32_range (limit_of (size_ g) - index_ g - 1)). lia.
Qed.

(** [fact] is the factorial modulo [2^32]; more fuel changes nothing. *)
Lemma fact_loop_spec (n : nat) : forall (fuel : nat) f,
  (n <= fuel)%nat -> 0 <= f < 2 ^ 32 ->
  fact_loop fuel (Z.of_nat n) f = wrap32 (f * factorial n).
Proof.
  induction n as [|n IH]; intros fuel f Hf Hr.
  - replace (fact_loop fuel (Z.of_nat 0) f) with f
      by (destruct fuel; reflexivity).
    cbn [factorial]. now rewrite Z.mul_1_r, wrap32_small.
  - destruct fuel as [|fuel]; [lia|]. cbn [fact_loop].
    destruct (Z.ltb_spec 1 (Z.of_nat (S n))) as [Hlt|Hge].
    + replace (Z.of_nat (S n) - 1) with (Z.of_nat n) by lia.
      rewrite IH by (try apply wrap32_range; lia).
      rewrite factorial_succ. unfold wrap32.
      rewrite Z.mul_mod_idemp_l by lia. f_equal. ring.
    + assert (n = 0%nat) by lia. subst n. cbn [factorial].
      change (Z.of_nat 1 * 1) with 1.
      now rewrite Z.mul_1_r, wrap32_small.
Qed.

Lemma fact_spec (n : nat) : fact (Z.of_nat n) = wrap32 (factorial n).
Proof.
  unfold fact. rewrite fact_loop_spec, Z.mul_1_l; [reflexivity|lia|lia].
Qed.

Lemma factorial_divisible n : (34 <= n)%nat -> (2 ^ 32 | factorial n).
Proof.
  induction 1 as [|n Hn IH].
  - exists (factorial 34 / 2 ^ 32). vm_compute. reflexivity.
  - rewrite factorial_succ. now apply Z.divide_mul_r.
Qed.

Lemma fact_large x : 34 <= x -> fact x = 0.
Proof.
  intros Hx. rewrite <- (Z2Nat.id x) by lia. rewrite fact_spec.
  unfold wrap32. apply Z.mod_divide; [lia|].
  apply factorial_divisible. lia.
Qed.

(** [set_bit] is the index of the most significant set bit. *)
Lemma set_bit_loop_spec (fuel : nat) : forall x r,
  0 < x < 2 ^ Z.of_nat fuel -> 0 <= r -> r + Z.of_nat fuel < 2 ^ 32 ->
  set_bit_loop fuel x r = r + Z.log2 x.
Proof.
  induction fuel as [|fuel IH]; intros x r Hx Hr Hb; [simpl in Hx; lia|].
  cbn [set_bit_loop]. pose proof (shiftr1_range fuel x ltac:(lia)) as Hh.
  pose proof (Z.log2_shiftr x 1 ltac:(lia)) as Hlog.
  pose proof (Z.log2_nonneg x) as Hnn.
  destruct (Z.eqb_spec (Z.shiftr x 1) 0) as [E|Hne].
  - apply Z.shiftr_eq_0_iff in E. lia.
  - rewrite wrap32_small by lia. rewrite IH by lia.
    assert (0 < Z.log2 x); [|lia].
    destruct (Z.eq_dec (Z.log2 x) 0) as [E|]; [|lia].
    exfalso. apply Hne. apply Z.shiftr_eq_0; lia.
Qed.

Lemma set_bit_log2 x : 0 < x < 2 ^ 32 -> set_bit x = Z.log2 x.
Proof.
  intros Hx. unfold set_bit. rewrite set_bit_loop_spec by (simpl; lia).
  assert (Z.log2 x < 32) by (apply Z.log2_lt_pow2; lia).
  pose proof (Z.log2_nonneg x). unfold int_of_u32.
  destruct (Z.ltb_spec (0 + Z.log2 x) (2 ^ 31)); lia.
Qed.

(** ** size = 4, pick = 3 *)

(** C8, as the specification has it, fails: the second value of the
    forward phase is [0b1101], not [0b1011]. *)
Lemma gray_4_3_order_differs :
  option_map (fun g => observed g 0 4) (gray_generator 4 3)
  <> Some [7; 11; 13; 14].
Proof. vm_compute. discriminate. Qed.

(** C8, amended.  For size 4 and pick 3 the forward phase shows, in this
    order, [0b0111], [0b1101], [0b1110], [0b1011] (popcount 3 each, Hamming
    distance 2 between neighbours); the reverse phase then accepts [0b1110],
    [0b1101], [0b0111], the call before it and the call after it being the
    two turns; after these 8 calls the generator is in its first state
    again. *)
Theorem gray_4_3_order :
  exists g, gray_generator 4 3 = Some g /\
    observed g 0 4 = [7; 13; 14; 11] /\
    map (fun j => reversed_ (run j g)) (seq 0 4) = [false; false; false; false] /\
    observed g 4 4 = [11; 14; 13; 7] /\
    map (fun j => reversed_ (run j g)) (seq 4 4) = [true; true; true; true] /\
    run 8 g = g /\
    Forall (fun x => popcount x = 3) [7; 13; 14; 11] /\
    chain swap1 [7; 13; 14; 11].
Proof.
  eexists. split; [vm_compute; reflexivity|].
  repeat split; try (vm_compute; reflexivity).
  repeat constructor.
Qed.

(** ** Parameters outside [1 <= pick <= size] *)

Lemma filter_none (f : Z -> bool) (l : list Z) :
  (forall x, In x l -> f x = false) -> filter f l = [].
Proof.
  induction l as [|x t IH]; intros H; [reflexivity|].
  cbn [filter]. rewrite (H x) by now left.
  apply IH. intros y Hy. apply H. now right.
Qed.

Lemma combinations_zero_table :
  forallb (fun n => combinations_init (Z.of_nat n) 0 =? 1) (seq 0 32) = true.
Proof. vm_compute. reflexivity. Qed.

Lemma combinations_init_zero (n : nat) :
  (n <= 31)%nat -> combinations_init (Z.of_nat n) 0 = 1.
Proof.
  intros Hn. apply Z.eqb_eq.
  apply (forallb_seq _ 32 n combinations_zero_table). lia.
Qed.

(** No cursor between 1 and [2^n - 1] has a Gray code of weight 0. *)
Lemma accepted_zero (n : nat) : (n <= 31)%nat ->
  filter (accepts 0) (map Z.of_nat (seq 1 (2 ^ n - 1))) = [].
Proof.
  intros Hn. apply filter_none. intros x Hx.
  apply in_map_iff in Hx. destruct Hx as [i [<- Hi]]. apply in_seq in Hi.
  destruct (limit_of_nat n Hn) as [_ Hlt]. pose proof (pow2_nat_Z n) as Hpow.
  pose proof (pow2_nat_ge1 n) as Hge.
  assert (0 <= Z.of_nat i < 2 ^ Z.of_nat n) as Hi' by lia.
  pose proof (gray_range n (Z.of_nat i) Hi') as Hr.
  unfold accepts. rewrite count_bits_popcount by lia.
  apply Z.eqb_neq. intros E.
  apply (proj1 (popcount_zero_iff (gray (Z.of_nat i)) ltac:(lia))) in E.
  apply (proj1 (gray_zero_iff (Z.of_nat i) ltac:(lia))) in E. lia.
Qed.

(** C9, as the specification has it, fails: with size 4 and pick 0 the
    constructor returns a generator, whose value is 0. *)
Lemma gray_generator_takes_pick_zero :
  gray_generator 4 0 = Some (mk_gray_generator 4 0 true 0 1) /\
  option_map value (gray_generator 4 0) = Some 0.
Proof. split; vm_compute; reflexivity. Qed.

(** C9, amended.  The constructor checks nothing.  With [pick = 0] and
    [0 < size < 32] it returns normally: no cursor is accepted, the first
    call of [next] only sets the direction flag, [value()] is 0 and
    [combinations()] is 1.  With [size < pick] (an [int]) no generator is
    returned, for another reason than a check: [fact(size - pick)] is taken
    of a wrapped-around argument and is 0, so that the initialiser of
    [combinations_] divides by zero. *)
Theorem gray_generator_unchecked (size pick : Z) :
  0 < size < 32 -> size < pick < 2 ^ 31 ->
  gray_generator size 0 = Some (mk_gray_generator size 0 true 0 1) /\
  option_map value (gray_generator size 0) = Some 0 /\
  wrap32 (fact (wrap32 pick) * fact (wrap32 (size - pick))) = 0 /\
  gray_generator size pick = None.
Proof.
  intros Hs Hp.
  assert (gray_generator size 0 = Some (mk_gray_generator size 0 true 0 1))
    as Hzero.
  { pose (n := Z.to_nat size). assert (n <= 31)%nat as Hn by lia.
    assert (size = Z.of_nat n) as Hsize by lia. clearbody n.
    rewrite Hsize.
    unfold gray_generator. change (Z.of_nat n - 0) with (Z.of_nat n - Z.of_nat 0).
    change (wrap32 0) with (wrap32 (Z.of_nat 0)).
    rewrite divisor_nonzero by lia. f_equal.
    change (wrap32 (Z.of_nat 0)) with (wrap32 0).
    change (Z.of_nat n - Z.of_nat 0) with (Z.of_nat n - 0).
    fold (combinations_init (Z.of_nat n) 0).
    rewrite combinations_init_zero by assumption.
    destruct (limit_of_nat n Hn) as [Hlim Hlt].
    pose proof (pow2_nat_Z n) as Hpow. pose proof (pow2_nat_ge1 n) as Hge.
    assert (scan_up (up_fuel (2 ^ Z.of_nat n) (Z.of_nat 0))
              (2 ^ Z.of_nat n) 0 (Z.of_nat 0) = Turn) as Hscan.
    { rewrite (up_fuel_enough 0 (2 ^ n - 1)) by lia.
      rewrite (scan_up_spec _ (2 ^ n - 1)) by lia.
      now rewrite accepted_zero. }
    unfold next, scan. cbn [reversed_ index_ size_ pick_].
    rewrite Hlim. change (wrap32 0) with 0.
    change (Z.of_nat 0) with 0 in Hscan. rewrite Hscan. reflexivity. }
  assert (wrap32 (fact (wrap32 pick) * fact (wrap32 (size - pick))) = 0)
    as Hdiv.
  { assert (2 ^ 32 = 2 * 2 ^ 31) as Hpow by reflexivity.
    assert (0 < 2 ^ 31) as Hpos by reflexivity.
    assert (34 < 2 ^ 31) as Hbig by reflexivity.
    assert (wrap32 (size - pick) = size - pick + 2 ^ 32) as ->.
    { unfold wrap32. symmetry. apply Z.mod_unique with (q := -1); lia. }
    rewrite (fact_large (size - pick + 2 ^ 32)) by lia. now rewrite Z.mul_0_r. }
  repeat split.
  - exact Hzero.
  - now rewrite Hzero.
  - exact Hdiv.
  - unfold gray_generator. now rewrite Hdiv.
Qed.

Lemma gray_generator_unchecked_witness :
  gray_generator 4 0 = Some (mk_gray_generator 4 0 true 0 1) /\
  option_map value (gray_generator 4 0) = Some 0 /\
  wrap32 (fact (wrap32 5) * fact (wrap32 (4 - 5))) = 0 /\
  gray_generator 4 5 = None.
Proof. apply (gray_generator_unchecked 4 5); lia. Defined.

(** ** The joiner *)

Lemma gray_join_start : gray_join = Some (mk_gray_join small0 large0 0).
Proof. vm_compute. reflexivity. Qed.

Lemma next_keeps_parameters g :
  size_ (next g) = size_ g /\ pick_ (next g) = pick_ g /\
  combinations_ (next g) = combinations_ g.
Proof. unfold next. destruct (scan g); repeat split. Qed.

Lemma run_keeps_parameters k : forall g,
  size_ (run k g) = size_ g /\ combinations_ (run k g) = combinations_ g.
Proof.
  induction k as [|k IH]; intros g; [now split|].
  cbn [run]. destruct (IH (next g)) as [-> ->].
  destruct (next_keeps_parameters g) as [-> [_ ->]]. now split.
Qed.

Lemma join_run_succ k : forall j,
  join_run (S k) j = snd (join_next (join_run k j)).
Proof.
  induction k as [|k IH]; intros j; [reflexivity|].
  change (join_run (S (S k)) j) with (join_run (S k) (snd (join_next j))).
  now rewrite IH.
Qed.

Lemma div35_succ n :
  (S n / 35 = if (S n mod 35 =? 0) then S (n / 35) else n / 35)%nat.
Proof.
  pose proof (Nat.div_mod_eq n 35) as H1.
  pose proof (Nat.div_mod_eq (S n) 35) as H2.
  pose proof (Nat.mod_upper_bound n 35 ltac:(lia)) as H3.
  pose proof (Nat.mod_upper_bound (S n) 35 ltac:(lia)) as H4.
  destruct (Nat.eqb_spec (S n mod 35) 0); lia.
Qed.

Lemma wrap_int_small z : 0 <= z < 2 ^ 31 -> wrap_int z = z.
Proof.
  intros Hz. unfold wrap_int, int_of_u32.
  assert (2 ^ 32 = 2 * 2 ^ 31) as Hpow by reflexivity.
  rewrite wrap32_small by lia.
  destruct (Z.ltb_spec z (2 ^ 31)); lia.
Qed.

(** As long as [count_] has not overflowed: after [n] calls the counter is
    [n], the large generator has advanced [n] times and the small one
    [n / 35] times. *)
Lemma join_run_state (n : nat) :
  Z.of_nat n < 2 ^ 31 ->
  join_run n (mk_gray_join small0 large0 0) =
  mk_gray_join (run (n / 35) small0) (run n large0) (Z.of_nat n).
Proof.
  induction n as [|n IH]; intros Hn; [reflexivity|].
  rewrite join_run_succ, IH by lia. unfold join_next.
  cbn [snd small_ large_ count_].
  replace (Z.of_nat n + 1) with (Z.of_nat (S n)) by lia.
  rewrite wrap_int_small by lia.
  destruct (run_keeps_parameters n large0) as [_ Hc].
  unfold combinations. rewrite Hc. cbn [large0 combinations_].
  rewrite Z.rem_mod_nonneg by lia.
  rewrite div35_succ.
  replace (Z.of_nat (S n) mod 35) with (Z.of_nat (S n mod 35))
    by (rewrite Nat2Z.inj_mod; reflexivity).
  destruct (Z.ltb_spec 0 (Z.of_nat (S n))) as [_|]; [|lia]. cbn [andb].
  destruct (Nat.eqb_spec (S n mod 35) 0) as [E|E];
    destruct (Z.eqb_spec (Z.of_nat (S n mod 35)) 0); try lia;
    rewrite ?run_succ; reflexivity.
Qed.

Lemma join_output_joined (n : nat) :
  Z.of_nat n < 2 ^ 31 ->
  join_output n (mk_gray_join small0 large0 0) = joined n.
Proof.
  intros Hn. unfold join_output. rewrite join_run_state by assumption.
  unfold join_next, joined. cbn [fst small_ large_].
  destruct (run_keeps_parameters n large0) as [Hs _].
  unfold size. now rewrite Hs.
Qed.

(** The joined mask has period 280 = 8 * 35 = 4 * 70. *)
Lemma run_cycle (p : nat) g : run p g = g -> forall q r, run (q * p + r) g = run r g.
Proof.
  intros Hp q. induction q as [|q IH]; intros r; [reflexivity|].
  cbn [Nat.mul]. rewrite <- Nat.add_assoc, run_add, Hp. apply IH.
Qed.

Lemma small0_cycle : run 8 small0 = small0.
Proof. vm_compute. reflexivity. Qed.

Lemma large0_cycle : run 70 large0 = large0.
Proof. vm_compute. reflexivity. Qed.

Lemma joined_cycle q r : joined (q * 280 + r) = joined r.
Proof.
  unfold joined.
  replace ((q * 280 + r) / 35)%nat with (q * 8 + r / 35)%nat.
  2:{ replace (q * 280 + r)%nat with (r + (q * 8) * 35)%nat by lia.
      rewrite Nat.div_add by lia. lia. }
  rewrite (run_cycle 8 small0 small0_cycle).
  replace (q * 280 + r)%nat with ((q * 4) * 70 + r)%nat by lia.
  now rewrite (run_cycle 70 large0 large0_cycle).
Qed.

Lemma joined_table : forallb joined_row (seq 0 280) = true.
Proof. vm_compute. reflexivity. Qed.

Lemma joined_steps n :
  popcount (joined n) = 7 /\
  hamming (joined n) (joined (S n)) = if (S n mod 140 =? 0)%nat then 0 else 2.
Proof.
  pose proof (Nat.div_mod_eq n 280) as Hn.
  pose proof (Nat.mod_upper_bound n 280 ltac:(lia)) as Hr.
  set (q := (n / 280)%nat) in *. set (r := (n mod 280)%nat) in *.
  assert (joined n = joined r) as ->
    by (rewrite Hn, (Nat.mul_comm 280 q); apply joined_cycle).
  assert (joined (S n) = joined (S r)) as ->.
  { replace (S n) with (q * 280 + S r)%nat by lia. apply joined_cycle. }
  assert ((S n mod 140 =? 0) = (S r mod 140 =? 0))%nat as ->.
  { replace (S n) with (S r + (2 * q) * 140)%nat by lia.
    now rewrite Nat.Div0.mod_add. }
  pose proof (forallb_seq _ 280 r joined_table Hr) as H.
  unfold joined_row in H.
  apply andb_true_iff in H. destruct H as [H1 H2].
  split; now apply Z.eqb_eq.
Qed.

(** C7. Call number [n + 1] of [gray_join_t::next] (while [count_] has not
    overflowed) finds the counter at [n], the large generator advanced [n]
    times and the small one [n / 35] times, [35] being
    [large_.combinations()]; it returns
    [(small_.value() << large_.size()) | large_.value()] of these states,
    increments the counter, advances the large generator, and advances the
    small one exactly when the new count is a multiple of 35. *)
Theorem join_next_calls (n : nat) :
  Z.of_nat n < 2 ^ 31 - 1 ->
  exists j0, gray_join = Some j0 /\
    let j := join_run n j0 in
    let ret := fst (join_next j) in
    let j' := snd (join_next j) in
    count_ j = Z.of_nat n /\
    large_ j = run n (large_ j0) /\
    small_ j = run (n / 35) (small_ j0) /\
    combinations (large_ j) = 35 /\
    size (large_ j) = 7 /\
    ret = Z.lor (wrap32 (Z.shiftl (value (small_ j)) (size (large_ j))))
                (value (large_ j)) /\
    count_ j' = count_ j + 1 /\
    large_ j' = next (large_ j) /\
    small_ j' = (if (0 <? count_ j') && (count_ j' mod 35 =? 0)
                 then next (small_ j) else small_ j) /\
    small_ j' = run (S n / 35) (small_ j0).
Proof.
  intros Hn. eexists. split; [apply gray_join_start|]. cbv zeta.
  pose proof (join_run_state (S n) ltac:(lia)) as Hnext.
  rewrite join_run_succ in Hnext.
  rewrite join_run_state in * by lia.
  destruct (run_keeps_parameters n large0) as [Hs Hc].
  rewrite Hnext. cbn [small_ large_ count_].
  unfold combinations, size. rewrite Hs, Hc.
  repeat split; try lia.
  - unfold join_next. cbn [fst small_ large_]. unfold size. now rewrite Hs.
  - now rewrite run_succ.
  - rewrite div35_succ.
    replace (Z.of_nat (S n) mod 35) with (Z.of_nat (S n mod 35))
      by (rewrite Nat2Z.inj_mod; reflexivity).
    destruct (Z.ltb_spec 0 (Z.of_nat (S n))) as [_|]; [|lia]. cbn [andb].
    destruct (Nat.eqb_spec (S n mod 35) 0) as [E|E];
      destruct (Z.eqb_spec (Z.of_nat (S n mod 35)) 0); try lia;
      rewrite ?run_succ; reflexivity.
Qed.

Lemma join_next_calls_witness :
  exists j0, gray_join = Some j0 /\
    let j := join_run 34 j0 in
    let ret := fst (join_next j) in
    let j' := snd (join_next j) in
    count_ j = Z.of_nat 34 /\
    large_ j = run 34 (large_ j0) /\
    small_ j = run (34 / 35) (small_ j0) /\
    combinations (large_ j) = 35 /\
    size (large_ j) = 7 /\
    ret = Z.lor (wrap32 (Z.shiftl (value (small_ j)) (size (large_ j))))
                (value (large_ j)) /\
    count_ j' = count_ j + 1 /\
    large_ j' = next (large_ j) /\
    small_ j' = (if (0 <? count_ j') && (count_ j' mod 35 =? 0)
                 then next (small_ j) else small_ j) /\
    small_ j' = run (35 / 35) (small_ j0).
Proof. apply (join_next_calls 34). vm_compute. reflexivity. Defined.

(** C1, as the specification has it, fails: outputs number 140 and 141 are
    the same mask (both generators turn round in call 140), so that their
    symmetric difference has no bit set. *)
Lemma join_outputs_140_141_equal :
  exists j0, gray_join = Some j0 /\
    join_output 139 j0 = join_output 140 j0 /\
    hamming (join_output 139 j0) (join_output 140 j0) <> 2.
Proof.
  eexists. split; [apply gray_join_start|].
  split; vm_compute; [reflexivity|discriminate].
Qed.

(** C1, amended.  Every output of [gray_join_t::next] has popcount 7, and
    two consecutive outputs differ in exactly two bits, except that every
    140th output is returned once more by the following call (symmetric
    difference empty).  Outputs are numbered from 1; [join_output n] is
    output number [n + 1]. *)
Theorem join_outputs_swap (n : nat) :
  Z.of_nat n < 2 ^ 31 - 1 ->
  exists j0, gray_join = Some j0 /\
    popcount (join_output n j0) = 7 /\
    hamming (join_output n j0) (join_output (S n) j0) =
      if (S n mod 140 =? 0)%nat then 0 else 2.
Proof.
  intros Hn. eexists. split; [apply gray_join_start|].
  rewrite !join_output_joined by lia. apply joined_steps.
Qed.

Lemma join_outputs_swap_witness :
  exists j0, gray_join = Some j0 /\
    popcount (join_output 35 j0) = 7 /\
    hamming (join_output 35 j0) (join_output 36 j0) =
      if (36 mod 140 =? 0)%nat then 0 else 2.
Proof. apply (join_outputs_swap 35). vm_compute. reflexivity. Defined.

(** ** The index maps of the driver *)

Lemma forallb_range (f : Z -> bool) (N : nat) :
  forallb f (map Z.of_nat (seq 0 N)) = true ->
  forall g, 0 <= g < Z.of_nat N -> f g = true.
Proof.
  intros H g Hg. rewrite forallb_forall in H. apply H.
  apply in_map_iff. exists (Z.to_nat g). split; [lia|].
  apply in_seq. lia.
Qed.

Lemma distinct_NoDup l : distinct l = true -> NoDup l.
Proof.
  induction l as [|x t IH]; intros H; [constructor|].
  cbn [distinct] in H. apply andb_true_iff in H. destruct H as [Hx Ht].
  constructor; [|now apply IH].
  intros Hin. apply negb_true_iff in Hx.
  assert (existsb (Z.eqb x) t = true); [|congruence].
  apply existsb_exists. exists x. split; [exact Hin|apply Z.eqb_refl].
Qed.

Lemma maps_ok_consistent d : maps_ok d = true -> maps_consistent d.
Proof.
  unfold maps_ok, maps_consistent. intros H.
  apply andb_true_iff in H; destruct H as [H Hdist].
  apply andb_true_iff in H; destruct H as [H Hslots].
  apply andb_true_iff in H; destruct H as [H Hitems].
  apply andb_true_iff in H; destruct H as [H Hlt].
  apply andb_true_iff in H; destruct H as [H Hpop].
  apply andb_true_iff in H; destruct H as [Hlen1 Hlen2].
  repeat split.
  - now apply Nat.eqb_eq.
  - now apply Nat.eqb_eq.
  - now apply Z.eqb_eq.
  - now apply Z.ltb_lt.
  - intros g Hg.
    pose proof (forallb_range _ 11 Hitems g Hg) as Hi.
    unfold item_ok in Hi.
    destruct (load (main_to_comb d) g) as [k|]; [|discriminate].
    destruct (Z.testbit (selected d) g).
    + apply andb_true_iff in Hi. destruct Hi as [Hi Hl].
      apply andb_true_iff in Hi. destruct Hi as [Hk0 Hk6].
      exists k. split; [reflexivity|]. split; [lia|].
      destruct (load (comb_to_main d) k) as [g'|]; [|discriminate].
      apply Z.eqb_eq in Hl. now subst.
    + apply Z.eqb_eq in Hi. now subst.
  - intros k Hk.
    pose proof (forallb_range _ 7 Hslots k ltac:(lia)) as Hs.
    unfold slot_ok in Hs.
    destruct (load (comb_to_main d) k) as [g|]; [|discriminate].
    apply andb_true_iff in Hs. destruct Hs as [Hs Hl].
    apply andb_true_iff in Hs. destruct Hs as [Hs Hsel].
    apply andb_true_iff in Hs. destruct Hs as [Hg0 Hg11].
    exists g. split; [reflexivity|]. split; [lia|]. split; [exact Hsel|].
    destruct (load (main_to_comb d) g) as [k'|]; [|discriminate].
    apply Z.eqb_eq in Hl. now subst.
  - now apply distinct_NoDup.
Qed.

(** The whole run of the driver, whatever the two arrays hold at first. *)
Lemma sherman_table a0 a1 a2 a3 a4 a5 a6 a7 a8 a9 a10 b0 b1 b2 b3 b4 b5 b6 :
  forallb (maps_ok_after [a0; a1; a2; a3; a4; a5; a6; a7; a8; a9; a10]
                         [b0; b1; b2; b3; b4; b5; b6]) (seq 0 140) = true.
Proof. vm_compute. reflexivity. Qed.

(** C6. After the initialisation (n = 0) and after each of the 139
    iterations of the step loop, the arrays [main_to_comb] and
    [comb_to_main] are defined (no access went out of range) and mutually
    inverse on the current selection: a selected item has a slot in
    [0, 6] that maps back to it, an unselected item has [-1], every slot
    holds a selected item, the seven slots hold distinct items, and seven
    items are selected. *)
Theorem sherman_maps_consistent (n : nat) (m2c0 c2m0 : list Z) :
  (n <= 139)%nat -> length m2c0 = 11%nat -> length c2m0 = 7%nat ->
  exists d, sherman_after n m2c0 c2m0 = Some d /\ maps_consistent d.
Proof.
  intros Hn H11 H7.
  destruct m2c0 as [|a0 [|a1 [|a2 [|a3 [|a4 [|a5 [|a6 [|a7 [|a8 [|a9 [|a10
    [|]]]]]]]]]]]]; try discriminate H11.
  destruct c2m0 as [|b0 [|b1 [|b2 [|b3 [|b4 [|b5 [|b6 [|]]]]]]]];
    try discriminate H7.
  pose proof (sherman_table a0 a1 a2 a3 a4 a5 a6 a7 a8 a9 a10
                b0 b1 b2 b3 b4 b5 b6) as H.
  apply (forallb_seq _ 140 n) in H; [|lia].
  unfold maps_ok_after in H.
  destruct (sherman_after n _ _) as [d|]; [|discriminate].
  exists d. split; [reflexivity|]. now apply maps_ok_consistent.
Qed.

Lemma sherman_maps_consistent_witness :
  exists d, sherman_after 139 (repeat 0 11) (repeat 0 7) = Some d /\
            maps_consistent d.
Proof.
  apply (sherman_maps_consistent 139 (repeat 0 11) (repeat 0 7));
    [lia | reflexivity | reflexivity].
Defined.

(** ** The inverse updates, over a field *)

Module MatrixTheory.
#[local] Set Warnings "-notation-overridden,-ambiguous-paths,-rewrite-rw".
Import mathcomp.boot.boot mathcomp.algebra.algebra.
Import GRing.Theory.
#[local] Set Warnings "notation-overridden,ambiguous-paths".
Import Matrix.
Local Open Scope ring_scope.

Section Updates.
Variable F : fieldType.
Variables N n : nat.
Implicit Types (A inv : 'M[F]_n) (u : 'cV[F]_n) (v : 'rV[F]_n).

Lemma update_scaled inv u v :
  sherman_morrison_update_inverse inv u v =
  inv - (denominator inv u v)^-1 *: ((inv *m u) *m (v *m inv)).
Proof.
  rewrite /sherman_morrison_update_inverse; congr (_ - _).
  by apply/matrixP => i j; rewrite !mxE mulrC.
Qed.

(** A product [u * (v * inv * u) * (v * inv)] has the scalar in the
    middle. *)
Lemma middle_scalar u (s : 'M[F]_1) (w : 'rV[F]_n) :
  u *m s *m w = s ord0 ord0 *: (u *m w).
Proof. by rewrite {1}[s]mx11_scalar mul_mx_scalar -scalemxAl. Qed.

Lemma update_right A inv u v :
  A *m inv = 1%:M -> denominator inv u v != 0 ->
  (A + u *m v) *m sherman_morrison_update_inverse inv u v = 1%:M.
Proof.
  move=> AI dn0; rewrite update_scaled.
  set d := denominator inv u v in dn0 *.
  set C := u *m (v *m inv).
  have E1 : (A + u *m v) *m inv = 1%:M + C.
    by rewrite mulmxDl AI /C mulmxA.
  have E2 : (A + u *m v) *m (inv *m u *m (v *m inv)) = d *: C.
    rewrite mulmxDl !mulmxA AI mul1mx.
    rewrite -[u *m v *m inv *m u *m v *m inv]mulmxA.
    rewrite -[u *m v *m inv *m u]mulmxA -[u *m v *m inv]mulmxA.
    rewrite -[u *m v *m (inv *m u)]mulmxA [v *m (inv *m u)]mulmxA.
    by rewrite middle_scalar -/C /d /denominator scalerDl scale1r.
  rewrite mulmxBr -scalemxAr E1 E2 scalerA mulVf // scale1r.
  by rewrite addrK.
Qed.

Lemma update_inverse A inv u v :
  inv *m A = 1%:M -> denominator inv u v != 0 ->
  let inv' := sherman_morrison_update_inverse inv u v in
  [/\ inv' *m (A + u *m v) = 1%:M, (A + u *m v) *m inv' = 1%:M,
      A + u *m v \in unitmx & inv' = invmx (A + u *m v)].
Proof.
  move=> IA dn0 inv'.
  have R : (A + u *m v) *m inv' = 1%:M.
    by apply: update_right => //; apply: mulmx1C.
  have [U _] := mulmx1_unit R.
  split=> //; first exact: mulmx1C.
  by rewrite -[LHS]mul1mx -(mulVmx U) -mulmxA R mulmx1.
Qed.

(** Replacing a row or a column is a rank-one change. *)
Lemma set_row_update (c : 'M[F]_n) (k : 'I_n) (r : 'rV[F]_n) :
  set_row c k r = c + u_row k *m v_row c k r.
Proof.
  apply/matrixP => i j; rewrite !mxE big_ord1 !mxE eqxx andbT.
  by case: eqP => [->|_]; rewrite ?mul1r ?mul0r ?addr0 // addrC subrK.
Qed.

Lemma set_col_update (c : 'M[F]_n) (k : 'I_n) (w : 'cV[F]_n) :
  set_col c k w = c + u_col c k w *m v_col k.
Proof.
  apply/matrixP => i j; rewrite !mxE big_ord1 !mxE eqxx /=.
  by case: eqP => [->|_]; rewrite ?mulr1 ?mulr0 ?addr0 // addrC subrK.
Qed.

(** The matrix the step leaves is the one the new index map selects. *)
Lemma update_step_extract (main : 'M[F]_N) (added : 'I_N)
    (comb_to_main : 'I_n -> 'I_N) (k : 'I_n) (combination inverse : 'M[F]_n) :
  comb_to_main k = added ->
  (forall i j, i != k -> j != k ->
     combination i j = main (comb_to_main i) (comb_to_main j)) ->
  (update_step main added comb_to_main k combination inverse).1
  = extract main comb_to_main.
Proof.
  move=> Hk Hold; apply/matrixP => i j; rewrite /update_step /= !mxE.
  case: (altP (j =P k)) => [->|Hj]; first by rewrite Hk.
  case: (altP (i =P k)) => [->|Hi]; first by rewrite Hk.
  exact: Hold.
Qed.

(** C2. Over a field: if [inv] is the inverse of [A] and [1 + v inv u] is
    not zero, [sherman_morrison_update_inverse inv u v] is the inverse of
    [A + u v]; and so, if [inverse] is the inverse of [combination] and the
    two denominators met are not zero, the step of the driver (row
    replacement, then column replacement at the same slot) leaves in
    [inverse] the inverse of the matrix it leaves in [combination], which is
    [combination] with row and column [k] replaced and, when [combination]
    was the selection of the old map, the selection of the new one. *)
Theorem sherman_morrison_inverse A inv u v
    (main : 'M[F]_N) (added : 'I_N) (comb_to_main : 'I_n -> 'I_N)
    (k : 'I_n) (combination inverse : 'M[F]_n) :
  inv *m A = 1%:M -> denominator inv u v != 0 ->
  inverse *m combination = 1%:M ->
  row_denominator main added comb_to_main k combination inverse != 0 ->
  col_denominator main added comb_to_main k combination inverse != 0 ->
  let inv' := sherman_morrison_update_inverse inv u v in
  let step := update_step main added comb_to_main k combination inverse in
  (inv' *m (A + u *m v) = 1%:M /\ (A + u *m v) *m inv' = 1%:M /\
   A + u *m v \in unitmx /\ inv' = invmx (A + u *m v)) /\
  (step.1 = set_col (set_row combination k (row_map main added comb_to_main))
              k (col_map main added comb_to_main) /\
   step.2 *m step.1 = 1%:M /\ step.1 *m step.2 = 1%:M /\
   step.1 \in unitmx /\ step.2 = invmx step.1) /\
  (comb_to_main k = added ->
   (forall i j, i != k -> j != k ->
      combination i j = main (comb_to_main i) (comb_to_main j)) ->
   step.1 = extract main comb_to_main).
Proof.
  move=> IA dn0 IC rn0 cn0 inv' step.
  have [H1 H2 H3 H4] := update_inverse _ _ _ _ IA dn0.
  have [R1 _ _ _] := update_inverse _ _ _ _ IC rn0.
  rewrite -set_row_update in R1.
  have [C1 C2 C3 C4] := update_inverse _ _ _ _ R1 cn0.
  rewrite -set_col_update in C1 C2 C3 C4.
  by do !split=> //; exact: update_step_extract.
Qed.

End Updates.

(** The two elements of ['I_2]. *)
Lemma ord2_cases (P : 'I_2 -> Prop) : P ord0 -> P ord_max -> forall i, P i.
Proof.
  move=> P0 P1 i; case: (unliftP ord0 i) => [i'|] ->; last exact: P0.
  have -> : lift ord0 i' = ord_max by apply/val_inj; rewrite [i']ord1.
  exact: P1.
Qed.

Ltac entries :=
  do ?[rewrite !mxE | rewrite big_ord_recl | rewrite big_ord0
      | rewrite /denominator];
  by apply/eqP.

(** An instance over the rationals, with three items of which two are
    selected.  [main] is

      1 0 1
      0 1 0
      1 0 2

    the items 0 and 1 are selected, and item 2 takes the slot (slot 1) of
    item 1.  The combination matrix goes from the identity through
    [[1 0] [1 2]] (row replaced, denominator 2) to [[1 1] [1 2]] (column
    replaced, denominator 1/2), and the cached inverse from the identity
    through [[1 0] [-1/2 1/2]] to [[2 -1] [-1 1]]. *)
Lemma sherman_morrison_inverse_witness :
  let F := rat in
  let k : 'I_2 := ord_max in
  let added : 'I_3 := ord_max in
  let comb_to_main : 'I_2 -> 'I_3 := fun i => if i == k then added else ord0 in
  let main : 'M[F]_3 :=
    \matrix_(i, j)
      (nth 0 (nth [::] [:: [:: 1; 0; 1]; [:: 0; 1; 0]; [:: 1; 0; 2]] i) j)%N%:R in
  let combination : 'M[F]_2 := 1%:M in
  let inverse : 'M[F]_2 := 1%:M in
  let A : 'M[F]_2 := combination in
  let inv : 'M[F]_2 := inverse in
  let u : 'cV[F]_2 := u_row k in
  let v : 'rV[F]_2 := v_row combination k (row_map main added comb_to_main) in
  let inv' := sherman_morrison_update_inverse inv u v in
  let step := update_step main added comb_to_main k combination inverse in
  ((inv' *m (A + u *m v) = 1%:M /\ (A + u *m v) *m inv' = 1%:M /\
    A + u *m v \in unitmx /\ inv' = invmx (A + u *m v)) /\
   (step.1 = set_col (set_row combination k (row_map main added comb_to_main))
               k (col_map main added comb_to_main) /\
    step.2 *m step.1 = 1%:M /\ step.1 *m step.2 = 1%:M /\
    step.1 \in unitmx /\ step.2 = invmx step.1) /\
   (comb_to_main k = added ->
    (forall i j, i != k -> j != k ->
       combination i j = main (comb_to_main i) (comb_to_main j)) ->
    step.1 = extract main comb_to_main)) /\
  (denominator inv u v = 2%:R /\
   row_denominator main added comb_to_main k combination inverse = 2%:R /\
   col_denominator main added comb_to_main k combination inverse = 2%:R^-1) /\
  (inv' ord0 ord0 = 1 /\ inv' ord0 k = 0 /\
   inv' k ord0 = - 2%:R^-1 /\ inv' k k = 2%:R^-1) /\
  (step.1 ord0 ord0 = 1 /\ step.1 ord0 k = 1 /\
   step.1 k ord0 = 1 /\ step.1 k k = 2%:R) /\
  (step.2 ord0 ord0 = 2%:R /\ step.2 ord0 k = - 1 /\
   step.2 k ord0 = - 1 /\ step.2 k k = 1).
Proof.
  move=> F k added comb_to_main main combination inverse A inv u v inv' step.
  have rd : row_denominator main added comb_to_main k combination inverse
            = 2%:R.
    by rewrite /row_denominator; entries.
  have cd : col_denominator main added comb_to_main k combination inverse
            = 2%:R^-1.
    by rewrite /col_denominator /sherman_morrison_update_inverse; entries.
  have IA : inv *m A = 1%:M by exact: mulmx1.
  have d0 : denominator inv u v != 0.
    by rewrite -/(row_denominator main added comb_to_main k combination
                    inverse) rd.
  have r0 : row_denominator main added comb_to_main k combination inverse != 0.
    by rewrite rd.
  have c0 : col_denominator main added comb_to_main k combination inverse != 0.
    by rewrite cd.
  have [t1 [t2 t3]] :=
    @sherman_morrison_inverse F 3 2 A inv u v main added comb_to_main k
      combination inverse IA d0 IA r0 c0.
  have s12 : step.1 *m step.2 = 1%:M by case: t2 => _ [_ []].
  pose B : 'M[F]_2 :=
    \matrix_(i, j) (if i == j then (if i == k then 1 else 2%:R) else - 1).
  have Bs : B *m step.1 = 1%:M.
    apply/matrixP; apply: ord2_cases; apply: ord2_cases;
      rewrite /step /update_step /=; entries.
  have s2 : step.2 = B.
    by rewrite -[LHS]mul1mx -Bs -mulmxA s12 mulmx1.
  split; first by split.
  split; first by split.
  split.
    do !split; rewrite /inv' /sherman_morrison_update_inverse; entries.
  split.
    do !split; rewrite /step /update_step /=; entries.
  by rewrite s2; do !split; entries.
Defined.

End MatrixTheory.

(** * Further properties of gray.h *)

(** ** The bit utilities *)

Lemma popcount_testbits (n : nat) : forall x,
  0 <= x < 2 ^ Z.of_nat n ->
  popcount x = Z.of_nat (length (filter (Z.testbit x) (map Z.of_nat (seq 0 n)))).
Proof.
  induction n as [|n IH]; intros x Hx.
  - simpl in Hx. assert (x = 0) by lia. subst. reflexivity.
  - rewrite popcount_shift by lia. rewrite (IH _ (shiftr1_range n x Hx)).
    cbn [seq map filter]. rewrite <- seq_shift, !map_map.
    rewrite (filter_map_swap (Z.testbit (Z.shiftr x 1)) Z.of_nat).
    rewrite (filter_map_swap (Z.testbit x) (fun i => Z.of_nat (S i))).
    replace (filter (fun a => Z.testbit x (Z.of_nat (S a))) (seq 0 n))
      with (filter (fun a => Z.testbit (Z.shiftr x 1) (Z.of_nat a)) (seq 0 n)).
    + change (Z.of_nat 0) with 0.
      destruct (Z.testbit x 0); cbn [length Z.b2z]; rewrite !length_map; lia.
    + apply filter_ext. intros i. rewrite Z.shiftr_spec by lia.
      f_equal. lia.
Qed.

(** X1. [count_bits] counts the bits that are set: for a [uint32_t] it is
    the number of positions below 32 whose bit is 1; it is between 0 and 32
    and is 0 for 0 only. *)
Theorem count_bits_counts (x : Z) :
  0 <= x < 2 ^ 32 ->
  count_bits x = bits_set x /\ 0 <= count_bits x <= 32 /\
  (count_bits x = 0 <-> x = 0).
Proof.
  intros Hx. rewrite count_bits_popcount by assumption.
  split; [apply (popcount_testbits 32 x Hx)|].
  split; [split; [apply popcount_nonneg|apply (popcount_bound 32 x Hx)]|].
  apply popcount_zero_iff. lia.
Qed.

Lemma count_bits_counts_witness :
  count_bits 911 = bits_set 911 /\ 0 <= count_bits 911 <= 32 /\
  (count_bits 911 = 0 <-> 911 = 0).
Proof. apply (count_bits_counts 911). lia. Defined.

(** X2. [set_bit] is the index of the most significant set bit of a
    non-zero [uint32_t]: that bit is set, no higher bit is, the index is
    below 32.  For 0 it answers 0, as it does for 1. *)
Theorem set_bit_highest (x : Z) :
  0 <= x < 2 ^ 32 ->
  0 <= set_bit x < 32 /\
  (x = 0 -> set_bit x = 0) /\
  (0 < x ->
   Z.testbit x (set_bit x) = true /\
   (forall j, set_bit x < j -> Z.testbit x j = false) /\
   2 ^ set_bit x <= x < 2 ^ (set_bit x + 1)).
Proof.
  intros Hx. destruct (Z.eq_dec x 0) as [->|Hne].
  - split; [vm_compute; split; [discriminate|reflexivity]|].
    split; [reflexivity|lia].
  - rewrite set_bit_log2 by lia.
    assert (Z.log2 x < 32) by (apply Z.log2_lt_pow2; lia).
    pose proof (Z.log2_nonneg x).
    split; [lia|]. split; [lia|]. intros Hpos. split; [now apply Z.bit_log2|].
    split; [intros j Hj; apply Z.bits_above_log2; lia|].
    pose proof (Z.log2_spec x Hpos). rewrite <- Z.add_1_r in *. lia.
Qed.

Lemma set_bit_highest_witness :
  0 <= set_bit 64 < 32 /\
  (64 = 0 -> set_bit 64 = 0) /\
  (0 < 64 ->
   Z.testbit 64 (set_bit 64) = true /\
   (forall j, set_bit 64 < j -> Z.testbit 64 j = false) /\
   2 ^ set_bit 64 <= 64 < 2 ^ (set_bit 64 + 1)).
Proof. apply (set_bit_highest 64). lia. Defined.

(** X3. [fact] is the factorial modulo [2^32]: exact up to 12, different
    from the factorial from 13 on, and 0 from 34 on. *)
Theorem fact_wraps (n : nat) :
  fact (Z.of_nat n) = factorial n mod 2 ^ 32 /\
  (fact (Z.of_nat n) = factorial n <-> (n <= 12)%nat) /\
  ((34 <= n)%nat -> fact (Z.of_nat n) = 0).
Proof.
  pose proof (fact_spec n) as Hf. unfold wrap32 in Hf.
  split; [exact Hf|]. split.
  - split.
    + intros E. apply factorial_fits. rewrite <- E, Hf.
      apply Z.mod_pos_bound. lia.
    + intros Hn. rewrite Hf. apply Z.mod_small.
      pose proof (factorial_pos n). pose proof (factorial_mono n 12 Hn).
      assert (factorial 12 < 2 ^ 32) by (vm_compute; reflexivity). lia.
  - intros Hn. apply fact_large. lia.
Qed.

Lemma fact_wraps_witness :
  fact (Z.of_nat 34) = factorial 34 mod 2 ^ 32 /\
  (fact (Z.of_nat 34) = factorial 34 <-> (34 <= 12)%nat) /\
  ((34 <= 34)%nat -> fact (Z.of_nat 34) = 0).
Proof. apply (fact_wraps 34). Defined.

(** ** The Gray code *)

Lemma gray_shiftr x : Z.shiftr (gray x) 1 = gray (Z.shiftr x 1).
Proof. unfold gray. now rewrite Z.shiftr_lxor. Qed.

Lemma gray_undo x : Z.lxor (gray x) (Z.shiftr x 1) = x.
Proof.
  unfold gray. now rewrite Z.lxor_assoc, Z.lxor_nilpotent, Z.lxor_0_r.
Qed.

Lemma gray_injective_below (n : nat) : forall x y,
  0 <= x < 2 ^ Z.of_nat n -> 0 <= y < 2 ^ Z.of_nat n ->
  gray x = gray y -> x = y.
Proof.
  induction n as [|n IH]; intros x y Hx Hy E.
  - simpl in Hx, Hy. lia.
  - assert (Z.shiftr x 1 = Z.shiftr y 1) as Hs.
    { apply IH; try now apply shiftr1_range.
      now rewrite <- !gray_shiftr, E. }
    rewrite <- (gray_undo x), <- (gray_undo y), E, Hs. reflexivity.
Qed.

Lemma below_some_pow2 x : 0 <= x -> exists n : nat, x < 2 ^ Z.of_nat n.
Proof.
  intros Hx. exists (Z.to_nat (Z.succ (Z.log2 x))).
  pose proof (Z.log2_nonneg x). rewrite Z2Nat.id by lia.
  destruct (Z.eq_dec x 0) as [->|]; [reflexivity|].
  apply Z.log2_spec. lia.
Qed.

(** X4. [gray] is one-to-one on the non-negative integers: two different
    cursors never give the same code. *)
Theorem gray_injective (x y : Z) :
  0 <= x -> 0 <= y -> x <> y -> gray x <> gray y.
Proof.
  intros Hx Hy Hne E. apply Hne.
  destruct (below_some_pow2 x Hx) as [a Ha].
  destruct (below_some_pow2 y Hy) as [b Hb].
  apply (gray_injective_below (Nat.max a b)); try assumption.
  - split; [lia|]. eapply Z.lt_le_trans; [exact Ha|]. apply pow2_nat_le. lia.
  - split; [lia|]. eapply Z.lt_le_trans; [exact Hb|]. apply pow2_nat_le. lia.
Qed.

Lemma gray_injective_witness : gray 5 <> gray 6.
Proof. apply (gray_injective 5 6); lia. Defined.

Lemma flip1_sym x y : flip1 x y -> flip1 y x.
Proof. unfold flip1. now rewrite hamming_sym. Qed.

Lemma gray_codes_nonempty n : gray_codes n <> [].
Proof.
  unfold gray_codes. pose proof (pow2_nat_ge1 n).
  destruct (2 ^ n)%nat; [lia|discriminate].
Qed.

Lemma last_In (l : list Z) : l <> [] -> In (last l 0) l.
Proof.
  intros H. destruct (exists_last H) as [t [x ->]].
  rewrite last_last. apply in_or_app. right. now left.
Qed.

Lemma gray_codes_chain n : chain flip1 (gray_codes n).
Proof.
  induction n as [|n IH]; [simpl; auto|].
  rewrite gray_codes_succ. apply chain_app.
  - exact IH.
  - apply chain_map with (R := flip1).
    + intros x y Hx Hy. apply in_rev, gray_codes_range in Hx.
      apply in_rev, gray_codes_range in Hy. unfold flip1.
      rewrite !(Z.add_comm (2 ^ Z.of_nat n)), hamming_add_pow2; tauto.
    + apply chain_rev; [exact flip1_sym|exact IH].
  - intros Hne _. pose proof (gray_codes_nonempty n) as Hn.
    rewrite hd_map_add, hd_rev by now apply rev_nonempty.
    pose proof (gray_codes_range n _ (last_In _ Hn)) as Hr.
    unfold flip1. rewrite Z.add_comm, hamming_add_pow2_r by assumption.
    now rewrite hamming_same.
Qed.

Lemma gray_codes_nth n i : (i < 2 ^ n)%nat ->
  nth i (gray_codes n) 0 = gray (Z.of_nat i).
Proof.
  intros Hi. unfold gray_codes.
  change 0 with ((fun j => gray (Z.of_nat j)) 0%nat) at 1.
  now rewrite map_nth, seq_nth.
Qed.

(** X5. Successive cursors have Gray codes that differ in exactly one
    bit. *)
Theorem gray_successor_one_bit (i : Z) :
  0 <= i -> hamming (gray i) (gray (i + 1)) = 1.
Proof.
  intros Hi. destruct (below_some_pow2 (i + 1) ltac:(lia)) as [n Hn].
  pose proof (pow2_nat_Z n) as Hpow.
  assert (length (gray_codes n) = (2 ^ n)%nat) as Hlen
    by (unfold gray_codes; now rewrite length_map, length_seq).
  pose proof (chain_nth flip1 (gray_codes n) (Z.to_nat i)
                (gray_codes_chain n) ltac:(lia)) as H.
  unfold flip1 in H.
  rewrite !gray_codes_nth in H by lia.
  replace (Z.of_nat (S (Z.to_nat i))) with (i + 1) in H by lia.
  now rewrite Z2Nat.id in H by lia.
Qed.

Lemma gray_successor_one_bit_witness : hamming (gray 7) (gray (7 + 1)) = 1.
Proof. apply (gray_successor_one_bit 7). lia. Defined.

(** ** The generator: what holds at all times *)

Lemma accepted_In n k i : In i (accepted n k) ->
  0 < i < 2 ^ Z.of_nat n /\ count_bits (gray i) = Z.of_nat k.
Proof.
  unfold accepted. intros H. apply filter_In in H. destruct H as [Hin Hacc].
  apply in_map_iff in Hin. destruct Hin as [j [<- Hj]]. apply in_seq in Hj.
  pose proof (pow2_nat_Z n). pose proof (pow2_nat_ge1 n).
  split; [lia|]. now apply Z.eqb_eq.
Qed.

(** X6. For [0 < pick <= size < 32], after any number of calls of [next]:
    the parameters are those given to the constructor, the cursor is
    between 1 and [2^size - 1], and [value()] is a word of [size] bits with
    exactly [pick] bits set. *)
Theorem gray_generator_invariant (size pick : Z) (j : nat) :
  0 < pick <= size -> size < 32 ->
  exists g, gray_generator size pick = Some g /\
    let s := run j g in
    size_ s = size /\ pick_ s = pick /\ combinations_ s = combinations_ g /\
    0 < index_ s < 2 ^ size /\
    0 <= value s < 2 ^ size /\
    popcount (value s) = pick /\ count_bits (value s) = pick.
Proof.
  intros Hp Hs. eexists. split; [apply gray_generator_walk; lia|].
  set (n := Z.to_nat size). set (k := Z.to_nat pick).
  set (c := combinations_init size pick).
  assert (n <= 31)%nat as Hn by lia.
  assert (1 <= k)%nat as Hk1 by lia. assert (k <= n)%nat as Hk2 by lia.
  assert (Z.of_nat n = size) as Hsz by lia.
  assert (Z.of_nat k = pick) as Hpk by lia.
  cbv zeta. destruct (run_standing n k Hn Hk1 Hk2 c j) as [p [b [Hlt ->]]].
  rewrite value_standing by assumption.
  assert (In (nth p (accepted n k) 0) (accepted n k)) as Hin
    by (apply nth_In; now rewrite accepted_length).
  apply accepted_In in Hin. destruct Hin as [Hi Hc].
  assert (In (nth p (weight_walk n k) 0) (weight_walk n k)) as Hw
    by (apply nth_In; now rewrite weight_walk_length).
  apply weight_walk_range in Hw. destruct Hw as [Hr Hpop].
  cbn [standing size_ pick_ combinations_ index_].
  rewrite <- Hsz, <- Hpk. repeat split; try lia.
  rewrite count_bits_popcount; [lia|].
  destruct (limit_of_nat n Hn) as [_ Hlim]. lia.
Qed.

Lemma gray_generator_invariant_witness :
  exists g, gray_generator 7 4 = Some g /\
    let s := run 100 g in
    size_ s = 7 /\ pick_ s = 4 /\ combinations_ s = combinations_ g /\
    0 < index_ s < 2 ^ 7 /\
    0 <= value s < 2 ^ 7 /\
    popcount (value s) = 4 /\ count_bits (value s) = 4.
Proof. apply (gray_generator_invariant 7 4 100); lia. Defined.

Lemma last_as_nth (l : list Z) : last l 0 = nth (length l - 1) l 0.
Proof.
  destruct l as [|x t]; [reflexivity|].
  assert (x :: t <> []) as Hne by discriminate.
  destruct (exists_last Hne) as [l' [y ->]].
  rewrite last_last, length_app, app_nth2 by (simpl; lia).
  cbn [length]. now replace (length l' + 1 - 1 - length l')%nat with 0%nat by lia.
Qed.

(** X7. For [0 < pick <= size < 32] the constructor leaves the generator
    on the word with the [pick] lowest bits set, and the forward phase ends,
    after [C(size, pick) - 1] calls, on the word with the highest bit and the
    [pick - 1] lowest bits set. *)
Theorem gray_generator_ends (size pick : Z) :
  0 < pick <= size -> size < 32 ->
  exists g, gray_generator size pick = Some g /\
    value g = 2 ^ pick - 1 /\
    value (run (binomial (Z.to_nat size) (Z.to_nat pick) - 1) g)
      = 2 ^ (size - 1) + (2 ^ (pick - 1) - 1).
Proof.
  intros Hp Hs. eexists. split; [apply gray_generator_walk; lia|].
  set (n := Z.to_nat size). set (k := Z.to_nat pick).
  set (c := combinations_init size pick).
  assert (n <= 31)%nat as Hn by lia.
  assert (1 <= k)%nat as Hk1 by lia. assert (k <= n)%nat as Hk2 by lia.
  pose proof (binomial_pos n k Hk2) as Hm.
  destruct (weight_walk_ends n k Hk2) as [Hhd Hlast].
  rewrite run_forward by (try assumption; lia).
  rewrite !value_standing by assumption. split.
  - replace (nth 0 (weight_walk n k) 0) with (hd 0 (weight_walk n k))
      by (destruct (weight_walk n k); reflexivity).
    rewrite Hhd. f_equal. f_equal. lia.
  - rewrite <- (weight_walk_length n k), <- last_as_nth, Hlast.
    assert (Z.of_nat k = pick) as Hpk by lia. clearbody k.
    destruct k as [|k']; [lia|]. cbn [last_word].
    replace (Z.of_nat (n - 1)) with (size - 1) by lia.
    replace (Z.of_nat k') with (pick - 1) by lia. reflexivity.
Qed.

Lemma gray_generator_ends_witness :
  exists g, gray_generator 7 4 = Some g /\
    value g = 2 ^ 4 - 1 /\
    value (run (binomial (Z.to_nat 7) (Z.to_nat 4) - 1) g)
      = 2 ^ (7 - 1) + (2 ^ (4 - 1) - 1).
Proof. apply (gray_generator_ends 7 4); lia. Defined.

(** ** The generator: [pick = size] *)

Lemma run_full (n : nat) (c : Z) : (1 <= n <= 31)%nat -> forall j,
  run j (standing n n c 0 false) = standing n n c 0 (Nat.odd j).
Proof.
  intros Hn. induction j as [|j IH]; [reflexivity|].
  rewrite run_succ, IH, Nat.odd_succ, <- Nat.negb_odd.
  destruct (Nat.odd j); cbn [negb].
  - rewrite next_standing_reverse; try lia; [reflexivity|].
    rewrite accepted_length, binomial_diag; lia.
  - rewrite next_standing_forward; try lia.
    + rewrite accepted_length, binomial_diag by lia. reflexivity.
    + rewrite accepted_length, binomial_diag; lia.
Qed.

(** X8. With [pick = size] (and [0 < size < 32]) there is one combination:
    [value()] is the word of [size] ones for ever, and every call of [next]
    only turns the direction flag. *)
Theorem gray_generator_full (size : Z) (j : nat) :
  0 < size < 32 ->
  exists g, gray_generator size size = Some g /\
    value (run j g) = 2 ^ size - 1 /\
    index_ (run j g) = index_ g /\
    reversed_ (run j g) = Nat.odd j.
Proof.
  intros Hs. eexists. split; [apply gray_generator_walk; lia|].
  set (n := Z.to_nat size). set (c := combinations_init size size).
  rewrite run_full by lia. rewrite !value_standing by lia.
  destruct (weight_walk_ends n n (le_n n)) as [Hhd _].
  replace (nth 0 (weight_walk n n) 0) with (hd 0 (weight_walk n n))
    by (destruct (weight_walk n n); reflexivity).
  rewrite Hhd. repeat split. f_equal. f_equal. lia.
Qed.

Lemma gray_generator_full_witness :
  exists g, gray_generator 4 4 = Some g /\
    value (run 3 g) = 2 ^ 4 - 1 /\
    index_ (run 3 g) = index_ g /\
    reversed_ (run 3 g) = Nat.odd 3.
Proof. apply (gray_generator_full 4 3); lia. Defined.

(** ** The generator: the forward phase and [combinations()] *)

(** X21. For [0 < pick <= size < 32] the constructor succeeds and the
    forward phase, the calls made before the direction flag is set, shows
    exactly [C(size, pick) = size! / (pick! * (size - pick)!)] values, all
    distinct, each a word of [size] bits with exactly [pick] bits set.  For
    [size <= 12], the sizes whose factorial is below [2^32],
    [combinations()] returns that number. *)
Theorem gray_forward_values (size pick : Z) :
  0 < pick <= size -> size < 32 ->
  exists g, gray_generator size pick = Some g /\
    let m := binomial (Z.to_nat size) (Z.to_nat pick) in
    Z.of_nat m =
      factorial (Z.to_nat size) /
      (factorial (Z.to_nat pick) * factorial (Z.to_nat (size - pick))) /\
    (forall j, (j < m)%nat -> reversed_ (run j g) = false) /\
    reversed_ (run m g) = true /\
    length (observed g 0 m) = m /\
    NoDup (observed g 0 m) /\
    (forall x, In x (observed g 0 m) ->
       0 <= x < 2 ^ size /\ popcount x = pick) /\
    (size <= 12 -> combinations g = Z.of_nat m).
Proof.
  intros Hp Hs.
  destruct (gray_forward_phase size pick) as [g [Hg [Hfw [Hrv [Hobs _]]]]];
    try lia.
  exists g. split; [exact Hg|].
  set (n := Z.to_nat size) in *. set (k := Z.to_nat pick) in *.
  pose proof (binomial_pos n k ltac:(lia)) as Hpos.
  cbv zeta. split.
  { rewrite binomial_quotient by lia. repeat f_equal. lia. }
  split; [exact Hfw|]. split; [apply Hrv; lia|].
  split; [unfold observed; now rewrite length_map, length_seq|].
  split; [rewrite Hobs; apply weight_walk_NoDup|].
  split.
  - intros x Hx. rewrite Hobs in Hx. apply weight_walk_range in Hx.
    replace (Z.of_nat n) with size in Hx by lia.
    replace (Z.of_nat k) with pick in Hx by lia. exact Hx.
  - intros Hsmall. rewrite gray_generator_walk in Hg by lia.
    injection Hg as <-. unfold combinations. cbn [standing combinations_].
    rewrite <- (Z2Nat.id size), <- (Z2Nat.id pick) by lia.
    apply combinations_init_small; lia.
Qed.

Lemma gray_forward_values_witness :
  exists g, gray_generator 12 5 = Some g /\
    let m := binomial (Z.to_nat 12) (Z.to_nat 5) in
    Z.of_nat m =
      factorial (Z.to_nat 12) /
      (factorial (Z.to_nat 5) * factorial (Z.to_nat (12 - 5))) /\
    (forall j, (j < m)%nat -> reversed_ (run j g) = false) /\
    reversed_ (run m g) = true /\
    length (observed g 0 m) = m /\
    NoDup (observed g 0 m) /\
    (forall x, In x (observed g 0 m) ->
       0 <= x < 2 ^ 12 /\ popcount x = 5) /\
    (12 <= 12 -> combinations g = Z.of_nat m).
Proof. apply (gray_forward_values 12 5); lia. Defined.

(** ** The generator: [pick = 0] *)

(** No cursor of a [uint32_t] but 0 has a Gray code of weight 0. *)
Lemma accepts_zero_none (a len : nat) :
  (1 <= a)%nat -> Z.of_nat (a + len) <= 2 ^ 32 ->
  filter (accepts 0) (map Z.of_nat (seq a len)) = [].
Proof.
  intros Ha Hb. apply filter_none. intros x Hx.
  apply in_map_iff in Hx. destruct Hx as [i [<- Hi]]. apply in_seq in Hi.
  pose proof (gray_range 32 (Z.of_nat i) ltac:(simpl; lia)) as Hr.
  unfold accepts. rewrite count_bits_popcount by (simpl in Hr; lia).
  apply Z.eqb_neq. intros E.
  apply (proj1 (popcount_zero_iff (gray (Z.of_nat i)) ltac:(lia))) in E.
  apply (proj1 (gray_zero_iff (Z.of_nat i) ltac:(lia))) in E. lia.
Qed.

Lemma below_zero_wraps : wrap32 (0 - 1) = 2 ^ 32 - 1.
Proof. reflexivity. Qed.

Lemma top_cursor_refused : accepts 0 (2 ^ 32 - 1) = false.
Proof. vm_compute. reflexivity. Qed.

(** Going down from cursor 0 the loop sweeps all the other cursors and
    leaves at 0. *)
Lemma scan_down_sweep (M : nat) :
  Z.of_nat M = 2 ^ 32 - 1 -> scan_down (S M) 0 0 = Turn.
Proof.
  intros HM. cbn [scan_down]. rewrite below_zero_wraps.
  replace (2 ^ 32 - 1 =? 0) with false by reflexivity.
  fold (accepts 0 (2 ^ 32 - 1)). rewrite top_cursor_refused.
  rewrite <- HM. rewrite scan_down_spec by lia.
  rewrite accepts_zero_none by lia. reflexivity.
Qed.

Lemma scan_down_zero : scan_down (down_fuel 0) 0 0 = Turn.
Proof.
  unfold down_fuel. rewrite below_zero_wraps.
  apply scan_down_sweep. apply Z2Nat.id. discriminate.
Qed.

Lemma next_zero_reverse size c :
  next (mk_gray_generator size 0 true 0 c) = mk_gray_generator size 0 false 0 c.
Proof.
  unfold next, scan. cbn [reversed_ index_ pick_].
  change (wrap32 0) with 0. now rewrite scan_down_zero.
Qed.

Lemma next_zero_forward (n : nat) c : (n <= 31)%nat ->
  next (mk_gray_generator (Z.of_nat n) 0 false 0 c)
  = mk_gray_generator (Z.of_nat n) 0 true 0 c.
Proof.
  intros Hn. destruct (limit_of_nat n Hn) as [Hlim Hlt].
  pose proof (pow2_nat_Z n) as Hpow. pose proof (pow2_nat_ge1 n) as Hge.
  assert (scan_up (up_fuel (2 ^ Z.of_nat n) (Z.of_nat 0))
            (2 ^ Z.of_nat n) 0 (Z.of_nat 0) = Turn) as Hscan.
  { rewrite (up_fuel_enough 0 (2 ^ n - 1)) by lia.
    rewrite (scan_up_spec _ (2 ^ n - 1)) by lia.
    now rewrite accepts_zero_none by lia. }
  unfold next, scan. cbn [reversed_ index_ size_ pick_].
  rewrite Hlim. change (wrap32 0) with 0.
  change (Z.of_nat 0) with 0 in Hscan. now rewrite Hscan.
Qed.

Lemma run_zero (n : nat) c : (n <= 31)%nat -> forall j,
  run j (mk_gray_generator (Z.of_nat n) 0 true 0 c)
  = mk_gray_generator (Z.of_nat n) 0 (Nat.even j) 0 c.
Proof.
  intros Hn. induction j as [|j IH]; [reflexivity|].
  rewrite run_succ, IH, Nat.even_succ, <- Nat.negb_even.
  destruct (Nat.even j); cbn [negb].
  - apply next_zero_reverse.
  - now apply next_zero_forward.
Qed.

(** X9. With [pick = 0] (and [0 < size < 32]) the generator never leaves
    cursor 0: [value()] is 0 for ever and every call of [next] only turns
    the direction flag, the calls going down after a sweep of all the
    [2^32 - 1] other cursors. *)
Theorem gray_generator_empty (size : Z) (j : nat) :
  0 < size < 32 ->
  exists g, gray_generator size 0 = Some g /\
    index_ (run j g) = 0 /\ value (run j g) = 0 /\
    reversed_ (run j g) = Nat.even j.
Proof.
  intros Hs. set (n := Z.to_nat size).
  assert (n <= 31)%nat as Hn by lia.
  assert (size = Z.of_nat n) as Hsize by lia. clearbody n. subst size.
  exists (mk_gray_generator (Z.of_nat n) 0 true 0 1). split.
  - unfold gray_generator.
    change (Z.of_nat n - 0) with (Z.of_nat n - Z.of_nat 0).
    change (wrap32 0) with (wrap32 (Z.of_nat 0)).
    rewrite divisor_nonzero by lia. f_equal.
    change (wrap32 (Z.of_nat 0)) with (wrap32 0).
    change (Z.of_nat n - Z.of_nat 0) with (Z.of_nat n - 0).
    fold (combinations_init (Z.of_nat n) 0).
    rewrite combinations_init_zero by assumption.
    now apply next_zero_forward.
  - rewrite run_zero by lia. repeat split.
Qed.

Lemma gray_generator_empty_witness :
  exists g, gray_generator 4 0 = Some g /\
    index_ (run 5 g) = 0 /\ value (run 5 g) = 0 /\
    reversed_ (run 5 g) = Nat.even 5.
Proof. apply (gray_generator_empty 4 5); lia. Defined.

(** ** [next] in any state *)

Lemma scan_up_more limit pick (fuel : nat) : forall from extra,
  scan_up fuel limit pick from <> Exhausted ->
  scan_up (fuel + extra) limit pick from = scan_up fuel limit pick from.
Proof.
  induction fuel as [|fuel IH]; intros from extra H; [now elim H|].
  cbn [Nat.add scan_up] in *.
  destruct (wrap32 (from + 1) =? limit); [reflexivity|].
  destruct (count_bits (gray (wrap32 (from + 1))) =? pick); [reflexivity|].
  now apply IH.
Qed.

Lemma scan_down_more pick (fuel : nat) : forall from extra,
  scan_down fuel pick from <> Exhausted ->
  scan_down (fuel + extra) pick from = scan_down fuel pick from.
Proof.
  induction fuel as [|fuel IH]; intros from extra H; [now elim H|].
  cbn [Nat.add scan_down] in *.
  destruct (wrap32 (from - 1) =? 0); [reflexivity|].
  destruct (count_bits (gray (wrap32 (from - 1))) =? pick); [reflexivity|].
  now apply IH.
Qed.

Lemma scan_up_accepts limit pick (fuel : nat) : forall from i,
  scan_up fuel limit pick from = Accept i ->
  accepts pick i = true /\ 0 <= i < 2 ^ 32 /\ i <> limit.
Proof.
  induction fuel as [|fuel IH]; intros from i H; [discriminate|].
  cbn [scan_up] in H.
  destruct (Z.eqb_spec (wrap32 (from + 1)) limit); [discriminate|].
  destruct (count_bits (gray (wrap32 (from + 1))) =? pick) eqn:E.
  - injection H as <-. repeat split; try assumption; apply wrap32_range.
  - now apply IH in H.
Qed.

Lemma scan_down_accepts pick (fuel : nat) : forall from i,
  scan_down fuel pick from = Accept i ->
  accepts pick i = true /\ 0 <= i < 2 ^ 32 /\ i <> 0.
Proof.
  induction fuel as [|fuel IH]; intros from i H; [discriminate|].
  cbn [scan_down] in H.
  destruct (Z.eqb_spec (wrap32 (from - 1)) 0); [discriminate|].
  destruct (count_bits (gray (wrap32 (from - 1))) =? pick) eqn:E.
  - injection H as <-. repeat split; try assumption; apply wrap32_range.
  - now apply IH in H.
Qed.

(** X10. In any state of the generator with [size_] between 0 and 31, the
    sizes for which [1 << size_] is defined (any cursor of 32 bits, any
    [pick_], either direction), a call of [next] ends: each loop leaves by
    accepting a cursor or at its boundary within the steps the cursor needs
    to come round to the boundary, and more steps would change nothing.  The
    call keeps [size_], [pick_] and [combinations_]; it either only negates
    the direction flag or moves to a cursor, other than the boundary, whose
    Gray code has [pick_] bits set. *)
Theorem next_always_ends (g : gray_generator_t) (extra : nat) :
  0 <= size_ g < 32 -> 0 <= index_ g < 2 ^ 32 ->
  scan g <> Exhausted /\
  (if reversed_ g
   then scan_down (down_fuel (index_ g) + extra) (wrap32 (pick_ g)) (index_ g)
   else scan_up (up_fuel (limit_of (size_ g)) (index_ g) + extra)
          (limit_of (size_ g)) (wrap32 (pick_ g)) (index_ g)) = scan g /\
  size_ (next g) = size_ g /\ pick_ (next g) = pick_ g /\
  combinations_ (next g) = combinations_ g /\
  (next g = set_reversed g (negb (reversed_ g)) \/
   exists i, next g = set_index g i /\
     count_bits (gray i) = wrap32 (pick_ g) /\ 0 <= i < 2 ^ 32 /\
     i <> (if reversed_ g then 0 else limit_of (size_ g))).
Proof.
  intros _ _.
  pose proof (scan_ends g) as Hend. split; [exact Hend|].
  destruct (next_keeps_parameters g) as [Hs [Hp Hc]].
  split; [|repeat split; try assumption].
  - unfold scan in *. destruct (reversed_ g);
      [now apply scan_down_more | now apply scan_up_more].
  - unfold next. destruct (scan g) as [i| |] eqn:E; [|now left|now elim Hend].
    right. exists i. split; [reflexivity|]. unfold scan in E.
    destruct (reversed_ g).
    + apply scan_down_accepts in E. destruct E as [Ha [Hr Hne]].
      unfold accepts in Ha. apply Z.eqb_eq in Ha. now repeat split.
    + apply scan_up_accepts in E. destruct E as [Ha [Hr Hne]].
      unfold accepts in Ha. apply Z.eqb_eq in Ha. now repeat split.
Qed.

(** A state the generator of 4 items among 7 never stands on (cursor 2,
    whose Gray code has two bits set, and a wrong [combinations_]): the call
    moves to cursor 10, whose Gray code 15 has four bits set. *)
Lemma next_always_ends_witness :
  let g := mk_gray_generator 7 4 false 2 99 in
  (scan g <> Exhausted /\
   (if reversed_ g
    then scan_down (down_fuel (index_ g) + 3) (wrap32 (pick_ g)) (index_ g)
    else scan_up (up_fuel (limit_of (size_ g)) (index_ g) + 3)
           (limit_of (size_ g)) (wrap32 (pick_ g)) (index_ g)) = scan g /\
   size_ (next g) = size_ g /\ pick_ (next g) = pick_ g /\
   combinations_ (next g) = combinations_ g /\
   (next g = set_reversed g (negb (reversed_ g)) \/
    exists i, next g = set_index g i /\
      count_bits (gray i) = wrap32 (pick_ g) /\ 0 <= i < 2 ^ 32 /\
      i <> (if reversed_ g then 0 else limit_of (size_ g)))) /\
  next g = mk_gray_generator 7 4 false 10 99.
Proof.
  intro g. split; [|vm_compute; reflexivity].
  apply (next_always_ends g 3); subst g; cbn [size_ index_]; lia.
Defined.

(** * Further properties of the joiner *)

Lemma small_cycle q r :
  run ((q * 280 + r) / 35) small0 = run (r / 35) small0.
Proof.
  replace ((q * 280 + r) / 35)%nat with (q * 8 + r / 35)%nat.
  - apply (run_cycle 8 small0 small0_cycle).
  - replace (q * 280 + r)%nat with (r + (q * 8) * 35)%nat by lia.
    rewrite Nat.div_add by lia. lia.
Qed.

Lemma large_cycle q r : run (q * 280 + r) large0 = run r large0.
Proof.
  replace (q * 280 + r)%nat with ((q * 4) * 70 + r)%nat by lia.
  apply (run_cycle 70 large0 large0_cycle).
Qed.

Lemma parts_table : forallb parts_row (seq 0 280) = true.
Proof. vm_compute. reflexivity. Qed.

(** X11. The mask a call of [gray_join_t::next] returns is the value of
    the small generator on bits 7 to 10 and the value of the large one on
    bits 0 to 6: three of the four high bits and four of the seven low bits
    are set, and the mask is below [2^11]. *)
Theorem join_output_parts (n : nat) :
  Z.of_nat n < 2 ^ 31 ->
  exists j0, gray_join = Some j0 /\
    let j := join_run n j0 in
    let vs := value (small_ j) in
    let vl := value (large_ j) in
    join_output n j0 = 2 ^ 7 * vs + vl /\
    0 <= vl < 2 ^ 7 /\ 0 <= vs < 2 ^ 4 /\
    popcount vs = 3 /\ popcount vl = 4 /\
    0 <= join_output n j0 < 2 ^ 11.
Proof.
  intros Hn. eexists. split; [apply gray_join_start|]. cbv zeta.
  rewrite join_output_joined, join_run_state by assumption.
  cbn [small_ large_].
  pose proof (Nat.div_mod_eq n 280) as Hq.
  pose proof (Nat.mod_upper_bound n 280 ltac:(lia)) as Hr.
  set (q := (n / 280)%nat) in *. set (r := (n mod 280)%nat) in *.
  replace n with (q * 280 + r)%nat by lia.
  rewrite joined_cycle, small_cycle, large_cycle.
  pose proof (forallb_seq _ 280 r parts_table Hr) as H.
  unfold parts_row in H. cbv zeta in H.
  repeat (apply andb_true_iff in H; destruct H as [H ?]).
  repeat match goal with
         | E : (_ =? _) = true |- _ => apply Z.eqb_eq in E
         | E : (_ <=? _) = true |- _ => apply Z.leb_le in E
         | E : (_ <? _) = true |- _ => apply Z.ltb_lt in E
         end.
  assert (2 ^ 11 = 2 ^ 7 * 2 ^ 4) by reflexivity.
  repeat split; try lia; nia.
Qed.

Lemma join_output_parts_witness :
  exists j0, gray_join = Some j0 /\
    let j := join_run 40 j0 in
    let vs := value (small_ j) in
    let vl := value (large_ j) in
    join_output 40 j0 = 2 ^ 7 * vs + vl /\
    0 <= vl < 2 ^ 7 /\ 0 <= vs < 2 ^ 4 /\
    popcount vs = 3 /\ popcount vl = 4 /\
    0 <= join_output 40 j0 < 2 ^ 11.
Proof. apply (join_output_parts 40). reflexivity. Defined.

Lemma outputs_distinct : distinct (map joined (seq 0 140)) = true.
Proof. vm_compute. reflexivity. Qed.

Lemma outputs_cover : covers (map joined (seq 0 140)) = true.
Proof. vm_compute. reflexivity. Qed.

Lemma covers_sound (l : list Z) (a b : Z) :
  covers l = true -> In a (weight_walk 4 3) -> In b (weight_walk 7 4) ->
  In (2 ^ 7 * a + b) l.
Proof.
  unfold covers. intros H Ha Hb.
  rewrite forallb_forall in H. specialize (H a Ha).
  rewrite forallb_forall in H. specialize (H b Hb).
  apply existsb_exists in H. destruct H as [x [Hx E]].
  apply Z.eqb_eq in E. now subst x.
Qed.

(** X12. The first 140 outputs of the joiner are pairwise distinct, and
    every choice of 3 items among the 4 high ones with 4 items among the 7
    low ones is one of them: the 140 = 4 * 35 combinations are produced
    once each. *)
Theorem join_outputs_enumerate (a b : Z) :
  In a (weight_walk 4 3) -> In b (weight_walk 7 4) ->
  exists j0, gray_join = Some j0 /\
    NoDup (map (fun n => join_output n j0) (seq 0 140)) /\
    exists n, (n < 140)%nat /\ join_output n j0 = 2 ^ 7 * a + b.
Proof.
  intros Ha Hb. eexists. split; [apply gray_join_start|].
  assert (map (fun n => join_output n (mk_gray_join small0 large0 0)) (seq 0 140)
          = map joined (seq 0 140)) as Hmap.
  { apply map_ext_in. intros n Hn. apply in_seq in Hn.
    apply join_output_joined.
    assert (2 ^ 31 = 2147483648) by reflexivity. lia. }
  rewrite Hmap. split; [exact (distinct_NoDup _ outputs_distinct)|].
  pose proof (covers_sound _ a b outputs_cover Ha Hb) as Hx.
  rewrite <- Hmap in Hx. apply in_map_iff in Hx.
  destruct Hx as [n [Hn Hin]]. apply in_seq in Hin.
  exists n. split; [lia|exact Hn].
Qed.

Lemma join_outputs_enumerate_witness :
  exists j0, gray_join = Some j0 /\
    NoDup (map (fun n => join_output n j0) (seq 0 140)) /\
    exists n, (n < 140)%nat /\ join_output n j0 = 2 ^ 7 * 7 + 15.
Proof.
  apply (join_outputs_enumerate 7 15); vm_compute; [now left|now left].
Defined.

Lemma mirror_table : forallb mirror_row (seq 0 280) = true.
Proof. vm_compute. reflexivity. Qed.

(** X13. The outputs of the joiner have period 280: output [n + 280] is
    output [n]; and within a period the second half replays the first
    backwards: output [280 q + 279 - r] is output [280 q + r]. *)
Theorem join_outputs_period (q r : nat) :
  (r < 280)%nat -> Z.of_nat (q * 280 + 280 + r) < 2 ^ 31 ->
  exists j0, gray_join = Some j0 /\
    join_output (q * 280 + 280 + r) j0 = join_output (q * 280 + r) j0 /\
    join_output (q * 280 + (279 - r)) j0 = join_output (q * 280 + r) j0.
Proof.
  intros Hr Hb. eexists. split; [apply gray_join_start|].
  rewrite !join_output_joined by lia.
  replace (q * 280 + 280 + r)%nat with (S q * 280 + r)%nat by lia.
  rewrite !joined_cycle. split; [reflexivity|].
  pose proof (forallb_seq _ 280 r mirror_table Hr) as H.
  now apply Z.eqb_eq in H.
Qed.

Lemma join_outputs_period_witness :
  exists j0, gray_join = Some j0 /\
    join_output (1 * 280 + 280 + 5) j0 = join_output (1 * 280 + 5) j0 /\
    join_output (1 * 280 + (279 - 5)) j0 = join_output (1 * 280 + 5) j0.
Proof. apply (join_outputs_period 1 5); [lia | reflexivity]. Defined.

(** * Further properties of the driver *)

Lemma zlist_eqb_eq a : forall b, zlist_eqb a b = true -> a = b.
Proof.
  induction a as [|x a IH]; intros [|y b] H; try discriminate; [reflexivity|].
  cbn [zlist_eqb] in H. apply andb_true_iff in H. destruct H as [Hx Ht].
  apply Z.eqb_eq in Hx. subst. f_equal. now apply IH.
Qed.

Lemma init_table a0 a1 a2 a3 a4 a5 a6 a7 a8 a9 a10 b0 b1 b2 b3 b4 b5 b6 :
  forallb (init_row [a0; a1; a2; a3; a4; a5; a6; a7; a8; a9; a10]
                    [b0; b1; b2; b3; b4; b5; b6]) (seq 0 2048) = true.
Proof. vm_compute. reflexivity. Qed.

(** X14. The loop that fills the index maps, for any selection of the 11
    items and whatever the arrays held: with more than 7 items selected it
    writes past the end of [comb_to_main]; otherwise it counts the selected
    items, lists them in ascending order at the start of [comb_to_main], and
    gives every item in [main_to_comb] the number of selected items below it
    if it is selected and [-1] if it is not. *)
Theorem init_maps_spec (selected : Z) (m2c0 c2m0 : list Z) :
  0 <= selected < 2 ^ 11 -> length m2c0 = 11%nat -> length c2m0 = 7%nat ->
  let items := selected_items selected in
  ((7 < length items)%nat -> init_maps selected m2c0 c2m0 = None) /\
  ((length items <= 7)%nat ->
   exists m2c c2m,
     init_maps selected m2c0 c2m0 = Some (Z.of_nat (length items), m2c, c2m) /\
     firstn (length items) c2m = items /\ length c2m = 7%nat /\
     m2c = map (slot_or_none selected) (map Z.of_nat (seq 0 11))).
Proof.
  intros Hs H11 H7.
  destruct m2c0 as [|a0 [|a1 [|a2 [|a3 [|a4 [|a5 [|a6 [|a7 [|a8 [|a9 [|a10
    [|]]]]]]]]]]]]; try discriminate H11.
  destruct c2m0 as [|b0 [|b1 [|b2 [|b3 [|b4 [|b5 [|b6 [|]]]]]]]];
    try discriminate H7.
  pose proof (init_table a0 a1 a2 a3 a4 a5 a6 a7 a8 a9 a10
                b0 b1 b2 b3 b4 b5 b6) as H.
  apply (forallb_seq _ 2048 (Z.to_nat selected)) in H;
    [|assert (2 ^ 11 = 2048) by reflexivity; lia].
  unfold init_row in H. rewrite Z2Nat.id in H by lia. cbv zeta in *.
  destruct (init_maps selected _ _) as [[[c m2c] c2m]|].
  - apply andb_true_iff in H; destruct H as [H Hm].
    apply andb_true_iff in H; destruct H as [H Hl].
    apply andb_true_iff in H; destruct H as [H Hf].
    apply andb_true_iff in H; destruct H as [Hk Hc].
    apply Nat.leb_le in Hk. apply Z.eqb_eq in Hc. apply Nat.eqb_eq in Hl.
    apply zlist_eqb_eq in Hf. apply zlist_eqb_eq in Hm.
    split; [lia|]. intros _. exists m2c, c2m. subst c. now repeat split.
  - apply Nat.ltb_lt in H. split; [reflexivity|lia].
Qed.

Lemma init_maps_spec_witness :
  let items := selected_items 911 in
  ((7 < length items)%nat -> init_maps 911 (repeat 0 11) (repeat 0 7) = None) /\
  ((length items <= 7)%nat ->
   exists m2c c2m,
     init_maps 911 (repeat 0 11) (repeat 0 7)
       = Some (Z.of_nat (length items), m2c, c2m) /\
     firstn (length items) c2m = items /\ length c2m = 7%nat /\
     m2c = map (slot_or_none 911) (map Z.of_nat (seq 0 11))).
Proof.
  apply (init_maps_spec 911 (repeat 0 11) (repeat 0 7));
    [split; [discriminate | reflexivity] | reflexivity | reflexivity].
Defined.

Lemma step_table a0 a1 a2 a3 a4 a5 a6 a7 a8 a9 a10 b0 b1 b2 b3 b4 b5 b6 :
  forallb (step_row [a0; a1; a2; a3; a4; a5; a6; a7; a8; a9; a10]
                    [b0; b1; b2; b3; b4; b5; b6]) (seq 0 139) = true.
Proof. vm_compute. reflexivity. Qed.

(** X15. Every one of the 139 iterations of the step loop swaps one item
    for another: [removed] and [added] are two different items below 11,
    the first selected before and the second not; the new selection is the
    old one without [removed] and with [added]; [added] takes the slot of
    [removed], no other entry of [comb_to_main] changes, and in
    [main_to_comb] only the entries of [removed] and [added] change. *)
Theorem sherman_step_swaps (n : nat) (m2c0 c2m0 : list Z) :
  (n < 139)%nat -> length m2c0 = 11%nat -> length c2m0 = 7%nat ->
  exists d d' k,
    sherman_after n m2c0 c2m0 = Some d /\ sherman_step d = Some d' /\
    let next := fst (join_next (gray_ d)) in
    let r := removed_of (selected d) next in
    let a := added_of (selected d) next in
    load (main_to_comb d) r = Some k /\ 0 <= k <= 6 /\
    0 <= r < 11 /\ 0 <= a < 11 /\ r <> a /\
    Z.testbit (selected d) r = true /\ Z.testbit (selected d) a = false /\
    selected d' = next /\ selected d' = selected d - 2 ^ r + 2 ^ a /\
    comb_to_main d' = store_nat (comb_to_main d) (Z.to_nat k) a /\
    main_to_comb d' =
      store_nat (store_nat (main_to_comb d) (Z.to_nat r) (-1)) (Z.to_nat a) k.
Proof.
  intros Hn H11 H7.
  destruct m2c0 as [|a0 [|a1 [|a2 [|a3 [|a4 [|a5 [|a6 [|a7 [|a8 [|a9 [|a10
    [|]]]]]]]]]]]]; try discriminate H11.
  destruct c2m0 as [|b0 [|b1 [|b2 [|b3 [|b4 [|b5 [|b6 [|]]]]]]]];
    try discriminate H7.
  pose proof (step_table a0 a1 a2 a3 a4 a5 a6 a7 a8 a9 a10
                b0 b1 b2 b3 b4 b5 b6) as H.
  apply (forallb_seq _ 139 n) in H; [|exact Hn].
  unfold step_row in H.
  destruct (sherman_after n _ _) as [d|] eqn:Hd; [|discriminate].
  destruct (sherman_step d) as [d'|] eqn:Hd'; [|discriminate].
  cbv zeta in H.
  destruct (load (main_to_comb d) _) as [k|] eqn:Hk; [|discriminate].
  exists d, d', k. split; [reflexivity|]. split; [exact Hd'|]. cbv zeta.
  repeat (apply andb_true_iff in H; destruct H as [H ?C]).
  repeat match goal with
         | E : (_ =? _) = true |- _ => apply Z.eqb_eq in E
         | E : (_ <=? _) = true |- _ => apply Z.leb_le in E
         | E : (_ <? _) = true |- _ => apply Z.ltb_lt in E
         | E : negb (Z.testbit _ _) = true |- _ => apply negb_true_iff in E
         | E : negb (_ =? _) = true |- _ =>
             apply negb_true_iff in E; apply Z.eqb_neq in E
         | E : zlist_eqb _ _ = true |- _ => apply zlist_eqb_eq in E
         end.
  repeat split; try assumption; try lia; congruence.
Qed.

Lemma sherman_step_swaps_witness :
  exists d d' k,
    sherman_after 0 (repeat 0 11) (repeat 0 7) = Some d /\
    sherman_step d = Some d' /\
    let next := fst (join_next (gray_ d)) in
    let r := removed_of (selected d) next in
    let a := added_of (selected d) next in
    load (main_to_comb d) r = Some k /\ 0 <= k <= 6 /\
    0 <= r < 11 /\ 0 <= a < 11 /\ r <> a /\
    Z.testbit (selected d) r = true /\ Z.testbit (selected d) a = false /\
    selected d' = next /\ selected d' = selected d - 2 ^ r + 2 ^ a /\
    comb_to_main d' = store_nat (comb_to_main d) (Z.to_nat k) a /\
    main_to_comb d' =
      store_nat (store_nat (main_to_comb d) (Z.to_nat r) (-1)) (Z.to_nat a) k.
Proof.
  apply (sherman_step_swaps 0 (repeat 0 11) (repeat 0 7));
    [lia | reflexivity | reflexivity].
Defined.

(** ** The initial combination matrix *)

Section SetAt.
Context {X : Type}.

Lemma set_at_length (l : list X) : forall i v, length (set_at l i v) = length l.
Proof.
  induction l as [|x t IH]; intros [|i] v; cbn [set_at length]; auto.
Qed.

Lemma set_at_same (l : list X) : forall i v,
  nth_error l i = Some v -> set_at l i v = l.
Proof.
  induction l as [|x t IH]; intros [|i] v H; cbn in *; try discriminate.
  - now injection H as ->.
  - f_equal. now apply IH.
Qed.

Lemma set_at_nth_error (l : list X) : forall i v,
  (i < length l)%nat -> nth_error (set_at l i v) i = Some v.
Proof.
  induction l as [|x t IH]; intros [|i] v H; cbn in *; try lia; auto.
  apply IH. lia.
Qed.

Lemma set_at_twice (l : list X) : forall i v w,
  set_at (set_at l i v) i w = set_at l i w.
Proof.
  induction l as [|x t IH]; intros [|i] v w; cbn [set_at]; auto.
  f_equal. apply IH.
Qed.

Lemma set_at_firstn (l : list X) : forall i v,
  (i < length l)%nat -> firstn (S i) (set_at l i v) = firstn i l ++ [v].
Proof.
  induction l as [|x t IH]; intros [|i] v H; cbn in *; try lia; auto.
  f_equal. apply IH. lia.
Qed.

Lemma set_at_skipn (l : list X) : forall i m v,
  (i < m)%nat -> skipn m (set_at l i v) = skipn m l.
Proof.
  induction l as [|x t IH]; intros [|i] [|m] v H; cbn in *; try lia; auto.
  apply IH. lia.
Qed.

Lemma set_at_split (l : list X) : forall i v,
  (i < length l)%nat -> set_at l i v = firstn i l ++ v :: skipn (S i) l.
Proof.
  induction l as [|x t IH]; intros [|i] v H; cbn in *; try lia; auto.
  f_equal. apply IH. lia.
Qed.

Lemma set_at_In (l : list X) : forall i v r,
  In r (set_at l i v) -> r = v \/ In r l.
Proof.
  induction l as [|x t IH]; intros [|i] v r H; cbn in *; auto.
  - destruct H as [<-|H]; auto.
  - destruct H as [<-|H]; auto. destruct (IH _ _ _ H); auto.
Qed.

End SetAt.

Section Fill.
Context {A : Type}.
Variable main : Z -> Z -> A.
Variable selected : Z.

Let sel := Z.testbit selected.
Let items := selected_items selected.

Lemma store2_row (comb : list (list A)) (row : list A) (ci cj : nat) v :
  nth_error comb ci = Some row -> (cj < length row)%nat ->
  store2 comb (Z.of_nat ci) (Z.of_nat cj) v =
  Some (set_at comb ci (set_at row cj v)).
Proof.
  intros Hrow Hcj. unfold store2. rewrite !Nat2Z.id, Hrow.
  assert (ci < length comb)%nat
    by (apply nth_error_Some; congruence).
  destruct (Z.leb_spec 0 (Z.of_nat ci)); [|lia].
  destruct (Z.ltb_spec (Z.of_nat ci) (Z.of_nat (length comb))); [|lia].
  destruct (Z.leb_spec 0 (Z.of_nat cj)); [|lia].
  destruct (Z.ltb_spec (Z.of_nat cj) (Z.of_nat (length row))); [|lia].
  reflexivity.
Qed.

(** The loop on [j], for a selected [i]: the row [ci] receives the entries
    of row [i] of [main] at the selected columns, from column [cj] on. *)
Lemma inner_fill (i : Z) (ci : nat) (l : list Z) :
  sel i = true ->
  forall (cj : nat) (comb : list (list A)) (row : list A),
    nth_error comb ci = Some row ->
    (cj + length (filter sel l) <= length row)%nat ->
    fold_left (inner_step main selected i (Z.of_nat ci)) l
              (Some (Z.of_nat cj, comb)) =
    Some (Z.of_nat (cj + length (filter sel l)),
          set_at comb ci (firstn cj row ++ map (main i) (filter sel l)
                          ++ skipn (cj + length (filter sel l)) row)).
Proof.
  intros Hi. induction l as [|j l IH]; intros cj comb row Hrow Hlen.
  - cbn [filter length map app fold_left]. rewrite Nat.add_0_r.
    now rewrite firstn_skipn, set_at_same.
  - cbn [filter] in Hlen. cbn [fold_left inner_step filter].
    fold sel. rewrite Hi. cbn [andb].
    destruct (sel j) eqn:Hj.
    + cbn [length] in *.
      rewrite (store2_row comb row) by (try assumption; lia).
      replace (Z.of_nat cj + 1) with (Z.of_nat (S cj)) by lia.
      assert (ci < length comb)%nat by (apply nth_error_Some; congruence).
      rewrite (IH (S cj) _ (set_at row cj (main i j)));
        [|now apply set_at_nth_error|rewrite set_at_length; lia].
      rewrite set_at_twice, set_at_firstn by lia.
      rewrite set_at_skipn by lia. cbn [map].
      rewrite <- app_assoc. cbn [app].
      now rewrite Nat.add_succ_comm.
    + now apply IH.
Qed.

Lemma inner_skip (i ci : Z) (l : list Z) : sel i = false ->
  forall st, fold_left (inner_step main selected i ci) l (Some st) = Some st.
Proof.
  intros Hi. induction l as [|j l IH]; intros [cj comb]; [reflexivity|].
  cbn [fold_left inner_step]. fold sel. rewrite Hi. cbn [andb]. apply IH.
Qed.

(** The loop on [i]: the rows from [ci] on receive the selected rows of
    [main], restricted to the selected columns. *)
Lemma outer_fill (l : list Z) :
  forall (ci : nat) (comb : list (list A)),
    (forall row, In row comb -> length row = length items) ->
    (ci + length (filter sel l) <= length comb)%nat ->
    fold_left (outer_step main selected) l (Some (Z.of_nat ci, comb)) =
    Some (Z.of_nat (ci + length (filter sel l)),
          firstn ci comb
          ++ map (fun i => map (main i) items) (filter sel l)
          ++ skipn (ci + length (filter sel l)) comb).
Proof.
  induction l as [|i l IH]; intros ci comb Hrows Hlen.
  - cbn [filter length map app fold_left]. rewrite Nat.add_0_r.
    now rewrite firstn_skipn.
  - cbn [filter] in Hlen. cbn [fold_left outer_step filter].
    destruct (sel i) eqn:Hi.
    + cbn [length] in *.
      destruct (nth_error comb ci) as [row|] eqn:Hrow;
        [|apply nth_error_None in Hrow; lia].
      assert (length row = length items) as Hrl
        by (apply Hrows; eapply nth_error_In; eassumption).
      assert (filter sel (map Z.of_nat (seq 0 11)) = items) as Hitems
        by reflexivity.
      change 0 with (Z.of_nat 0) at 1.
      rewrite (inner_fill i ci (map Z.of_nat (seq 0 11)) Hi 0 comb row Hrow)
        by (rewrite Hitems; lia).
      rewrite Hitems. fold sel. rewrite Hi.
      cbn [firstn app Nat.add]. rewrite <- Hrl, skipn_all, app_nil_r.
      replace (Z.of_nat ci + 1) with (Z.of_nat (S ci)) by lia.
      assert (ci < length comb)%nat by (apply nth_error_Some; congruence).
      rewrite IH.
      * rewrite set_at_firstn, set_at_skipn by lia. cbn [map].
        rewrite <- app_assoc. cbn [app]. now rewrite Nat.add_succ_comm.
      * intros r Hr. apply set_at_In in Hr. destruct Hr as [->|Hr].
        -- now rewrite length_map.
        -- now apply Hrows.
      * rewrite set_at_length. lia.
    + rewrite inner_skip by assumption. fold sel. rewrite Hi. now apply IH.
Qed.

End Fill.

(** X16. The loops that build the first combination matrix, for entries of
    any type, any selection and any square matrix to start from whose
    dimension is the number of selected items: no access goes out of range,
    the row counter ends at that number, and entry [(a, b)] of the matrix is
    entry [(i, j)] of [main] for [i] the [a]-th and [j] the [b]-th selected
    item. *)
Theorem initial_combination_spec {A : Type} (main : Z -> Z -> A)
    (selected : Z) (comb0 : list (list A)) :
  let items := selected_items selected in
  length comb0 = length items ->
  (forall row, In row comb0 -> length row = length items) ->
  initial_combination main selected comb0 =
  Some (Z.of_nat (length items), map (fun i => map (main i) items) items).
Proof.
  intros items Hlen Hrows. unfold initial_combination.
  change 0 with (Z.of_nat 0).
  assert (filter (Z.testbit selected) (map Z.of_nat (seq 0 11)) = items)
    as Hitems by reflexivity.
  rewrite (outer_fill main selected (map Z.of_nat (seq 0 11)) 0 comb0 Hrows)
    by (rewrite Hitems; cbn [Nat.add]; lia).
  rewrite Hitems. fold (selected_items selected). fold items.
  cbn [firstn app Nat.add]. now rewrite <- Hlen, skipn_all, app_nil_r.
Qed.

Lemma initial_combination_spec_witness :
  let items := selected_items 5 in
  initial_combination (fun i j => 10 * i + j) 5 [[0; 0]; [0; 0]] =
  Some (Z.of_nat (length items),
        map (fun i => map (fun j => 10 * i + j) items) items).
Proof.
  apply (initial_combination_spec (fun i j => 10 * i + j) 5 [[0; 0]; [0; 0]]).
  - reflexivity.
  - intros row [<-|[<-|[]]]; reflexivity.
Defined.

(** * benchmark.h *)

Section TimeFunc.
Context {S : Type}.
Variable f : S -> bool * S.
Variable iterations : Z.

Lemma time_func_loop_spec (fuel : nat) : forall i s calls,
  Z.of_nat fuel = Z.max 0 (iterations - i) ->
  exists d,
    time_func_loop f fuel i iterations s calls
      = ((calls + d)%nat, state_after f d s) /\
    (d <= fuel)%nat /\
    (forall k, (Datatypes.S k < d)%nat -> answer f k s = true) /\
    ((d < fuel)%nat -> (0 < d)%nat /\ answer f (d - 1) s = false).
Proof.
  induction fuel as [|fuel IH]; intros i s calls Hf.
  - exists 0%nat. cbn [time_func_loop state_after]. rewrite Nat.add_0_r.
    repeat split; try lia.
  - cbn [time_func_loop]. destruct (Z.ltb_spec i iterations) as [Hlt|]; [|lia].
    destruct (f s) as [ok s'] eqn:Hfs. destruct ok.
    + destruct (IH (i + 1) s' (Datatypes.S calls) ltac:(lia))
        as [d [Hloop [Hd [Hall Hstop]]]].
      exists (Datatypes.S d). cbn [state_after]. rewrite Hfs. cbn [snd].
      rewrite Hloop. split; [f_equal; lia|]. split; [lia|]. split.
      * intros [|k] Hk; unfold answer; cbn [state_after];
          rewrite Hfs; [reflexivity|]. cbn [snd]. apply Hall. lia.
      * intros Hlt'. destruct (Hstop ltac:(lia)) as [Hpos Hans].
        split; [lia|]. replace (Datatypes.S d - 1)%nat with (Datatypes.S (d - 1)) by lia.
        unfold answer in *. cbn [state_after]. now rewrite Hfs.
    + exists 1%nat. cbn [state_after]. rewrite Hfs. cbn [snd].
      split; [f_equal; lia|]. split; [lia|]. split; [intros k Hk; lia|].
      intros _. split; [lia|]. unfold answer. cbn. now rewrite Hfs.
Qed.

End TimeFunc.

(** X17. [time_func] calls [f] at most [iterations] times (never for
    [iterations <= 0]) and stops at the first call that answers [false]:
    every call but the last answered [true], and if fewer than [iterations]
    calls were made the last one answered [false]; so when no call fails,
    [f] is called exactly [iterations] times. *)
Theorem time_func_calls {S : Type} (f : S -> bool * S) (iterations : Z) (s : S) :
  exists c,
    time_func f iterations s = (c, state_after f c s) /\
    Z.of_nat c <= Z.max 0 iterations /\
    (forall k, (Datatypes.S k < c)%nat -> answer f k s = true) /\
    (Z.of_nat c < iterations ->
     (0 < c)%nat /\ answer f (c - 1) s = false) /\
    ((forall k, Z.of_nat k < iterations -> answer f k s = true) ->
     Z.of_nat c = Z.max 0 iterations).
Proof.
  destruct (time_func_loop_spec f iterations (Z.to_nat iterations) 0 s 0
              ltac:(lia)) as [d [Hloop [Hd [Hall Hstop]]]].
  exists d. unfold time_func. rewrite Hloop. cbn [Nat.add].
  split; [reflexivity|]. split; [lia|]. split; [exact Hall|]. split.
  - intros Hlt. apply Hstop. lia.
  - intros Hok. destruct (Nat.eq_dec d (Z.to_nat iterations)) as [->|Hne]; [lia|].
    destruct (Hstop ltac:(lia)) as [Hpos Hans].
    rewrite Hok in Hans by lia. discriminate.
Qed.

Lemma time_func_calls_witness :
  exists c,
    time_func (fun n => (n <? 3, n + 1)) 10 0 =
      (c, state_after (fun n => (n <? 3, n + 1)) c 0) /\
    Z.of_nat c <= Z.max 0 10 /\
    (forall k, (Datatypes.S k < c)%nat ->
       answer (fun n => (n <? 3, n + 1)) k 0 = true) /\
    (Z.of_nat c < 10 ->
     (0 < c)%nat /\ answer (fun n => (n <? 3, n + 1)) (c - 1) 0 = false) /\
    ((forall k, Z.of_nat k < 10 ->
        answer (fun n => (n <? 3, n + 1)) k 0 = true) ->
     Z.of_nat c = Z.max 0 10).
Proof. apply (time_func_calls (fun n => (n <? 3, n + 1)) 10 0). Defined.

(** * Further properties of the inverse update *)

Module UpdateTheory.
#[local] Set Warnings "-notation-overridden,-ambiguous-paths,-rewrite-rw".
Import mathcomp.boot.boot mathcomp.algebra.algebra.
Import GRing.Theory.
#[local] Set Warnings "notation-overridden,ambiguous-paths".
Import Matrix.
Local Open Scope ring_scope.

Section Updates.
Variable F : fieldType.
Variable n : nat.
Implicit Types (A inv : 'M[F]_n) (u : 'cV[F]_n) (v : 'rV[F]_n).

Lemma update_formula inv u v :
  sherman_morrison_update_inverse inv u v =
  inv - (denominator inv u v)^-1 *: ((inv *m u) *m (v *m inv)).
Proof.
  rewrite /sherman_morrison_update_inverse; congr (_ - _).
  by apply/matrixP => i j; rewrite !mxE mulrC.
Qed.

(** The changed matrix sends [inv * u] to [denominator * u]. *)
Lemma changed_on_inv_u A inv u v :
  A *m inv = 1%:M ->
  (A + u *m v) *m (inv *m u) = denominator inv u v *: u.
Proof.
  move=> AI; rewrite mulmxDl mulmxA AI mul1mx -mulmxA [v *m (inv *m u)]mulmxA.
  rewrite [v *m inv *m u]mx11_scalar mul_mx_scalar.
  by rewrite /denominator scalerDl scale1r.
Qed.

Lemma changed_right_inverse A inv u v :
  A *m inv = 1%:M -> denominator inv u v != 0 ->
  (A + u *m v) *m sherman_morrison_update_inverse inv u v = 1%:M.
Proof.
  move=> AI dn0; rewrite update_formula mulmxBr -scalemxAr.
  rewrite [_ *m (inv *m u *m _)]mulmxA changed_on_inv_u //.
  rewrite -scalemxAl scalerA mulVf // scale1r.
  by rewrite mulmxDl AI mulmxA addrK.
Qed.

Lemma changed_unit A inv u v :
  inv *m A = 1%:M ->
  (A + u *m v \in unitmx) = (denominator inv u v != 0).
Proof.
  move=> IA; have AI : A *m inv = 1%:M by apply: mulmx1C.
  apply/idP/idP => [U|dn0]; last first.
    by have [] := mulmx1_unit (changed_right_inverse A inv u v AI dn0).
  apply/negP => /eqP d0.
  have K : inv *m u = 0.
    by rewrite -[LHS](mulKmx U) changed_on_inv_u // d0 scale0r mulmx0.
  move: d0; rewrite /denominator -mulmxA K mulmx0 mxE addr0.
  by move/eqP; rewrite oner_eq0.
Qed.

(** X18. When [inv] is the inverse of [A], the changed matrix [A + u v]
    has an inverse exactly when the denominator [1 + v inv u] of the update
    is not zero: the update fails only where there is nothing to compute. *)
Theorem update_defined_iff A inv u v :
  inv *m A = 1%:M ->
  (A + u *m v \in unitmx) = (denominator inv u v != 0).
Proof. exact: changed_unit. Qed.

(** X19. Undoing a change restores the inverse: after an update for
    [u v] with a non-zero denominator, the update for [u (- v)] has a
    non-zero denominator too and gives back [inv]. *)
Theorem update_undo A inv u v :
  inv *m A = 1%:M -> denominator inv u v != 0 ->
  let inv' := sherman_morrison_update_inverse inv u v in
  denominator inv' u (- v) != 0 /\
  sherman_morrison_update_inverse inv' u (- v) = inv.
Proof.
  move=> IA dn0 inv'.
  have AI : A *m inv = 1%:M by apply: mulmx1C.
  have R : (A + u *m v) *m inv' = 1%:M by apply: changed_right_inverse.
  have L : inv' *m (A + u *m v) = 1%:M by apply: mulmx1C.
  have back : A + u *m v + u *m (- v) = A by rewrite mulmxN addrK.
  have UA : A \in unitmx by case: (mulmx1_unit AI).
  have d2 : denominator inv' u (- v) != 0.
    by rewrite -(changed_unit _ _ u (- v) L) back.
  split=> //.
  have R2 := changed_right_inverse _ _ u (- v) R d2.
  rewrite back in R2.
  by rewrite -[LHS]mul1mx -IA -mulmxA R2 mulmx1.
Qed.

(** X20. A change by nothing changes nothing: with [v = 0] (a row
    replaced by itself) or [u = 0] the update returns [inv]. *)
Theorem update_nothing inv u v :
  sherman_morrison_update_inverse inv u 0 = inv /\
  sherman_morrison_update_inverse inv 0 v = inv.
Proof.
  by rewrite !update_formula !(mul0mx, mulmx0) !scaler0 !subr0.
Qed.

End Updates.

(** Instances over the rationals: [A] is [[1 0] [1 2]], [inv] its inverse
    [[1 0] [-1/2 1/2]], and [v] is the row [(0 1)].  With the column
    [u = (1 0)] the changed matrix is [[1 1] [1 2]], of determinant 1, and
    the denominator is 1/2; with the column [w = (0 -2)] the changed matrix
    is [[1 0] [1 0]], which has no inverse, and the denominator is 0. *)
Lemma update_defined_iff_witness :
  let A : 'M[rat]_2 :=
    \matrix_(i, j) (nth 0 (nth [::] [:: [:: 1; 0]; [:: 1; 2]] i) j)%N%:R in
  let inv : 'M[rat]_2 :=
    \matrix_(i, j) (if i == ord0 then (j == ord0)%:R
                    else if j == ord0 then - 2%:R^-1 else 2%:R^-1) in
  let u : 'cV[rat]_2 := delta_mx ord0 ord0 in
  let w : 'cV[rat]_2 := - 2%:R *: delta_mx ord_max ord0 in
  let v : 'rV[rat]_2 := delta_mx ord0 ord_max in
  ((A + u *m v \in unitmx) = (denominator inv u v != 0) /\
   denominator inv u v = 2%:R^-1 /\ A + u *m v \in unitmx) /\
  ((A + w *m v \in unitmx) = (denominator inv w v != 0) /\
   denominator inv w v = 0 /\ A + w *m v \notin unitmx).
Proof.
  move=> A inv u w v.
  have IA : inv *m A = 1%:M.
    by apply/matrixP; apply: MatrixTheory.ord2_cases;
       apply: MatrixTheory.ord2_cases; MatrixTheory.entries.
  have du : denominator inv u v = 2%:R^-1 by MatrixTheory.entries.
  have dw : denominator inv w v = 0 by MatrixTheory.entries.
  have Eu := @update_defined_iff rat 2 A inv u v IA.
  have Ew := @update_defined_iff rat 2 A inv w v IA.
  split; split=> //; split=> //.
  - by rewrite Eu du.
  - by rewrite Ew dw eqxx.
Defined.

(** The same [A], [inv], [u] and [v]: the update gives [[2 -1] [-1 1]],
    and undoing it, with denominator 2, gives [inv] back. *)
Lemma update_undo_witness :
  let A : 'M[rat]_2 :=
    \matrix_(i, j) (nth 0 (nth [::] [:: [:: 1; 0]; [:: 1; 2]] i) j)%N%:R in
  let inv : 'M[rat]_2 :=
    \matrix_(i, j) (if i == ord0 then (j == ord0)%:R
                    else if j == ord0 then - 2%:R^-1 else 2%:R^-1) in
  let u : 'cV[rat]_2 := delta_mx ord0 ord0 in
  let v : 'rV[rat]_2 := delta_mx ord0 ord_max in
  let inv' := sherman_morrison_update_inverse inv u v in
  (denominator inv' u (- v) != 0 /\
   sherman_morrison_update_inverse inv' u (- v) = inv) /\
  denominator inv u v = 2%:R^-1 /\ denominator inv' u (- v) = 2%:R /\
  inv' ord0 ord0 = 2%:R /\ inv' ord0 ord_max = - 1 /\
  inv' ord_max ord0 = - 1 /\ inv' ord_max ord_max = 1.
Proof.
  move=> A inv u v inv'.
  have IA : inv *m A = 1%:M.
    by apply/matrixP; apply: MatrixTheory.ord2_cases;
       apply: MatrixTheory.ord2_cases; MatrixTheory.entries.
  have du : denominator inv u v = 2%:R^-1 by MatrixTheory.entries.
  have d0 : denominator inv u v != 0 by rewrite du.
  split; first exact: (@update_undo rat 2 A inv u v IA d0).
  split; first by [].
  by do !split; rewrite /inv' /sherman_morrison_update_inverse;
     MatrixTheory.entries.
Defined.

End UpdateTheory.
